(** * agora_log: a shallow embedding of the structured-logging pipeline

    The development follows the Python package [agora_log]:
    - [level.py]                  -> [LogLevel]
    - [logger.py]                 -> [SourceLocation], [_capture_source_location],
                                     [Logger], [_log], [with_context], [timer]
    - [handlers/base.py]          -> the [Handler] class
    - [handlers/console.py]       -> [ConsoleHandler]
    - [handlers/file.py]          -> [FileHandler]
    - [handlers/rotating.py]      -> [RotatingFileHandler]
    - [handlers/async_handler.py] -> [AsyncHandler]

    Python objects that are mutated in place (lists and dicts held in a
    logger context) live in an explicit heap; exceptions are an outcome of
    every call; I/O failures are driven by a fault schedule carried by the
    device a handler writes to. *)

From Stdlib Require Import ZArith QArith String Ascii List Lia.
From stdpp Require Import base option list gmap strings pretty.

Local Open Scope string_scope.
Local Open Scope list_scope.
Local Open Scope Z_scope.

(** ** Python calls: outcomes and a small state monad *)

(** Subclasses of [Exception] that the modelled code can meet. *)
Inductive exn : Type :=
| OSError
| TypeError
| ValueError
| AttributeError
| QueueFull
| QueueEmpty.

(** A call returns a value, raises, or (for [queue.Queue.put] on a full
    queue) suspends the calling thread. *)
Inductive outcome (A : Type) : Type :=
| Returns (a : A)
| Raises (e : exn)
| Blocks.
Arguments Returns {A} a.
Arguments Raises {A} e.
Arguments Blocks {A}.

(** A computation over a state [S]; the state survives an exception, as a
    Python object keeps the updates made before a [raise]. *)
Definition M (S A : Type) : Type := S -> outcome A * S.

Definition ret {S A} (a : A) : M S A := fun s => (Returns a, s).

Definition bind {S A B} (m : M S A) (k : A -> M S B) : M S B :=
  fun s =>
    match m s with
    | (Returns a, s') => k a s'
    | (Raises e, s') => (Raises e, s')
    | (Blocks, s') => (Blocks, s')
    end.

Definition raise {S A} (e : exn) : M S A := fun s => (Raises e, s).

Definition gets {S A} (f : S -> A) : M S A := fun s => (Returns (f s), s).

Definition modify {S} (f : S -> S) : M S unit := fun s => (Returns tt, f s).

(** [try: body / except Exception: handler]. *)
Definition try_except {S A} (body : M S A) (handler : exn -> M S A) : M S A :=
  fun s =>
    match body s with
    | (Raises e, s') => handler e s'
    | r => r
    end.

(** [try: body / except Exception: pass]. *)
Definition try_pass {S} (body : M S unit) : M S unit :=
  try_except body (fun _ => ret tt).

(** Run a computation on a component of a larger state. *)
Definition zoom {S T A} (get : S -> T) (set : T -> S -> S) (m : M T A) : M S A :=
  fun s => let '(r, t') := m (get s) in (r, set t' s).

Declare Scope py_scope.
Delimit Scope py_scope with py.
Notation "x <- m ;; k" := (bind m (fun x => k))
  (at level 100, m at next level, right associativity) : py_scope.
Notation "m ;;; k" := (bind m (fun _ => k))
  (at level 100, right associativity) : py_scope.
Local Open Scope py_scope.

Definition returns {A S} (r : outcome A * S) : Prop :=
  match r.1 with Returns _ => True | _ => False end.

(** ** level.py *)

Inductive LogLevel : Type := DEBUG | INFO | WARNING | ERROR | CRITICAL.

Module Level.
  (** [IntEnum] value. *)
Definition value (l : LogLevel) : Z :=
    match l with
    | DEBUG => 10
    | INFO => 20
    | WARNING => 30
    | ERROR => 40
    | CRITICAL => 50
    end.

  (** [IntEnum] member name. *)
Definition name (l : LogLevel) : string :=
    match l with
    | DEBUG => "DEBUG"
    | INFO => "INFO"
    | WARNING => "WARNING"
    | ERROR => "ERROR"
    | CRITICAL => "CRITICAL"
    end.
End Level.

(** ** Python values and the heap

Context values are the closed family string / number / bool / None /
    list / dict.  Lists and dicts are mutable objects: a value only holds
    a reference to them. *)

Definition addr := nat.

Inductive value : Type :=
| VNone
| VBool (b : bool)
| VInt (n : Z)
| VFloat (x : Q)
| VStr (s : string)
| VRef (a : addr).

Inductive obj : Type :=
| OList (items : list value)
| ODict (items : gmap string value).

(** The heap: object [a] is [h !! a]; allocation appends. *)
Abbreviation heap := (list obj).

(** An exception object as [_log] reads it: its truth value [bool(e)]
    (true unless the class defines [__bool__] or [__len__] otherwise),
    [type(e).__name__], [str(e)] and the formatted traceback ([None]
    when [e.__traceback__] is unset). *)
Record pyexc : Type := {
  exc_truth : bool;
  exc_type : string;
  exc_message : string;
  exc_traceback : option string
}.

(** ** Log entries

    An entry is the dict built by [Logger._log]: string keys, and values
    that are strings, integers, context values, the nested context dict
    or the exception descriptor. *)

Inductive field : Type :=
| FStr (s : string)
| FInt (n : Z)
| FVal (v : value)
| FCtx (d : gmap string value)
| FExc (type message stacktrace : string).

Abbreviation entry := (gmap string field).

(** ** config.py: the options the core reads *)

Module Config.
Record LogConfig : Type := {
  service_name : string;
  environment : string;
  version : string;
  level : LogLevel;
  console_enabled : bool;
  console_format : string;
  console_colors : bool;
  file_enabled : bool;
  file_path : string;
  max_file_size_mb : Z;
  max_backup_count : Z;
  async_enabled : bool;
  queue_size : Z
}.
End Config.
Export Config (LogConfig).

(** ** logger.py: source location *)

Record SourceLocation : Type := {
  file : string;
  line : Z;
  function : string
}.

(** A frame object: [f_code.co_filename], [f_lineno], [f_code.co_name].
    A frame chain is the list of frames from the innermost one outwards:
    the head is the frame, the tail is what [f_back] leads to, and [[]]
    is [None]. *)
Record frame : Type := {
  co_filename : string;
  f_lineno : Z;
  co_name : string
}.

(** [os.path.basename]: what follows the last slash. *)
Fixpoint basename_from (acc p : string) : string :=
  match p with
  | EmptyString => acc
  | String c rest =>
      if Ascii.eqb c "/"%char then basename_from EmptyString rest
      else basename_from (acc ++ String c EmptyString)%string rest
  end.

Definition basename (p : string) : string := basename_from EmptyString p.

(** The loop [for _ in range(stack_depth): if frame is None: break;
    frame = frame.f_back]. *)
Fixpoint f_back_loop (stack_depth : nat) (fr : list frame) : list frame :=
  match stack_depth with
  | O => fr
  | S n =>
      match fr with
      | [] => []
      | _ :: back => f_back_loop n back
      end
  end.

(** [current] is what [inspect.currentframe()] returns inside the
    function. *)
Definition _capture_source_location (current : list frame) (stack_depth : nat)
  : SourceLocation :=
  match f_back_loop stack_depth current with
  | [] => {| file := "<unknown>"; line := 0; function := "<unknown>" |}
  | fr :: _ =>
      {| file := basename (co_filename fr);
         line := f_lineno fr;
         function := co_name fr |}
  end.

(** ** handlers/base.py *)

Module Base.
Class Handler (H : Type) : Type := {
    emit : entry -> M H unit;
    flush : M H unit;
    close : M H unit
  }.
End Base.
Export Base (Handler).

(** ** logger.py: the Logger *)

(** [_context] is a reference to the dict object holding the context.
    [self._handlers] is one list object shared by the root logger and
    every logger derived from it; the handler objects it holds are the
    state the logging calls run over. *)
Record Logger : Type := {
  _name : string;
  _config : LogConfig;
  _context : addr
}.

(** What a log call reads from its surroundings: the frame chain of the
    code calling [_log] (innermost first), the clock and the host name. *)
Record call_env : Type := {
  callers : list frame;
  now_isoformat : string;
  hostname : string
}.

Definition frame_of__log : frame :=
  {| co_filename := "agora_log/logger.py"; f_lineno := 122; co_name := "_log" |}.

Definition frame_of__capture_source_location : frame :=
  {| co_filename := "agora_log/logger.py"; f_lineno := 46;
     co_name := "_capture_source_location" |}.

(** The dict behind a reference; [None] when the object is not a dict. *)
Definition read_dict (hp : heap) (a : addr) : option (gmap string value) :=
  match hp !! a with
  | Some (ODict d) => Some d
  | _ => None
  end.

Definition special_keys : list string :=
  ["correlation_id"; "user_id"; "trace_id"; "span_id"].

(** [del entry["context"][key]] *)
Definition del_context (key : string) (e : entry) : entry :=
  match e !! "context" with
  | Some (FCtx c) => <["context" := FCtx (delete key c)]> e
  | _ => e
  end.

(** One turn of the promotion loop. *)
Definition promote (merged_context : gmap string value) (e : entry) (key : string)
  : entry :=
  match merged_context !! key with
  | Some v => del_context key (<[key := FVal v]> e)
  | None => e
  end.

(** [if exception: entry["exception"] = {...}]: the test is on the
    truth value, so [None] and an exception object that is false leave
    the entry as it is. *)
Definition attach_exception (exception : option pyexc) (e : entry) : entry :=
  match exception with
  | Some x =>
      if exc_truth x then
        <["exception" :=
            FExc (exc_type x) (exc_message x)
                 (match exc_traceback x with Some t => t | None => "" end)]> e
      else e
  | None => e
  end.

(** The entry [_log] builds once the level check has passed
    (logger.py, from the source-location capture to the exception
    descriptor). *)
Definition _log_entry (env : call_env) (self : Logger) (level : LogLevel)
    (message : string) (exception : option pyexc)
    (context kwargs : gmap string value) : entry :=
  let source :=
    _capture_source_location
      (frame_of__capture_source_location :: frame_of__log :: callers env) 3 in
  let merged_context := kwargs ∪ context in
  let e : entry :=
    <["context" := FCtx merged_context]>
    (<["function" := FStr (function source)]>
    (<["line" := FInt (line source)]>
    (<["file" := FStr (file source)]>
    (<["logger_name" := FStr (_name self)]>
    (<["host" := FStr (hostname env)]>
    (<["version" := FStr (Config.version (_config self))]>
    (<["environment" := FStr (Config.environment (_config self))]>
    (<["service" := FStr (Config.service_name (_config self))]>
    (<["message" := FStr message]>
    (<["level" := FStr (Level.name level)]>
    (<["timestamp" := FStr (now_isoformat env)]> ∅))))))))))) in
  let e := fold_left (promote merged_context) special_keys e in
  attach_exception exception e.

Section logger.
Context {H : Type} `{Base.Handler H}.

  (** [for handler in self._handlers: handler.emit(entry)]: an exception
      leaves the loop. *)
Fixpoint emit_all (e : entry) (handlers : list H) : outcome unit * list H :=
    match handlers with
    | [] => (Returns tt, [])
    | h :: rest =>
        match Base.emit e h with
        | (Returns _, h') =>
            let '(r, rest') := emit_all e rest in (r, h' :: rest')
        | (Raises x, h') => (Raises x, h' :: rest)
        | (Blocks, h') => (Blocks, h' :: rest)
        end
    end.

Definition _log (hp : heap) (env : call_env) (self : Logger) (level : LogLevel)
      (message : string) (exception : option pyexc)
      (kwargs : gmap string value) : M (list H) unit :=
    if (Level.value level <? Level.value (Config.level (_config self)))%Z
    then ret tt
    else
      match read_dict hp (_context self) with
      | None => raise TypeError
      | Some context =>
          emit_all (_log_entry env self level message exception context kwargs)
      end.
End logger.

(** ** formatter.py and the devices handlers write to *)

(** The serializers are external to the core: they take an entry and
    give a string, or raise. *)
Class Formatter : Type := {
  format_json : entry -> exn + string;
  format_text : entry -> exn + string
}.

Definition lift {S A} (r : exn + A) : M S A :=
  match r with
  | inl e => raise e
  | inr a => ret a
  end.

(** A device carries the schedule of its coming I/O faults: each
    primitive operation takes the next flag, and raises [OSError]
    without effect when the flag is set. *)
Definition next_fault (faults : list bool) : bool * list bool :=
  match faults with
  | [] => (false, [])
  | b :: rest => (b, rest)
  end.

Definition newline : string := String (ascii_of_nat 10) EmptyString.

(** A text stream such as [sys.stdout]. *)
Record stream : Type := {
  written : string;
  stream_faults : list bool
}.

Definition stream_io (effect : string -> string) : M stream unit :=
  fun s =>
    let '(bad, rest) := next_fault (stream_faults s) in
    if bad then (Raises OSError, {| written := written s; stream_faults := rest |})
    else (Returns tt, {| written := effect (written s); stream_faults := rest |}).

Definition stream_write (text : string) : M stream unit :=
  stream_io (fun w => (w ++ text)%string).

Definition stream_flush : M stream unit := stream_io id.

(** A file system: path to content (a byte string). *)
Record disk : Type := {
  files : gmap string string;
  disk_faults : list bool
}.

Definition disk_io {A} (op : gmap string string -> exn + (A * gmap string string))
  : M disk A :=
  fun d =>
    let '(bad, rest) := next_fault (disk_faults d) in
    if bad then (Raises OSError, {| files := files d; disk_faults := rest |})
    else
      match op (files d) with
      | inl e => (Raises e, {| files := files d; disk_faults := rest |})
      | inr (a, fs) => (Returns a, {| files := fs; disk_faults := rest |})
      end.

(** [Path.exists()] *)
Definition path_exists (p : string) : M disk bool :=
  gets (fun d => bool_decide (is_Some (files d !! p))).

(** [Path.stat().st_size] *)
Definition stat_size (p : string) : M disk Z :=
  disk_io (fun fs =>
    match fs !! p with
    | Some content => inr (Z.of_nat (String.length content), fs)
    | None => inl OSError
    end).

(** [Path.unlink()] *)
Definition unlink (p : string) : M disk unit :=
  disk_io (fun fs =>
    match fs !! p with
    | Some _ => inr (tt, delete p fs)
    | None => inl OSError
    end).

(** [Path.rename(dst)] *)
Definition rename (src dst : string) : M disk unit :=
  disk_io (fun fs =>
    match fs !! src with
    | Some content => inr (tt, <[dst := content]> (delete src fs))
    | None => inl OSError
    end).

(** [Path.parent.mkdir(parents=True, exist_ok=True)]: directories are
    not part of the file map, only the fault point is. *)
Definition mkdir_parents (p : string) : M disk unit :=
  disk_io (fun fs => inr (tt, fs)).

(** A file object opened in append mode. *)
Record pyfile : Type := {
  opened_on : string;
  closed : bool
}.

(** [open(path, "a", encoding="utf-8")] creates the file when missing. *)
Definition open_append (p : string) : M disk pyfile :=
  disk_io (fun fs =>
    inr ({| opened_on := p; closed := false |},
         match fs !! p with
         | Some _ => fs
         | None => <[p := ""]> fs
         end)).

(** [f.write(text)] *)
Definition file_write (f : pyfile) (text : string) : M disk unit :=
  disk_io (fun fs =>
    if closed f then inl ValueError
    else
      inr (tt, <[opened_on f :=
                   ((match fs !! opened_on f with Some c => c | None => "" end)
                    ++ text)%string]> fs)).

(** [f.flush()] *)
Definition file_flush (f : pyfile) : M disk unit :=
  disk_io (fun fs => if closed f then inl ValueError else inr (tt, fs)).

(** The I/O part of [f.close()]; the caller marks the object closed. *)
Definition file_close (f : pyfile) : M disk unit :=
  disk_io (fun fs => inr (tt, fs)).

Definition mark_closed (f : pyfile) : pyfile :=
  {| opened_on := opened_on f; closed := true |}.

(** [self._file and not self._file.closed] *)
Definition usable (f : option pyfile) : option pyfile :=
  match f with
  | Some o => if closed o then None else Some o
  | None => None
  end.

(** ** handlers/console.py *)

Module ConsoleHandler.
Record t : Type := {
    format : string;
    colors : bool;
    out : stream
  }.

Definition esc (code : string) : string :=
    String (ascii_of_nat 27) code.

Definition _color_codes : gmap string string :=
    <["DEBUG" := esc "[36m"]>
    (<["INFO" := esc "[32m"]>
    (<["WARNING" := esc "[33m"]>
    (<["ERROR" := esc "[31m"]>
    (<["CRITICAL" := esc "[35m"]>
    (<["RESET" := esc "[0m"]> ∅))))).

Definition on_stream {A} (m : M stream A) : M t A :=
    zoom out (fun o s => {| format := format s; colors := colors s; out := o |}) m.

Section methods.
Context `{Formatter}.

Definition render (self : t) (e : entry) : exn + string :=
      if String.eqb (format self) "json" then format_json e
      else
        match format_text e with
        | inl x => inl x
        | inr output =>
            match e !! "level" with
            | Some lv =>
                if colors self then
                  let color :=
                    match lv with
                    | FStr name =>
                        match _color_codes !! name with Some c => c | None => "" end
                    | _ => ""
                    end in
                  match _color_codes !! "RESET" with
                  | Some reset => inr (color ++ output ++ reset)%string
                  | None => inl ValueError
                  end
                else inr output
            | None => inr output
            end
        end.

Definition emit (e : entry) : M t unit :=
      try_pass
        (self <- gets id ;;
         output <- lift (render self e) ;;
         on_stream (stream_write (output ++ newline)%string) ;;;
         on_stream stream_flush).

Definition flush : M t unit :=
      try_pass (on_stream stream_flush).

Definition close : M t unit := flush.

#[global] Instance handler : Base.Handler t :=
      {| Base.emit := emit; Base.flush := flush; Base.close := close |}.
End methods.
End ConsoleHandler.

(** ** handlers/file.py *)

Module FileHandler.
Record t : Type := {
    file_path : string;
    _file : option pyfile;
    dev : disk
  }.

Definition on_dev {A} (m : M disk A) : M t A :=
    zoom dev (fun d s => {| file_path := file_path s; _file := _file s; dev := d |}) m.

Definition set_file (f : option pyfile) : M t unit :=
    modify (fun s => {| file_path := file_path s; _file := f; dev := dev s |}).

Definition _open : M t unit :=
    p <- gets file_path ;;
    f <- on_dev (open_append p) ;;
    set_file (Some f).

  (** [FileHandler(file_path)] on the file system [d]. *)
Definition __init__ (path : string) (d : disk) : outcome unit * t :=
    (on_dev (mkdir_parents path) ;;; _open)
      {| file_path := path; _file := None; dev := d |}.

Section methods.
Context `{Formatter}.

Definition emit (e : entry) : M t unit :=
      try_pass
        (output <- lift (format_json e) ;;
         f <- gets _file ;;
         match usable f with
         | Some o =>
             on_dev (file_write o (output ++ newline)%string) ;;;
             on_dev (file_flush o)
         | None => ret tt
         end).

Definition flush : M t unit :=
      try_pass
        (f <- gets _file ;;
         match usable f with
         | Some o => on_dev (file_flush o)
         | None => ret tt
         end).

Definition close : M t unit :=
      try_pass
        (f <- gets _file ;;
         match usable f with
         | Some o =>
             on_dev (file_flush o) ;;;
             set_file (Some (mark_closed o)) ;;;
             on_dev (file_close o)
         | None => ret tt
         end).

#[global] Instance handler : Base.Handler t :=
      {| Base.emit := emit; Base.flush := flush; Base.close := close |}.
End methods.
End FileHandler.

(** ** handlers/rotating.py *)

(** [range(start, 0, -1)] *)
Definition range_down_to_1 (start : Z) : list Z :=
  rev (map Z.of_nat (seq 1 (Z.to_nat start))).

(** [Path(f"{file_path}.{i}")] *)
Definition numbered (path : string) (i : Z) : string :=
  (path ++ "." ++ pretty i)%string.

Module RotatingFileHandler.
Record t : Type := {
    file_path : string;
    max_bytes : Z;
    backup_count : Z;
    _file : option pyfile;
    _current_size : Z;
    dev : disk
  }.

Definition on_dev {A} (m : M disk A) : M t A :=
    zoom dev
      (fun d s =>
         {| file_path := file_path s; max_bytes := max_bytes s;
            backup_count := backup_count s; _file := _file s;
            _current_size := _current_size s; dev := d |})
      m.

Definition set_file (f : option pyfile) : M t unit :=
    modify (fun s =>
      {| file_path := file_path s; max_bytes := max_bytes s;
         backup_count := backup_count s; _file := f;
         _current_size := _current_size s; dev := dev s |}).

Definition set_current_size (n : Z) : M t unit :=
    modify (fun s =>
      {| file_path := file_path s; max_bytes := max_bytes s;
         backup_count := backup_count s; _file := _file s;
         _current_size := n; dev := dev s |}).

Definition _open : M t unit :=
    p <- gets file_path ;;
    present <- on_dev (path_exists p) ;;
    (if present : bool
     then (n <- on_dev (stat_size p) ;; set_current_size n)
     else set_current_size 0) ;;;
    f <- on_dev (open_append p) ;;
    set_file (Some f).

  (** [RotatingFileHandler(file_path, max_bytes, backup_count)] on the
      file system [d]. *)
Definition __init__ (path : string) (maxb backups : Z) (d : disk)
    : outcome unit * t :=
    (on_dev (mkdir_parents path) ;;; _open)
      {| file_path := path; max_bytes := maxb; backup_count := backups;
         _file := None; _current_size := 0; dev := d |}.

Definition _should_rotate (self : t) (message_size : Z) : bool :=
    ((0 <? max_bytes self)%Z && (max_bytes self <? _current_size self + message_size)%Z).

  (** One turn of the backup loop: [P.i -> P.(i+1)]. *)
Definition shift_backup (p : string) (i : Z) : M t unit :=
    let src := numbered p i in
    let dst := numbered p (i + 1) in
    src_present <- on_dev (path_exists src) ;;
    if src_present : bool then
      dst_present <- on_dev (path_exists dst) ;;
      (if dst_present : bool then on_dev (unlink dst) else ret tt) ;;;
      on_dev (rename src dst)
    else ret tt.

Fixpoint shift_backups (p : string) (indices : list Z) : M t unit :=
    match indices with
    | [] => ret tt
    | i :: rest => shift_backup p i ;;; shift_backups p rest
    end.

Definition _do_rotate : M t unit :=
    f <- gets _file ;;
    (match usable f with
     | Some o => set_file (Some (mark_closed o)) ;;; on_dev (file_close o)
     | None => ret tt
     end) ;;;
    p <- gets file_path ;;
    n <- gets backup_count ;;
    shift_backups p (range_down_to_1 (n - 1)) ;;;
    present <- on_dev (path_exists p) ;;
    (if present : bool then
       let backup := numbered p 1 in
       backup_present <- on_dev (path_exists backup) ;;
       (if backup_present : bool then on_dev (unlink backup) else ret tt) ;;;
       on_dev (rename p backup)
     else ret tt) ;;;
    set_current_size 0 ;;;
    f' <- on_dev (open_append p) ;;
    set_file (Some f').

Section methods.
Context `{Formatter}.

Definition emit (e : entry) : M t unit :=
      try_pass
        (json <- lift (format_json e) ;;
         let output := (json ++ newline)%string in
         let message_size := Z.of_nat (String.length output) in
         self <- gets id ;;
         (if _should_rotate self message_size then _do_rotate else ret tt) ;;;
         f <- gets _file ;;
         match usable f with
         | Some o =>
             on_dev (file_write o output) ;;;
             on_dev (file_flush o) ;;;
             size <- gets _current_size ;;
             set_current_size (size + message_size)
         | None => ret tt
         end).

Definition flush : M t unit :=
      try_pass
        (f <- gets _file ;;
         match usable f with
         | Some o => on_dev (file_flush o)
         | None => ret tt
         end).

Definition close : M t unit :=
      try_pass
        (f <- gets _file ;;
         match usable f with
         | Some o =>
             on_dev (file_flush o) ;;;
             set_file (Some (mark_closed o)) ;;;
             on_dev (file_close o)
         | None => ret tt
         end).

#[global] Instance handler : Base.Handler t :=
      {| Base.emit := emit; Base.flush := flush; Base.close := close |}.
End methods.
End RotatingFileHandler.

(** ** handlers/async_handler.py

    The producer side ([emit], [flush], [close]) and the worker thread
    ([_process_queue]) act on one object.  The model is an interleaving:
    a producer call is one step, and the worker advances only where a
    call waits for it ([flush] polling, [close] joining).  [_thread]
    says where the worker stands, [joinable] how far it gets to run
    while a caller waits: one flag per loop iteration, set when
    [batch_timeout] has elapsed at that iteration's flush check. *)

Module AsyncHandler.
Inductive QueueFullBehavior : Type := DROP | BLOCK | FALLBACK.

Inductive worker : Type :=
  | AtLoopHead   (* about to test [while not self._stop] *)
  | InGet        (* inside [self._queue.get(timeout=timeout)] *)
  | Exited.

Record t (U : Type) : Type := {
    _underlying_handler : U;
    _queue : list (option entry);   (* [None] is the sentinel *)
    maxsize : Z;
    _on_full : QueueFullBehavior;
    _batch_size : Z;
    _stop : bool;
    _dropped_count : Z;
    batch : list entry;             (* local to [_process_queue] *)
    _thread : worker;
    joinable : list bool;
    stderr : stream                 (* what [sys.stderr] is for [print] *)
  }.
Arguments _underlying_handler {U} _.
Arguments _queue {U} _.
Arguments maxsize {U} _.
Arguments _on_full {U} _.
Arguments _batch_size {U} _.
Arguments _stop {U} _.
Arguments _dropped_count {U} _.
Arguments batch {U} _.
Arguments _thread {U} _.
Arguments joinable {U} _.
Arguments stderr {U} _.

Section methods.
Context {U : Type} `{Base.Handler U}.

Definition set_underlying (u : U) (s : t U) : t U :=
      {| _underlying_handler := u; _queue := _queue s; maxsize := maxsize s;
         _on_full := _on_full s; _batch_size := _batch_size s; _stop := _stop s;
         _dropped_count := _dropped_count s; batch := batch s;
         _thread := _thread s; joinable := joinable s; stderr := stderr s |}.

Definition set_queue (q : list (option entry)) (s : t U) : t U :=
      {| _underlying_handler := _underlying_handler s; _queue := q;
         maxsize := maxsize s; _on_full := _on_full s;
         _batch_size := _batch_size s; _stop := _stop s;
         _dropped_count := _dropped_count s; batch := batch s;
         _thread := _thread s; joinable := joinable s; stderr := stderr s |}.

Definition set_stop (b : bool) (s : t U) : t U :=
      {| _underlying_handler := _underlying_handler s; _queue := _queue s;
         maxsize := maxsize s; _on_full := _on_full s;
         _batch_size := _batch_size s; _stop := b;
         _dropped_count := _dropped_count s; batch := batch s;
         _thread := _thread s; joinable := joinable s; stderr := stderr s |}.

Definition set_dropped_count (n : Z) (s : t U) : t U :=
      {| _underlying_handler := _underlying_handler s; _queue := _queue s;
         maxsize := maxsize s; _on_full := _on_full s;
         _batch_size := _batch_size s; _stop := _stop s;
         _dropped_count := n; batch := batch s;
         _thread := _thread s; joinable := joinable s; stderr := stderr s |}.

Definition set_batch (b : list entry) (s : t U) : t U :=
      {| _underlying_handler := _underlying_handler s; _queue := _queue s;
         maxsize := maxsize s; _on_full := _on_full s;
         _batch_size := _batch_size s; _stop := _stop s;
         _dropped_count := _dropped_count s; batch := b;
         _thread := _thread s; joinable := joinable s; stderr := stderr s |}.

Definition set_thread (w : worker) (s : t U) : t U :=
      {| _underlying_handler := _underlying_handler s; _queue := _queue s;
         maxsize := maxsize s; _on_full := _on_full s;
         _batch_size := _batch_size s; _stop := _stop s;
         _dropped_count := _dropped_count s; batch := batch s;
         _thread := w; joinable := joinable s; stderr := stderr s |}.

Definition set_joinable (j : list bool) (s : t U) : t U :=
      {| _underlying_handler := _underlying_handler s; _queue := _queue s;
         maxsize := maxsize s; _on_full := _on_full s;
         _batch_size := _batch_size s; _stop := _stop s;
         _dropped_count := _dropped_count s; batch := batch s;
         _thread := _thread s; joinable := j; stderr := stderr s |}.

    (** [sys.stderr = err]: the process replaces or closes its standard
        error; the handler meets the new stream at its next [print]. *)
Definition set_stderr (err : stream) (s : t U) : t U :=
      {| _underlying_handler := _underlying_handler s; _queue := _queue s;
         maxsize := maxsize s; _on_full := _on_full s;
         _batch_size := _batch_size s; _stop := _stop s;
         _dropped_count := _dropped_count s; batch := batch s;
         _thread := _thread s; joinable := joinable s; stderr := err |}.

    (** [print(text, file=sys.stderr)]: the text, then the newline; a
        write that fails raises. *)
Definition print_stderr (text : string) : M (t U) unit :=
      zoom stderr set_stderr (stream_write text ;;; stream_write newline).

Definition on_underlying {A} (m : M U A) : M (t U) A :=
      zoom _underlying_handler set_underlying m.

    (** [AsyncHandler(underlying_handler, queue_size, on_full, batch_size,
        batch_timeout)]; the constructor starts the worker. *)
Definition __init__ (underlying : U) (queue_size : Z)
        (on_full : QueueFullBehavior) (batch_size : Z) (schedule : list bool)
      : t U :=
      {| _underlying_handler := underlying; _queue := []; maxsize := queue_size;
         _on_full := on_full; _batch_size := batch_size; _stop := false;
         _dropped_count := 0; batch := []; _thread := AtLoopHead;
         joinable := schedule;
         stderr := {| written := ""; stream_faults := [] |} |}.

Definition dropped_count (self : t U) : Z := _dropped_count self.

    (** *** queue.Queue(maxsize): bounded only when [maxsize > 0] *)

Definition full (self : t U) : bool :=
      ((0 <? maxsize self)%Z
       && (maxsize self <=? Z.of_nat (length (_queue self)))%Z).

Definition put_nowait (item : option entry) : M (t U) unit :=
      self <- gets id ;;
      if full self then raise QueueFull
      else modify (set_queue (_queue self ++ [item])).

Definition put (item : option entry) : M (t U) unit :=
      self <- gets id ;;
      if full self then (fun s => (Blocks, s))
      else modify (set_queue (_queue self ++ [item])).

    (** [get(timeout=...)] with nothing arriving during the wait. *)
Definition get : M (t U) (option entry) :=
      self <- gets id ;;
      match _queue self with
      | [] => raise QueueEmpty
      | item :: rest => modify (set_queue rest) ;;; ret item
      end.

    (** *** The worker *)

Fixpoint _flush_batch (b : list entry) : M (t U) unit :=
      match b with
      | [] => ret tt
      | e :: rest =>
          try_except (on_underlying (Base.emit e))
                     (fun _ => print_stderr "AsyncHandler emit error") ;;;
          _flush_batch rest
      end.

Definition nonempty {A} (l : list A) : bool :=
      match l with [] => false | _ => true end.

    (** One turn of the loop body, from the [get] on.  The result says
        whether the loop goes on ([false] after [break]). *)
Definition loop_body (timed_out : bool) : M (t U) bool :=
      try_except
        (broke <-
           try_except
             (item <- get ;;
              b <- gets batch ;;
              match item with
              | None =>
                  (if nonempty b then _flush_batch b else ret tt) ;;;
                  ret true
              | Some e =>
                  modify (set_batch (b ++ [e])) ;;;
                  ret false
              end)
             (fun x => match x with
                       | QueueEmpty => ret false
                       | _ => raise x
                       end) ;;
         if broke : bool then ret false
         else
           b <- gets batch ;;
           size <- gets _batch_size ;;
           let should_flush :=
             (size <=? Z.of_nat (length b))%Z || (nonempty b && timed_out) in
           (if should_flush && nonempty b
            then _flush_batch b ;;; modify (set_batch [])
            else ret tt) ;;;
           ret true)
        (fun _ => print_stderr "AsyncHandler error" ;;; ret true).

    (** One turn of the loop in the worker thread.  An exception that
        leaves [_process_queue] (a failing [print] in its handler) ends
        the thread: [threading] catches it at the top of the thread, and
        nothing reaches the threads that call [flush] or [close]. *)
Definition turn (timed_out : bool) : M (t U) bool :=
      try_except (loop_body timed_out) (fun _ => ret false).

    (** The worker runs for as many turns as [schedule] gives it. *)
Fixpoint _process_queue (schedule : list bool) : M (t U) unit :=
      match schedule with
      | [] => ret tt
      | timed_out :: later =>
          self <- gets id ;;
          match _thread self with
          | Exited => ret tt
          | AtLoopHead =>
              if _stop self then modify (set_thread Exited)
              else
                go_on <- turn timed_out ;;
                if go_on : bool then _process_queue later
                else modify (set_thread Exited)
          | InGet =>
              go_on <- turn timed_out ;;
              if go_on : bool
              then modify (set_thread AtLoopHead) ;;; _process_queue later
              else modify (set_thread Exited)
          end
      end.

    (** *** The producer side *)

Definition emit (e : entry) : M (t U) unit :=
      self <- gets id ;;
      if _stop self then ret tt
      else
        try_pass
          (match _on_full self with
           | BLOCK => put (Some e)
           | FALLBACK =>
               try_except (put_nowait (Some e))
                 (fun x =>
                    match x with
                    | QueueFull =>
                        n <- gets _dropped_count ;;
                        modify (set_dropped_count (n + 1)) ;;;
                        try_pass (on_underlying (Base.emit e))
                    | _ => raise x
                    end)
           | DROP =>
               try_except (put_nowait (Some e))
                 (fun x =>
                    match x with
                    | QueueFull =>
                        n <- gets _dropped_count ;;
                        modify (set_dropped_count (n + 1))
                    | _ => raise x
                    end)
           end).

    (** The polling loop of [flush]: the worker runs while the caller
        sleeps, until the queue is empty or the deadline passes. *)
Fixpoint poll_until_empty (schedule : list bool) : M (t U) unit :=
      match schedule with
      | [] => modify (set_joinable [])
      | timed_out :: later =>
          self <- gets id ;;
          if nonempty (_queue self)
          then _process_queue [timed_out] ;;; poll_until_empty later
          else modify (set_joinable schedule)
      end.

Definition flush : M (t U) unit :=
      try_pass (schedule <- gets joinable ;; poll_until_empty schedule) ;;;
      on_underlying Base.flush.

Definition close : M (t U) unit :=
      modify (set_stop true) ;;;
      try_except (put_nowait None)
        (fun x => match x with QueueFull => ret tt | _ => raise x end) ;;;
      schedule <- gets joinable ;;
      modify (set_joinable []) ;;;
      _process_queue schedule ;;;
      w <- gets _thread ;;
      (match w with
       | Exited => ret tt
       | _ => print_stderr "AsyncHandler: Worker thread did not terminate in time"
       end) ;;;
      on_underlying Base.flush ;;;
      on_underlying Base.close ;;;
      n <- gets _dropped_count ;;
      if (0 <? n)%Z
      then print_stderr ("AsyncHandler: Dropped " ++ pretty n
                         ++ " log entries due to queue overflow")%string
      else ret tt.

#[global] Instance handler : Base.Handler (t U) :=
      {| Base.emit := emit; Base.flush := flush; Base.close := close |}.
End methods.
End AsyncHandler.

(** ** logger.py: the handler chain [initialize] configures *)

(** The file handler, with or without rotation. *)
Inductive file_handler : Type :=
| Plain (h : FileHandler.t)
| Rotating (h : RotatingFileHandler.t).

(** A member of the list [initialize] builds. *)
Inductive configured : Type :=
| Console (h : ConsoleHandler.t)
| Sync (h : file_handler)
| Async (h : AsyncHandler.t file_handler).

Definition on_case {S T A} (wrap : S -> T) (m : M S A) (s : S) : outcome A * T :=
  let '(r, s') := m s in (r, wrap s').

Section dispatch.
Context `{Formatter}.

  (** Method dispatch on the class of the object. *)
#[global] Instance file_handler_handler : Base.Handler file_handler :=
    {| Base.emit := fun e h =>
         match h with
         | Plain f => on_case Plain (Base.emit e) f
         | Rotating r => on_case Rotating (Base.emit e) r
         end;
       Base.flush := fun h =>
         match h with
         | Plain f => on_case Plain Base.flush f
         | Rotating r => on_case Rotating Base.flush r
         end;
       Base.close := fun h =>
         match h with
         | Plain f => on_case Plain Base.close f
         | Rotating r => on_case Rotating Base.close r
         end |}.

#[global] Instance configured_handler : Base.Handler configured :=
    {| Base.emit := fun e h =>
         match h with
         | Console c => on_case Console (Base.emit e) c
         | Sync f => on_case Sync (Base.emit e) f
         | Async a => on_case Async (Base.emit e) a
         end;
       Base.flush := fun h =>
         match h with
         | Console c => on_case Console Base.flush c
         | Sync f => on_case Sync Base.flush f
         | Async a => on_case Async Base.flush a
         end;
       Base.close := fun h =>
         match h with
         | Console c => on_case Console Base.close c
         | Sync f => on_case Sync Base.close f
         | Async a => on_case Async Base.close a
         end |}.
End dispatch.

(** The handler list of [initialize(config)]: [out] is [sys.stdout],
    [d] the file system, [schedule] the worker's schedule. *)
Definition initialize_handlers (config : LogConfig) (out : stream) (d : disk)
    (schedule : list bool) : outcome unit * list configured :=
  let console :=
    if Config.console_enabled config
    then [Console {| ConsoleHandler.format := Config.console_format config;
                     ConsoleHandler.colors := Config.console_colors config;
                     ConsoleHandler.out := out |}]
    else [] in
  if Config.file_enabled config then
    let '(r, fh) :=
      if (0 <? Config.max_file_size_mb config)%Z
      then
        let '(r, h) :=
          RotatingFileHandler.__init__ (Config.file_path config)
            (Config.max_file_size_mb config * 1024 * 1024)
            (Config.max_backup_count config) d in
        (r, Rotating h)
      else
        let '(r, h) := FileHandler.__init__ (Config.file_path config) d in
        (r, Plain h) in
    match r with
    | Returns _ =>
        (Returns tt,
         (console ++
          [if Config.async_enabled config
           then Async (AsyncHandler.__init__ fh (Config.queue_size config)
                         AsyncHandler.DROP 100 schedule)
           else Sync fh])%list)
    | Raises x => (Raises x, console)
    | Blocks => (Blocks, console)
    end
  else (Returns tt, console).

(** ** copy.deepcopy on the heap

    [copy.deepcopy(x, memo)]: atoms are their own copy; a list or dict
    already in [memo] gives the recorded copy; otherwise an empty object
    is allocated, recorded in [memo], and filled with the copies of the
    items.  The recursion depth is bounded by the number of objects, so
    [fuel] above the heap size is never used up; [None] stands for a
    dangling reference, which no Python program produces. *)

Abbreviation memo := (gmap addr addr).

(** [y.append(v)] on the list object [b]. *)
Definition list_append (b : addr) (v : value) (h : heap) : heap :=
  match h !! b with
  | Some (OList ys) => <[b := OList (ys ++ [v])]> h
  | _ => h
  end.

(** [y[key] = v] on the dict object [b]. *)
Definition dict_set (b : addr) (key : string) (v : value) (h : heap) : heap :=
  match h !! b with
  | Some (ODict d) => <[b := ODict (<[key := v]> d)]> h
  | _ => h
  end.

Section deepcopy.
Variable rec : value -> heap * memo -> option (value * (heap * memo)).

  (** [for a in x: append(deepcopy(a, memo))] *)
Fixpoint _deepcopy_list (b : addr) (items : list value) (st : heap * memo)
    : option (heap * memo) :=
    match items with
    | [] => Some st
    | a :: rest =>
        match rec a st with
        | Some (y, (h, m)) => _deepcopy_list b rest (list_append b y h, m)
        | None => None
        end
    end.

  (** [for key, value in x.items(): y[key] = deepcopy(value, memo)] *)
Fixpoint _deepcopy_dict (b : addr) (items : list (string * value))
      (st : heap * memo) : option (heap * memo) :=
    match items with
    | [] => Some st
    | (key, a) :: rest =>
        match rec a st with
        | Some (y, (h, m)) => _deepcopy_dict b rest (dict_set b key y h, m)
        | None => None
        end
    end.
End deepcopy.

Fixpoint deepcopy_rec (fuel : nat) (x : value) (st : heap * memo)
  : option (value * (heap * memo)) :=
  match x with
  | VRef a =>
      match st.2 !! a with
      | Some b => Some (VRef b, st)
      | None =>
          match fuel with
          | O => None
          | S fuel' =>
              let b := length st.1 in
              match st.1 !! a with
              | Some (OList items) =>
                  match _deepcopy_list (deepcopy_rec fuel') b items
                          ((st.1 ++ [OList []])%list, <[a := b]> st.2) with
                  | Some st' => Some (VRef b, st')
                  | None => None
                  end
              | Some (ODict items) =>
                  match _deepcopy_dict (deepcopy_rec fuel') b (map_to_list items)
                          ((st.1 ++ [ODict ∅])%list, <[a := b]> st.2) with
                  | Some st' => Some (VRef b, st')
                  | None => None
                  end
              | None => None
              end
          end
      end
  | _ => Some (x, st)
  end.

(** [copy.deepcopy(x)]: a fresh memo for each top-level call. *)
Definition deepcopy (x : value) (h : heap) : option (value * heap) :=
  match deepcopy_rec (S (length h)) x (h, ∅) with
  | Some (y, (h', _)) => Some (y, h')
  | None => None
  end.

(** ** logger.py: with_context *)

(** [Logger(name, config, context, handlers)]: [context or {}] takes a
    fresh dict when [context] is empty. *)
Definition Logger__init__ (name : string) (config : LogConfig) (context : addr)
    (h : heap) : Logger * heap :=
  match read_dict h context with
  | Some d =>
      if bool_decide (dom d = ∅)
      then ({| _name := name; _config := config; _context := length h |},
            (h ++ [ODict ∅])%list)
      else ({| _name := name; _config := config; _context := context |}, h)
  | None => ({| _name := name; _config := config; _context := context |}, h)
  end.

(** [for key, value in kwargs.items():
       new_context[key] = copy.deepcopy(value)] *)
Fixpoint merge_kwargs (new_context : addr) (items : list (string * value))
    (h : heap) : option heap :=
  match items with
  | [] => Some h
  | (key, v) :: rest =>
      match deepcopy v h with
      | Some (y, h') => merge_kwargs new_context rest (dict_set new_context key y h')
      | None => None
      end
  end.

(** The body of [with_context], entered once Python has bound the
    arguments of the call (see [call_with_context]). *)
Definition with_context (self : Logger) (kwargs : gmap string value) (h : heap)
  : option (Logger * heap) :=
  match deepcopy (VRef (_context self)) h with
  | Some (VRef new_context, h1) =>
      match merge_kwargs new_context (map_to_list kwargs) h1 with
      | Some h2 =>
          Some (Logger__init__ (_name self) (_config self) new_context h2)
      | None => None
      end
  | _ => None
  end.

(** The call [logger.with_context(k=v, ...)] of
    [def with_context(self, **kwargs)]: the keywords are bound before
    the body runs, and a keyword named [self] meets the receiver, which
    is a [TypeError] with nothing copied. *)
Definition call_with_context (self : Logger) (kwargs : gmap string value)
    (h : heap) : option (outcome Logger * heap) :=
  if bool_decide ("self" ∈ dom kwargs) then Some (Raises TypeError, h)
  else
    match with_context self kwargs h with
    | Some (l, h') => Some (Returns l, h')
    | None => None
    end.

(** ** logger.py: the public methods and the timer *)

(** Truth value of a context value. *)
Definition truthy (hp : heap) (v : value) : bool :=
  match v with
  | VNone => false
  | VBool b => b
  | VInt n => negb (n =? 0)%Z
  | VFloat x => negb (Qeq_bool x 0)
  | VStr s => negb (String.eqb s "")
  | VRef a =>
      match hp !! a with
      | Some (OList items) => AsyncHandler.nonempty items
      | Some (ODict items) => negb (bool_decide (dom items = ∅))
      | None => true
      end
  end.

Definition frame_of_method (name : string) (lineno : Z) : frame :=
  {| co_filename := "agora_log/logger.py"; f_lineno := lineno; co_name := name |}.

Definition entered (fr : frame) (env : call_env) : call_env :=
  {| callers := fr :: callers env;
     now_isoformat := now_isoformat env;
     hostname := hostname env |}.

(** Double-precision arithmetic: an operation gives the exact result
    rounded to a double by [fl].  Rounding never changes the sign. *)
Class Float : Type := {
  fl : Q -> Q;
  fl_nonneg : forall x : Q, (0 <= x)%Q -> (0 <= fl x)%Q
}.

Section api.
Context {H : Type} `{Base.Handler H} {float64 : Float}.

  (** The call [self._log(level, message, exception=..., k=v, ...,
      **star)]: Python binds the keywords to the parameters of [_log]
      before the body runs.  A name given twice is a [TypeError]; an
      [exception] entry of [star] lands on the parameter [exception],
      where a true value that is no exception object has no
      [__traceback__]. *)
Definition call__log (hp : heap) (env : call_env) (self : Logger)
      (level : LogLevel) (message : string) (exception : option pyexc)
      (explicit star : gmap string value) : M (list H) unit :=
    if bool_decide (dom explicit ∩ dom star = ∅
                    ∧ ("self" ∉ dom star)
                    ∧ ("level" ∉ dom star)
                    ∧ ("message" ∉ dom star))
    then
      match star !! "exception" with
      | None => _log hp env self level message exception (explicit ∪ star)
      | Some v =>
          match exception with
          | Some _ => raise TypeError
          | None =>
              if (Level.value level <? Level.value (Config.level (_config self)))%Z
              then ret tt
              else if truthy hp v then raise AttributeError
              else _log hp env self level message None
                     (explicit ∪ delete "exception" star)
          end
      end
    else raise TypeError.

Definition info (hp : heap) (env : call_env) (self : Logger)
      (message : string) (kwargs : gmap string value) : M (list H) unit :=
    call__log hp (entered (frame_of_method "info" 168) env) self INFO message
      None ∅ kwargs.

Definition error (hp : heap) (env : call_env) (self : Logger)
      (message : string) (exception : option pyexc)
      (kwargs : gmap string value) : M (list H) unit :=
    call__log hp (entered (frame_of_method "error" 177) env) self ERROR message
      exception ∅ kwargs.

Definition warning (hp : heap) (env : call_env) (self : Logger)
      (message : string) (kwargs : gmap string value) : M (list H) unit :=
    call__log hp (entered (frame_of_method "warning" 181) env) self WARNING
      message None ∅ kwargs.

Definition debug (hp : heap) (env : call_env) (self : Logger)
      (message : string) (kwargs : gmap string value) : M (list H) unit :=
    call__log hp (entered (frame_of_method "debug" 185) env) self DEBUG message
      None ∅ kwargs.

Definition critical (hp : heap) (env : call_env) (self : Logger)
      (message : string) (exception : option pyexc)
      (kwargs : gmap string value) : M (list H) unit :=
    call__log hp (entered (frame_of_method "critical" 194) env) self CRITICAL
      message exception ∅ kwargs.

  (** [with self.timer(operation, **kwargs): work] for
      [def timer(self, operation, **kwargs)].  The call binds the
      keywords first: one named [self] or [operation] is a [TypeError]
      at the call, before the scope is entered and with nothing logged.
      [start] and [stop] are the two readings of [time.perf_counter()],
      in seconds, and the duration is computed in doubles; [env] is
      what the log call made in the [finally] block sees. *)
Definition timer (hp : heap) (env : call_env) (self : Logger)
      (operation : string) (kwargs : gmap string value)
      (start stop : Q) (work : M (list H) unit) : M (list H) unit :=
    if bool_decide ("self" ∈ dom kwargs ∨ "operation" ∈ dom kwargs)
    then raise TypeError
    else
      fun handlers =>
        match work handlers with
        | (Blocks, handlers1) => (Blocks, handlers1)
        | (r, handlers1) =>
            let duration_ms := fl (fl (stop - start) * 1000)%Q in
            match call__log hp (entered (frame_of_method "timer" 230) env) self
                    INFO operation None
                    {["duration_ms" := VFloat duration_ms]} kwargs handlers1 with
            | (Returns _, handlers2) => (r, handlers2)
            | failed => failed
            end
        end.
End api.

(** Readings and durations that doubles represent exactly. *)
Definition exact_float : Float :=
  {| fl := fun x => x; fl_nonneg := fun x Hx => Hx |}.

(** ** Observing a handler

    A handler under observation records every entry it is asked to emit,
    whatever the observed handler then does with it. *)

Record watched (H : Type) : Type := {
  inner : H;
  received : list entry
}.
Arguments inner {H} _.
Arguments received {H} _.

Definition watch {H} (h : H) : watched H := {| inner := h; received := [] |}.

Section watching.
Context {H : Type} `{Base.Handler H}.

Definition on_inner {A} (m : M H A) : M (watched H) A :=
    zoom inner (fun h w => {| inner := h; received := received w |}) m.

#[global] Instance watched_handler : Base.Handler (watched H) :=
    {| Base.emit := fun e w =>
         on_inner (Base.emit e)
           {| inner := inner w; received := received w ++ [e] |};
       Base.flush := on_inner Base.flush;
       Base.close := on_inner Base.close |}.
End watching.

(** * Properties *)

(** ** Calls that raise nothing *)

Definition quiet {S T A} (m : S -> outcome A * T) : Prop :=
  forall s x, (m s).1 <> Raises x.

Lemma quiet_ret {S A} (a : A) : quiet (@ret S A a).
Proof. intros s x; discriminate. Qed.

Lemma quiet_gets {S A} (f : S -> A) : quiet (gets f).
Proof. intros s x; discriminate. Qed.

Lemma quiet_modify {S} (f : S -> S) : quiet (modify f).
Proof. intros s x; discriminate. Qed.

Lemma quiet_bind {S A B} (m : M S A) (k : A -> M S B) :
  quiet m -> (forall a, quiet (k a)) -> quiet (bind m k).
Proof.
  intros Hm Hk s x. unfold bind.
  specialize (Hm s). destruct (m s) as [[a|e|] s']; simpl in *.
  - apply Hk.
  - intros _. exact (Hm e eq_refl).
  - discriminate.
Qed.

Lemma quiet_try_except {S A} (body : M S A) (handler : exn -> M S A) :
  (forall e, quiet (handler e)) -> quiet (try_except body handler).
Proof.
  intros Hh s x. unfold try_except.
  destruct (body s) as [[a|e|] s']; simpl; try discriminate.
  apply Hh.
Qed.

Lemma quiet_try_pass {S} (body : M S unit) : quiet (try_pass body).
Proof. apply quiet_try_except. intros e. apply quiet_ret. Qed.

Lemma quiet_zoom {S T A} (get : S -> T) (set : T -> S -> S) (m : M T A) :
  quiet m -> quiet (zoom get set m).
Proof.
  intros Hm s x. unfold zoom. specialize (Hm (get s) x).
  destruct (m (get s)) as [r t']. exact Hm.
Qed.

Lemma quiet_on_case {S T A} (wrap : S -> T) (m : M S A) :
  quiet m -> quiet (on_case wrap m).
Proof.
  intros Hm s x. unfold on_case. specialize (Hm s x).
  destruct (m s) as [r s']. exact Hm.
Qed.

(** ** The entry built by [_log] *)

Lemma promote_fold (m : gmap string value) (ks : list string) :
  "context" ∉ ks ->
  forall (e : entry) (c : gmap string value),
    e !! "context" = Some (FCtx c) ->
    (exists c',
        fold_left (promote m) ks e !! "context" = Some (FCtx c')
        /\ forall k, c' !! k =
                     if decide (k ∈ ks /\ is_Some (m !! k)) then None else c !! k)
    /\ (forall k, k <> "context" ->
          fold_left (promote m) ks e !! k =
          if decide (k ∈ ks)
          then match m !! k with Some v => Some (FVal v) | None => e !! k end
          else e !! k).
Proof.
  induction ks as [|key ks IH]; intros Hctx e c He.
  - split.
    + exists c. split; [exact He|]. intros k.
      case_decide as Hk; [|reflexivity]. destruct Hk as [Hk _]. inversion Hk.
    + intros k _. case_decide as Hk; [inversion Hk|reflexivity].
  - apply not_elem_of_cons in Hctx as [Hne Hctx].
    simpl. unfold promote at 2 4.
    destruct (m !! key) as [v|] eqn:Hkey.
    + unfold del_context. rewrite lookup_insert_ne by congruence. rewrite He.
      destruct (IH Hctx (<["context" := FCtx (delete key c)]> (<[key := FVal v]> e))
                  (delete key c)) as [[c' [Hc' Hlook]] Hother].
      { apply lookup_insert_eq. }
      split.
      * exists c'. split; [exact Hc'|]. intros k. rewrite Hlook.
        destruct (decide (k = key)) as [->|Hk].
        -- rewrite lookup_delete_eq.
           repeat case_decide; try reflexivity; exfalso;
           match goal with Hn : ~ (_ ∈ _ :: _ /\ _) |- _ => apply Hn end;
           (split; [left|rewrite Hkey; eauto]).
        -- rewrite lookup_delete_ne by congruence.
           repeat case_decide; try reflexivity; exfalso; set_solver.
      * intros k Hk. rewrite (Hother k Hk).
        rewrite lookup_insert_ne by congruence.
        destruct (decide (k = key)) as [->|Hk'].
        -- rewrite lookup_insert_eq, Hkey.
           repeat case_decide; try reflexivity; exfalso; set_solver.
        -- rewrite lookup_insert_ne by congruence.
           repeat case_decide; try reflexivity; exfalso; set_solver.
    + destruct (IH Hctx e c He) as [[c' [Hc' Hlook]] Hother].
      split.
      * exists c'. split; [exact Hc'|]. intros k. rewrite Hlook.
        repeat case_decide; try reflexivity; exfalso.
        -- set_solver.
        -- match goal with Hn : ~ _ |- _ => apply Hn end.
           match goal with Hy : _ /\ _ |- _ => destruct Hy as [Hin Hs] end.
           apply elem_of_cons in Hin as [->|Hin].
           ++ rewrite Hkey in Hs. destruct Hs as [? Hs]. discriminate.
           ++ split; assumption.
      * intros k Hk. rewrite (Hother k Hk).
        repeat case_decide; try reflexivity.
        -- exfalso; set_solver.
        -- match goal with Hy : _ ∈ _ :: _ |- _ =>
             apply elem_of_cons in Hy as [->|?] end; [|contradiction].
           rewrite Hkey. reflexivity.
Qed.

Lemma attach_exception_lookup (exception : option pyexc) (e : entry) (k : string) :
  k <> "exception" -> attach_exception exception e !! k = e !! k.
Proof.
  intros Hk. destruct exception as [x|]; simpl; [|reflexivity].
  destruct (exc_truth x); [|reflexivity].
  apply lookup_insert_ne. congruence.
Qed.

Lemma context_not_special : "context" ∉ special_keys.
Proof. unfold special_keys. set_solver. Qed.

(** The source location of a record is what [_capture_source_location]
    finds three frames up. *)
Lemma _log_entry_source env self lvl message exception context kwargs :
  let source :=
    _capture_source_location
      (frame_of__capture_source_location :: frame_of__log :: callers env) 3 in
  let record := _log_entry env self lvl message exception context kwargs in
  record !! "file" = Some (FStr (file source))
  /\ record !! "line" = Some (FInt (line source))
  /\ record !! "function" = Some (FStr (function source)).
Proof.
  intros source record. subst record. unfold _log_entry.
  repeat split.
  all: rewrite attach_exception_lookup by discriminate.
  all: match goal with
       | |- fold_left (promote ?m) _ ?e !! ?k = _ =>
           destruct (promote_fold m special_keys context_not_special e m
                       (lookup_insert_eq _ _ _)) as [_ Hother];
           rewrite (Hother k) by discriminate
       end.
  all: rewrite decide_False by (unfold special_keys; set_solver).
  all: simplify_map_eq; reflexivity.
Qed.

(** Promotion: the nested context loses exactly the special keys, and a
    special key of the merged context shows at the top level. *)
Lemma _log_entry_promotion env self lvl message exception context kwargs :
  let merged := kwargs ∪ context in
  let record := _log_entry env self lvl message exception context kwargs in
  (exists nested,
      record !! "context" = Some (FCtx nested)
      /\ forall k, nested !! k = if decide (k ∈ special_keys) then None else merged !! k)
  /\ (forall k, k ∈ special_keys ->
        record !! k = match merged !! k with Some v => Some (FVal v) | None => None end).
Proof.
  intros merged record. subst record. unfold _log_entry.
  fold merged.
  match goal with
  | |- context [fold_left (promote merged) special_keys ?e] =>
      destruct (promote_fold merged special_keys context_not_special e merged
                  (lookup_insert_eq _ _ _)) as [[nested [Hn Hlook]] Hother]
  end.
  split.
  - exists nested. split.
    + rewrite attach_exception_lookup by discriminate. exact Hn.
    + intros k. rewrite Hlook.
      repeat case_decide; try reflexivity.
      * exfalso; tauto.
      * destruct (merged !! k) eqn:Hk; [|reflexivity].
        exfalso. match goal with Hx : ~ _ |- _ => apply Hx end.
        split; [assumption|eauto].
  - intros k Hk.
    assert (k <> "context") as Hc by (intros ->; exact (context_not_special Hk)).
    assert (k <> "exception") as Hx.
    { intros ->. unfold special_keys in Hk. set_solver. }
    rewrite attach_exception_lookup by exact Hx.
    rewrite (Hother k Hc). rewrite decide_True by exact Hk.
    destruct (merged !! k); [reflexivity|].
    unfold special_keys in Hk.
    repeat (apply elem_of_cons in Hk as [->|Hk]; [simplify_map_eq; reflexivity|]).
    inversion Hk.
Qed.

(** ** A handler from the test suite

    [CustomHandler] of tests/test_handlers.py keeps the entries it is
    given in a list; [close] clears the list. *)

Module CustomHandler.
Definition t : Type := list entry.

Definition emit (e : entry) : M t unit :=
    modify (fun entries : list entry => entries ++ [e]).
Definition flush : M t unit := ret tt.
Definition close : M t unit := modify (fun _ => []).

#[global] Instance handler : Base.Handler t :=
    {| Base.emit := emit; Base.flush := flush; Base.close := close |}.
End CustomHandler.

(** ** Level filtering and fan-out *)

Section forwarding.
Context {H : Type} `{Base.Handler H}.

  (** The handler honours the contract of [emit]: the call returns. *)
Definition emit_returns (h : H) : Prop :=
    forall e, exists h', Base.emit e h = (Returns tt, h').

Lemma emit_all_watched_returns (e : entry) (hs : list H) :
    Forall emit_returns hs ->
    emit_all e (watch <$> hs)
    = (Returns tt,
       (fun h => {| inner := (Base.emit e h).2; received := [e] |}) <$> hs).
Proof.
    induction 1 as [|h hs Hh _ IH]; [reflexivity|].
    rewrite !fmap_cons. cbn [emit_all]. rewrite IH.
    cbn. unfold on_inner, zoom. cbn.
    destruct (Hh e) as [h' Hemit]. rewrite Hemit. reflexivity.
Qed.

  (** Whatever the handlers do, a pass of the loop gives each of them
      the entry at most once and nothing else. *)
Lemma emit_all_watched_received (e : entry) (hs : list (watched H)) :
    Forall2 (fun w w' => received w' = received w \/ received w' = received w ++ [e])
            hs (emit_all e hs).2.
Proof.
    induction hs as [|w hs IH]; simpl; [constructor|].
    unfold on_inner, zoom. simpl.
    destruct (Base.emit e (inner w)) as [[[]|x|] h'] eqn:Hemit; simpl.
    - destruct (emit_all e hs) as [r rest] eqn:Hrest. simpl in *.
      constructor; [right; reflexivity|exact IH].
    - constructor; [right; reflexivity|].
      clear. induction hs; constructor; auto.
    - constructor; [right; reflexivity|].
      clear. induction hs; constructor; auto.
Qed.
End forwarding.

(** *** Sample data *)

Definition sample_config (threshold : LogLevel) : LogConfig :=
  {| Config.service_name := "market-data";
     Config.environment := "development";
     Config.version := "1.0.0";
     Config.level := threshold;
     Config.console_enabled := true;
     Config.console_format := "json";
     Config.console_colors := true;
     Config.file_enabled := true;
     Config.file_path := "logs/app.log";
     Config.max_file_size_mb := 1;
     Config.max_backup_count := 3;
     Config.async_enabled := false;
     Config.queue_size := 10000 |}.

(** A heap holding one empty dict, the context of the root logger. *)
Definition sample_heap : heap := [ODict ∅].

Definition sample_logger (threshold : LogLevel) : Logger :=
  {| _name := "market-data"; _config := sample_config threshold; _context := 0%nat |}.

(** A call [logger.info(...)] made on line 12 of [main.py], in [handle]. *)
Definition sample_env : call_env :=
  {| callers :=
       [frame_of_method "info" 168;
        {| co_filename := "/srv/app/main.py"; f_lineno := 12; co_name := "handle" |}];
     now_isoformat := "2025-01-01T00:00:00.000000+00:00";
     hostname := "node-1" |}.

(** C1. For every threshold T and every call at level L, each handler of
    the logger is given the built record exactly when
    [value L >= value T]; below the threshold the call changes nothing
    and emits nothing.  Handlers are observed through [watch], and are
    taken to honour the contract that [emit] returns. *)
Theorem level_filter_forwarding {H : Type} `{Base.Handler H}
    (hp : heap) (env : call_env) (self : Logger) (lvl : LogLevel)
    (message : string) (exception : option pyexc)
    (kwargs context : gmap string value) (handlers : list H) :
  read_dict hp (_context self) = Some context ->
  Forall emit_returns handlers ->
  let threshold := Config.level (_config self) in
  let record := _log_entry env self lvl message exception context kwargs in
  exists handlers',
    _log hp env self lvl message exception kwargs (watch <$> handlers)
    = (Returns tt, handlers')
    /\ (Level.value lvl < Level.value threshold -> handlers' = watch <$> handlers)
    /\ length handlers' = length handlers
    /\ forall i w, handlers' !! i = Some w ->
         (received w = [record] <-> Level.value threshold <= Level.value lvl).
Proof.
  intros Hctx Hret threshold record. unfold _log. fold threshold.
  destruct (Z.ltb_spec (Level.value lvl) (Level.value threshold)) as [Hlt|Hge].
  - exists (watch <$> handlers). split; [reflexivity|]. split; [auto|].
    split; [apply length_fmap|].
    intros i w Hw. rewrite list_lookup_fmap in Hw.
    destruct (handlers !! i) as [h|]; [|discriminate].
    injection Hw as <-. simpl.
    split; [discriminate|lia].
  - rewrite Hctx. fold record. rewrite (emit_all_watched_returns record handlers Hret).
    eexists. split; [reflexivity|]. split; [lia|]. split; [apply length_fmap|].
    intros i w Hw. rewrite list_lookup_fmap in Hw.
    destruct (handlers !! i) as [h|]; [|discriminate].
    injection Hw as <-. simpl.
    split; [intros _; exact Hge|reflexivity].
Qed.

Lemma level_filter_forwarding_witness :
  read_dict sample_heap (_context (sample_logger ERROR)) = Some ∅
  /\ Forall (emit_returns (H := CustomHandler.t)) [[]; []]
  /\ exists handlers',
      _log sample_heap sample_env (sample_logger ERROR) WARNING "slow" None ∅
           (watch <$> [[]; []])
      = (Returns tt, handlers')
      /\ (Level.value WARNING < Level.value ERROR ->
          handlers' = watch <$> ([[]; []] : list CustomHandler.t))
      /\ length handlers' = 2%nat
      /\ forall i w, handlers' !! i = Some w ->
           (received w
            = [_log_entry sample_env (sample_logger ERROR) WARNING "slow" None ∅ ∅]
            <-> Level.value ERROR <= Level.value WARNING).
Proof.
  assert (Forall (emit_returns (H := CustomHandler.t)) [[]; []]) as Hret.
  { repeat constructor; intros e; eexists; reflexivity. }
  split; [reflexivity|]. split; [exact Hret|].
  exact (level_filter_forwarding sample_heap sample_env (sample_logger ERROR)
           WARNING "slow" None ∅ ∅ [[]; []] eq_refl Hret).
Defined.

(** ** The source-location triple *)

(** A record with a non-empty file, a positive line and a non-empty
    function name. *)
Definition has_source_location (record : entry) : Prop :=
  exists f l fn,
    record !! "file" = Some (FStr f)
    /\ record !! "line" = Some (FInt l)
    /\ record !! "function" = Some (FStr fn)
    /\ f <> "" /\ 0 < l /\ fn <> "".

(** [_log] called from the top level of a script, with no method of the
    logger in between: the frame chain ends one frame above [_log]. *)
Definition toplevel_env : call_env :=
  {| callers :=
       [{| co_filename := "/srv/app/job.py"; f_lineno := 3; co_name := "<module>" |}];
     now_isoformat := "2025-01-01T00:00:00.000000+00:00";
     hostname := "node-1" |}.

(** C2, as stated, fails: called with fewer than three frames above
    [_capture_source_location], [_log] emits a record whose line is 0. *)
Lemma source_location_counterexample :
  exists record,
    (_log sample_heap toplevel_env (sample_logger DEBUG) INFO "start" None ∅
          [watch ([] : CustomHandler.t)]).2
    = [{| inner := [record]; received := [record] |}]
    /\ ~ has_source_location record.
Proof.
  eexists. split; [reflexivity|].
  intros (f & l & fn & _ & Hl & _ & _ & Hpos & _).
  vm_compute in Hl. injection Hl as <-. lia.
Qed.

Lemma f_back_loop_3 (a b : frame) (rest : list frame) :
  f_back_loop 3 (a :: b :: rest) = drop 1 rest.
Proof. destruct rest as [|c rest]; reflexivity. Qed.

(** C2, amended. Every record a handler is given carries the keys file,
    line and function.  They describe the frame two levels above
    [_log] (the caller of the public logging method) when that frame
    exists, and are ["<unknown>"], [0], ["<unknown>"] otherwise. *)
Theorem record_source_location {H : Type} `{Base.Handler H}
    (hp : heap) (env : call_env) (self : Logger) (lvl : LogLevel)
    (message : string) (exception : option pyexc)
    (kwargs : gmap string value) (handlers : list H) :
  forall w record,
    w ∈ (_log hp env self lvl message exception kwargs (watch <$> handlers)).2 ->
    record ∈ received w ->
    exists f l fn,
      record !! "file" = Some (FStr f)
      /\ record !! "line" = Some (FInt l)
      /\ record !! "function" = Some (FStr fn)
      /\ match callers env !! 1%nat with
         | Some site =>
             f = basename (co_filename site) /\ l = f_lineno site /\ fn = co_name site
         | None => f = "<unknown>" /\ l = 0 /\ fn = "<unknown>"
         end.
Proof.
  intros w record Hw Hrec.
  assert (forall ws : list (watched H),
             w ∈ ws -> Forall (fun w' => received w' = []) ws -> False) as Hnone.
  { intros ws Hin Hall. rewrite Forall_forall in Hall.
    rewrite (Hall w Hin) in Hrec. inversion Hrec. }
  assert (Forall (fun w' : watched H => received w' = []) (watch <$> handlers))
    as Hfresh.
  { apply Forall_fmap. apply Forall_true. reflexivity. }
  unfold _log in Hw.
  destruct (Level.value lvl <? Level.value (Config.level (_config self)));
    [exfalso; exact (Hnone _ Hw Hfresh)|].
  destruct (read_dict hp (_context self)) as [context|];
    [|exfalso; exact (Hnone _ Hw Hfresh)].
  set (e := _log_entry env self lvl message exception context kwargs) in *.
  assert (record = e) as ->.
  { pose proof (emit_all_watched_received e (watch <$> handlers)) as Hall.
    apply list_elem_of_lookup in Hw as [i Hi].
    destruct (Forall2_lookup_r _ _ _ _ _ Hall Hi) as [w0 [Hw0 Hrel]].
    rewrite list_lookup_fmap in Hw0.
    destruct (handlers !! i) as [h|]; [|discriminate].
    injection Hw0 as <-. simpl in Hrel.
    destruct Hrel as [Hr|Hr]; rewrite Hr in Hrec.
    - inversion Hrec.
    - apply list_elem_of_singleton in Hrec. exact Hrec. }
  destruct (_log_entry_source env self lvl message exception context kwargs)
    as (Hf & Hl & Hfn).
  do 3 eexists. split; [exact Hf|]. split; [exact Hl|]. split; [exact Hfn|].
  unfold _capture_source_location. rewrite f_back_loop_3.
  destruct (callers env) as [|m [|site rest]]; simpl; auto.
Qed.

Lemma record_source_location_witness :
  let ws := (_log sample_heap sample_env (sample_logger INFO) INFO "ready" None ∅
                  (watch <$> [([] : CustomHandler.t)])).2 in
  let w := {| inner := [_log_entry sample_env (sample_logger INFO) INFO "ready" None ∅ ∅];
              received := [_log_entry sample_env (sample_logger INFO) INFO "ready" None ∅ ∅] |} in
  let record := _log_entry sample_env (sample_logger INFO) INFO "ready" None ∅ ∅ in
  w ∈ ws /\ record ∈ received w
  /\ exists f l fn,
      record !! "file" = Some (FStr f)
      /\ record !! "line" = Some (FInt l)
      /\ record !! "function" = Some (FStr fn)
      /\ f = "main.py" /\ l = 12 /\ fn = "handle".
Proof.
  intros ws w record.
  assert (w ∈ ws) as Hw by (apply list_elem_of_singleton; reflexivity).
  assert (record ∈ received w) as Hr by (apply list_elem_of_singleton; reflexivity).
  split; [exact Hw|]. split; [exact Hr|].
  destruct (record_source_location sample_heap sample_env (sample_logger INFO)
              INFO "ready" None ∅ [([] : CustomHandler.t)] w record Hw Hr)
    as (f & l & fn & Hf & Hl & Hfn & Hsite).
  exists f, l, fn. simpl in Hsite. tauto.
Defined.

(** ** Promotion of the reserved keys *)

Lemma dict_set_lookup (b : addr) (key : string) (v : value) (h : heap)
    (d : gmap string value) :
  h !! b = Some (ODict d) ->
  dict_set b key v h !! b = Some (ODict (<[key := v]> d)).
Proof.
  intros Hb. unfold dict_set. rewrite Hb.
  apply list_lookup_insert_eq. apply lookup_lt_Some in Hb. exact Hb.
Qed.

Lemma deepcopy_atom (x : value) (h : heap) :
  (forall a, x <> VRef a) -> deepcopy x h = Some (x, h).
Proof.
  intros Hx. unfold deepcopy. destruct x; try reflexivity.
  exfalso. eapply Hx. reflexivity.
Qed.

(** A logger derived with a single string pair holds that pair. *)
Lemma with_context_single (self derived : Logger) (key s : string)
    (h h' : heap) (context : gmap string value) :
  with_context self {[key := VStr s]} h = Some (derived, h') ->
  read_dict h' (_context derived) = Some context ->
  context !! key = Some (VStr s).
Proof.
  unfold with_context. intros Hwith Hread.
  destruct (deepcopy (VRef (_context self)) h) as [[[| | | | |new] h1]|];
    try discriminate.
  rewrite map_to_list_singleton in Hwith. simpl in Hwith.
  injection Hwith as Hinit.
  unfold Logger__init__, read_dict in Hinit.
  destruct (h1 !! new) as [[items|d]|] eqn:Hnew.
  - unfold dict_set in Hinit. rewrite Hnew in Hinit. rewrite Hnew in Hinit.
    injection Hinit as <- <-. unfold read_dict in Hread. simpl in Hread.
    rewrite Hnew in Hread. discriminate.
  - rewrite (dict_set_lookup _ _ _ _ _ Hnew) in Hinit.
    rewrite bool_decide_eq_false_2 in Hinit
      by (rewrite dom_insert_L; set_solver).
    injection Hinit as <- <-. unfold read_dict in Hread. simpl in Hread.
    rewrite (dict_set_lookup _ _ _ _ _ Hnew) in Hread.
    injection Hread as <-. apply lookup_insert_eq.
  - unfold dict_set in Hinit. rewrite Hnew in Hinit. rewrite Hnew in Hinit.
    injection Hinit as <- <-. unfold read_dict in Hread. simpl in Hread.
    rewrite Hnew in Hread. discriminate.
Qed.

(** C4. In the record of a log call, each reserved key of the merged
    context (call fields over logger context) is a top-level field and
    is absent from the nested context; every other key of the merged
    context stays in the nested context and is never promoted.  After
    [with_context(user_id="u1").with_context(user_id="u2")], a log call
    that passes no [user_id] of its own has top-level [user_id] "u2". *)
Theorem reserved_key_promotion (env : call_env) (self : Logger) (lvl : LogLevel)
    (message : string) (exception : option pyexc)
    (context kwargs : gmap string value) :
  let merged := kwargs ∪ context in
  let record := _log_entry env self lvl message exception context kwargs in
  (exists nested,
      record !! "context" = Some (FCtx nested)
      /\ (forall k v, k ∈ special_keys -> merged !! k = Some v ->
            record !! k = Some (FVal v) /\ nested !! k = None)
      /\ (forall k, k ∉ special_keys -> nested !! k = merged !! k))
  /\ (forall k v, record !! k = Some (FVal v) ->
        k ∈ special_keys /\ merged !! k = Some v)
  /\ (forall (h0 h1 h2 : heap) (l1 l2 : Logger),
        with_context self {["user_id" := VStr "u1"]} h0 = Some (l1, h1) ->
        with_context l1 {["user_id" := VStr "u2"]} h1 = Some (l2, h2) ->
        read_dict h2 (_context l2) = Some context ->
        kwargs !! "user_id" = None ->
        _log_entry env l2 lvl message exception context kwargs !! "user_id"
        = Some (FVal (VStr "u2"))).
Proof.
  intros merged record.
  destruct (_log_entry_promotion env self lvl message exception context kwargs)
    as [[nested [Hn Hlook]] Htop].
  fold merged in Hlook, Htop. fold record in Hn, Htop.
  split; [|split].
  - exists nested. split; [exact Hn|]. split.
    + intros k v Hk Hm. split.
      * rewrite (Htop k Hk), Hm. reflexivity.
      * rewrite Hlook. rewrite decide_True by exact Hk. reflexivity.
    + intros k Hk. rewrite Hlook. rewrite decide_False by exact Hk. reflexivity.
  - intros k v Hrec.
    destruct (decide (k ∈ special_keys)) as [Hk|Hk].
    + split; [exact Hk|]. rewrite (Htop k Hk) in Hrec.
      destruct (merged !! k); [|discriminate]. congruence.
    + exfalso. subst record. unfold _log_entry in Hrec. fold merged in Hrec.
      destruct (decide (k = "exception")) as [->|Hx].
      { assert (forall e : entry,
                  fold_left (promote merged) special_keys
                    (<["context" := FCtx merged]> e) !! "exception" = Some (FVal v) ->
                  e !! "exception" = None -> False) as Hplain.
        { intros e He Hnone.
          destruct (promote_fold merged special_keys context_not_special _
                      merged (lookup_insert_eq e "context" (FCtx merged)))
            as [_ Hother].
          rewrite Hother in He by discriminate.
          rewrite decide_False in He by exact Hk.
          rewrite lookup_insert_ne in He by discriminate.
          rewrite Hnone in He. discriminate. }
        destruct exception as [x|]; unfold attach_exception in Hrec;
          [destruct (exc_truth x);
             [rewrite lookup_insert_eq in Hrec; discriminate|]|];
          (eapply Hplain; [exact Hrec|]; simplify_map_eq; reflexivity). }
      rewrite attach_exception_lookup in Hrec by exact Hx.
      destruct (decide (k = "context")) as [->|Hc].
      { unfold _log_entry in Hn. rewrite attach_exception_lookup in Hn by discriminate.
        fold merged in Hn. rewrite Hn in Hrec. discriminate. }
      match type of Hrec with
      | fold_left (promote merged) _ ?e !! _ = _ =>
          destruct (promote_fold merged special_keys context_not_special e
                      merged (lookup_insert_eq _ _ _)) as [_ Hother]
      end.
      rewrite Hother in Hrec by exact Hc.
      rewrite decide_False in Hrec by exact Hk.
      repeat (rewrite lookup_insert in Hrec; case_decide; [discriminate|]).
      rewrite lookup_empty in Hrec. discriminate.
  - intros h0 h1 h2 l1 l2 _ H2 Hread Hkw.
    pose proof (with_context_single _ _ _ _ _ _ _ H2 Hread) as Hctx.
    destruct (_log_entry_promotion env l2 lvl message exception context kwargs)
      as [_ Htop2].
    rewrite Htop2 by (unfold special_keys; set_solver).
    rewrite lookup_union_r by exact Hkw. rewrite Hctx. reflexivity.
Qed.

Definition derived_logger (a : addr) : Logger :=
  {| _name := "market-data"; _config := sample_config INFO; _context := a |}.

Lemma reserved_key_promotion_witness :
  let h1 := [ODict ∅; ODict {["user_id" := VStr "u1"]}] in
  let h2 := [ODict ∅; ODict {["user_id" := VStr "u1"]};
             ODict {["user_id" := VStr "u2"]}] in
  with_context (sample_logger INFO) {["user_id" := VStr "u1"]} sample_heap
  = Some (derived_logger 1%nat, h1)
  /\ with_context (derived_logger 1%nat) {["user_id" := VStr "u2"]} h1
     = Some (derived_logger 2%nat, h2)
  /\ read_dict h2 (_context (derived_logger 2%nat)) = Some {["user_id" := VStr "u2"]}
  /\ (∅ : gmap string value) !! "user_id" = None
  /\ _log_entry sample_env (derived_logger 2%nat) INFO "login" None
       {["user_id" := VStr "u2"]} ∅ !! "user_id"
     = Some (FVal (VStr "u2")).
Proof.
  intros h1 h2.
  assert (with_context (sample_logger INFO) {["user_id" := VStr "u1"]} sample_heap
          = Some (derived_logger 1%nat, h1)) as H1 by (vm_compute; reflexivity).
  assert (with_context (derived_logger 1%nat) {["user_id" := VStr "u2"]} h1
          = Some (derived_logger 2%nat, h2)) as H2 by (vm_compute; reflexivity).
  assert (read_dict h2 (_context (derived_logger 2%nat))
          = Some {["user_id" := VStr "u2"]}) as H3 by reflexivity.
  assert ((∅ : gmap string value) !! "user_id" = None) as H4 by reflexivity.
  repeat (split; [assumption|]).
  exact (proj2 (proj2 (reserved_key_promotion sample_env (sample_logger INFO) INFO
                         "login" None {["user_id" := VStr "u2"]} ∅))
           sample_heap h1 h2 (derived_logger 1%nat) (derived_logger 2%nat) H1 H2 H3 H4).
Defined.

(** ** Failures stay inside the handlers *)

Lemma quiet_emit_all {H : Type} `{Base.Handler H} (e : entry) :
  (forall e', quiet (Base.emit (H := H) e')) -> quiet (emit_all (H := H) e).
Proof.
  intros He hs. induction hs as [|h hs IH]; intros x; simpl; [discriminate|].
  pose proof (He e h) as Hh.
  destruct (Base.emit e h) as [[[]|y|] h']; simpl in *.
  - specialize (IH x). destruct (emit_all e hs) as [r rest]. exact IH.
  - exfalso. exact (Hh y eq_refl).
  - discriminate.
Qed.

(** ** State that a computation leaves as it is *)

Definition keeps {S A} (P : S -> Prop) (m : M S A) : Prop :=
  forall s, P s -> P (m s).2.

Lemma keeps_ret {S A} (P : S -> Prop) (a : A) : keeps P (ret a).
Proof. intros s Hs. exact Hs. Qed.

Lemma keeps_raise {S A} (P : S -> Prop) (e : exn) : keeps P (@raise S A e).
Proof. intros s Hs. exact Hs. Qed.

Lemma keeps_gets {S A} (P : S -> Prop) (f : S -> A) : keeps P (gets f).
Proof. intros s Hs. exact Hs. Qed.

Lemma keeps_modify {S} (P : S -> Prop) (f : S -> S) :
  (forall s, P s -> P (f s)) -> keeps P (modify f).
Proof. intros Hf s Hs. apply Hf. exact Hs. Qed.

Lemma keeps_bind {S A B} (P : S -> Prop) (m : M S A) (k : A -> M S B) :
  keeps P m -> (forall a, keeps P (k a)) -> keeps P (bind m k).
Proof.
  intros Hm Hk s Hs. unfold bind. specialize (Hm s Hs).
  destruct (m s) as [[a|e|] s']; simpl in *; try exact Hm.
  apply Hk. exact Hm.
Qed.

Lemma keeps_try_except {S A} (P : S -> Prop) (body : M S A)
    (handler : exn -> M S A) :
  keeps P body -> (forall e, keeps P (handler e)) -> keeps P (try_except body handler).
Proof.
  intros Hb Hh s Hs. unfold try_except. specialize (Hb s Hs).
  destruct (body s) as [[a|e|] s']; simpl in *; try exact Hb.
  apply Hh. exact Hb.
Qed.

Lemma keeps_zoom {S T A} (P : S -> Prop) (get : S -> T) (set : T -> S -> S)
    (m : M T A) :
  (forall t s, P s -> P (set t s)) -> keeps P (zoom get set m).
Proof.
  intros Hset s Hs. unfold zoom. destruct (m (get s)) as [r t']. simpl.
  apply Hset. exact Hs.
Qed.

(** ** The async handler: what the worker and the callers leave alone *)

(** A stream none of whose coming writes fails. *)
Definition reliable (err : stream) : Prop :=
  Forall (fun bad => bad = false) (stream_faults err).

Lemma stream_io_reliable (effect : string -> string) (err : stream) :
  reliable err ->
  (stream_io effect err).1 = Returns tt /\ reliable (stream_io effect err).2.
Proof.
  unfold reliable, stream_io. destruct err as [w [|bad rest]]; cbn.
  - intros _. split; [reflexivity|constructor].
  - intros Hall. apply Forall_cons in Hall as [-> Hrest]. cbn.
    split; [reflexivity|exact Hrest].
Qed.

(** A computation that raises nothing when started in a state of [P]. *)
Definition quiet_from {S A} (P : S -> Prop) (m : M S A) : Prop :=
  forall s x, P s -> (m s).1 <> Raises x.

Lemma quiet_from_quiet {S A} (P : S -> Prop) (m : M S A) :
  quiet m -> quiet_from P m.
Proof. intros Hm s x _. apply Hm. Qed.

Lemma quiet_from_bind {S A B} (P : S -> Prop) (m : M S A) (k : A -> M S B) :
  quiet_from P m -> keeps P m -> (forall a, quiet_from P (k a)) ->
  quiet_from P (bind m k).
Proof.
  intros Hm Hkeeps Hk s x Hs. unfold bind.
  specialize (Hm s). specialize (Hkeeps s Hs).
  destruct (m s) as [[a|e|] s']; simpl in *.
  - apply Hk. exact Hkeeps.
  - intros _. exact (Hm e Hs eq_refl).
  - discriminate.
Qed.

Section async_invariants.
Context {U : Type} `{Base.Handler U}.

Import AsyncHandler.

  (** A property of the handler object that no step of the worker and
      no [print] undoes. *)
Definition stable (P : t U -> Prop) : Prop :=
    (forall u s, P s -> P (set_underlying u s))
    /\ (forall q s, P s -> P (set_queue q s))
    /\ (forall b s, P s -> P (set_batch b s))
    /\ (forall w s, P s -> P (set_thread w s))
    /\ (forall j s, P s -> P (set_joinable j s))
    /\ (forall text, keeps P (print_stderr text)).

Variable P : t U -> Prop.
Hypothesis P_stable : stable P.

Lemma keeps_print (text : string) : keeps P (print_stderr text).
Proof. apply P_stable. Qed.

Lemma keeps_on_underlying {A} (m : M U A) : keeps P (on_underlying m).
Proof. apply keeps_zoom. apply P_stable. Qed.

Lemma keeps_set_queue (q : list (option entry)) : keeps P (modify (set_queue q)).
Proof. apply keeps_modify. apply P_stable. Qed.

Lemma keeps_set_batch (b : list entry) : keeps P (modify (set_batch b)).
Proof. apply keeps_modify. apply P_stable. Qed.

Lemma keeps_set_thread (w : worker) : keeps P (modify (set_thread w)).
Proof. apply keeps_modify. apply P_stable. Qed.

Lemma keeps_set_joinable (j : list bool) : keeps P (modify (set_joinable j)).
Proof. apply keeps_modify. apply P_stable. Qed.

Lemma keeps_flush_batch (b : list entry) : keeps P (_flush_batch b).
Proof.
    induction b as [|e rest IH]; simpl; [apply keeps_ret|].
    apply keeps_bind; [|intros _; exact IH].
    apply keeps_try_except; [apply keeps_on_underlying|].
    intros _. apply keeps_print.
Qed.

Lemma keeps_get : keeps P get.
Proof.
    unfold get. apply keeps_bind; [apply keeps_gets|]. intros self.
    destruct (_queue self); [apply keeps_raise|].
    apply keeps_bind; [|intros _; apply keeps_ret].
    apply keeps_set_queue.
Qed.

Lemma keeps_put_nowait (item : option entry) : keeps P (put_nowait item).
Proof.
    unfold put_nowait. apply keeps_bind; [apply keeps_gets|]. intros self.
    destruct (full self); [apply keeps_raise|].
    apply keeps_set_queue.
Qed.

Lemma keeps_loop_body (timed_out : bool) : keeps P (loop_body timed_out).
Proof.
    unfold loop_body. apply keeps_try_except.
    - apply keeps_bind.
      + apply keeps_try_except.
        * apply keeps_bind; [apply keeps_get|]. intros item.
          apply keeps_bind; [apply keeps_gets|]. intros b.
          destruct item as [e|].
          -- apply keeps_bind; [|intros _; apply keeps_ret].
             apply keeps_set_batch.
          -- apply keeps_bind; [|intros _; apply keeps_ret].
             destruct (nonempty b);
               [apply keeps_flush_batch|apply keeps_ret].
        * intros x. destruct x; first [apply keeps_ret|apply keeps_raise].
      + intros broke. destruct broke; [apply keeps_ret|].
        apply keeps_bind; [apply keeps_gets|]. intros b.
        apply keeps_bind; [apply keeps_gets|]. intros size.
        apply keeps_bind; [|intros _; apply keeps_ret].
        match goal with |- keeps _ (if ?c then _ else _) => destruct c end;
          [|apply keeps_ret].
        apply keeps_bind; [apply keeps_flush_batch|]. intros _.
        apply keeps_set_batch.
    - intros _. apply keeps_bind; [apply keeps_print|].
      intros _. apply keeps_ret.
Qed.

Lemma keeps_turn (timed_out : bool) : keeps P (turn timed_out).
Proof.
    unfold turn. apply keeps_try_except; [apply keeps_loop_body|].
    intros _. apply keeps_ret.
Qed.

Lemma keeps_process_queue (schedule : list bool) :
    keeps P (_process_queue schedule).
Proof.
    induction schedule as [|timed_out later IH]; simpl; [apply keeps_ret|].
    apply keeps_bind; [apply keeps_gets|]. intros self.
    destruct (_thread self).
    - destruct (_stop self); [apply keeps_set_thread|].
      apply keeps_bind; [apply keeps_turn|].
      intros [|]; [exact IH|apply keeps_set_thread].
    - apply keeps_bind; [apply keeps_turn|].
      intros [|]; [|apply keeps_set_thread].
      apply keeps_bind; [apply keeps_set_thread|].
      intros _. exact IH.
    - apply keeps_ret.
Qed.
End async_invariants.

Section async_quiet.
Context {U : Type} `{Base.Handler U}.

  (** [AsyncHandler.emit] lets nothing out, whatever the wrapped handler
      does. *)
Lemma async_emit_quiet (e : entry) : quiet (AsyncHandler.emit (U := U) e).
Proof.
    unfold AsyncHandler.emit. apply quiet_bind; [apply quiet_gets|].
    intros self. destruct (AsyncHandler._stop self);
      [apply quiet_ret|apply quiet_try_pass].
Qed.

  (** Whatever the worker meets stays in the worker thread. *)
Lemma async_turn_quiet (timed_out : bool) :
    quiet (AsyncHandler.turn (U := U) timed_out).
Proof.
    unfold AsyncHandler.turn. apply quiet_try_except. intros _. apply quiet_ret.
Qed.

Lemma async_process_queue_quiet (schedule : list bool) :
    quiet (AsyncHandler._process_queue (U := U) schedule).
Proof.
    induction schedule as [|timed_out later IH]; simpl; [apply quiet_ret|].
    apply quiet_bind; [apply quiet_gets|]. intros self.
    destruct (AsyncHandler._thread self).
    - destruct (AsyncHandler._stop self); [apply quiet_modify|].
      apply quiet_bind; [apply async_turn_quiet|].
      intros [|]; [exact IH|apply quiet_modify].
    - apply quiet_bind; [apply async_turn_quiet|].
      intros [|]; [|apply quiet_modify].
      apply quiet_bind; [apply quiet_modify|]. intros _. exact IH.
    - apply quiet_ret.
Qed.

Lemma async_flush_quiet :
    quiet (Base.flush (H := U)) -> quiet (AsyncHandler.flush (U := U)).
Proof.
    intros Hu. unfold AsyncHandler.flush.
    apply quiet_bind; [apply quiet_try_pass|]. intros _.
    apply quiet_zoom. exact Hu.
Qed.

Lemma async_put_nowait_sentinel_quiet :
    quiet (try_except (AsyncHandler.put_nowait (U := U) None)
             (fun x => match x with QueueFull => ret tt | _ => raise x end)).
Proof.
    intros s x. unfold try_except, AsyncHandler.put_nowait, bind, gets. simpl.
    destruct (AsyncHandler.full s); simpl; discriminate.
Qed.

  (** The handler's [sys.stderr] takes every write to come. *)
Definition stderr_reliable (s : AsyncHandler.t U) : Prop :=
    reliable (AsyncHandler.stderr s).

Lemma print_stderr_reliable (text : string) (s : AsyncHandler.t U) :
    stderr_reliable s ->
    (AsyncHandler.print_stderr text s).1 = Returns tt
    /\ stderr_reliable (AsyncHandler.print_stderr text s).2.
Proof.
    intros Hs. unfold AsyncHandler.print_stderr, zoom, bind, stream_write.
    destruct (stream_io_reliable (fun w => (w ++ text)%string)
                (AsyncHandler.stderr s) Hs) as [Hr1 Hs1].
    destruct (stream_io (fun w => (w ++ text)%string) (AsyncHandler.stderr s))
      as [r1 err1]. cbn in Hr1, Hs1. subst r1.
    destruct (stream_io_reliable (fun w => (w ++ newline)%string) err1 Hs1)
      as [Hr2 Hs2].
    destruct (stream_io (fun w => (w ++ newline)%string) err1) as [r2 err2].
    cbn in Hr2, Hs2. subst r2. split; [reflexivity|exact Hs2].
Qed.

Lemma stable_stderr_reliable : stable stderr_reliable.
Proof.
    repeat split; try (intros ? s Hs; exact Hs).
    intros text s Hs. apply print_stderr_reliable. exact Hs.
Qed.

Lemma print_stderr_quiet_from (text : string) :
    quiet_from stderr_reliable (AsyncHandler.print_stderr text).
Proof.
    intros s x Hs. destruct (print_stderr_reliable text s Hs) as [Hr _].
    rewrite Hr. discriminate.
Qed.

  (** [close] reports on [sys.stderr] outside any [try]: it lets nothing
      out as long as those writes succeed. *)
Lemma async_close_quiet_from :
    quiet (Base.flush (H := U)) -> quiet (Base.close (H := U)) ->
    quiet_from stderr_reliable (AsyncHandler.close (U := U)).
Proof.
    intros Hf Hc. unfold AsyncHandler.close.
    pose proof stable_stderr_reliable as Hstable.
    apply quiet_from_bind;
      [apply quiet_from_quiet, quiet_modify
      |apply keeps_modify; intros s Hs; exact Hs|]. intros _.
    apply quiet_from_bind;
      [apply quiet_from_quiet, async_put_nowait_sentinel_quiet| |].
    { apply keeps_try_except; [apply keeps_put_nowait; exact Hstable|].
      intros x. destruct x; first [apply keeps_ret|apply keeps_raise]. }
    intros _.
    apply quiet_from_bind;
      [apply quiet_from_quiet, quiet_gets|apply keeps_gets|]. intros schedule.
    apply quiet_from_bind;
      [apply quiet_from_quiet, quiet_modify
      |apply keeps_set_joinable; exact Hstable|]. intros _.
    apply quiet_from_bind;
      [apply quiet_from_quiet, async_process_queue_quiet
      |apply keeps_process_queue; exact Hstable|]. intros _.
    apply quiet_from_bind;
      [apply quiet_from_quiet, quiet_gets|apply keeps_gets|]. intros w.
    apply quiet_from_bind.
    { destruct w; first [apply quiet_from_quiet, quiet_ret
                        |apply print_stderr_quiet_from]. }
    { destruct w; first [apply keeps_ret|apply keeps_print; exact Hstable]. }
    intros _.
    apply quiet_from_bind;
      [apply quiet_from_quiet, quiet_zoom; exact Hf
      |apply keeps_on_underlying; exact Hstable|]. intros _.
    apply quiet_from_bind;
      [apply quiet_from_quiet, quiet_zoom; exact Hc
      |apply keeps_on_underlying; exact Hstable|]. intros _.
    apply quiet_from_bind;
      [apply quiet_from_quiet, quiet_gets|apply keeps_gets|]. intros n.
    destruct (0 <? n);
      [apply print_stderr_quiet_from|apply quiet_from_quiet, quiet_ret].
Qed.
End async_quiet.

Section suppression.
Context `{Formatter}.

Lemma file_handler_quiet :
    (forall e, quiet (Base.emit (H := file_handler) e))
    /\ quiet (Base.flush (H := file_handler))
    /\ quiet (Base.close (H := file_handler)).
Proof.
    repeat split.
    - intros e [f|r] x; simpl; apply quiet_on_case; apply quiet_try_pass.
    - intros [f|r] x; simpl; apply quiet_on_case; apply quiet_try_pass.
    - intros [f|r] x; simpl; apply quiet_on_case; apply quiet_try_pass.
Qed.

  (** Of the handlers of the chain only the async wrapper reports to
      [sys.stderr]: [h] finds it taking every write to come. *)
Definition reports_reliably (h : configured) : Prop :=
    match h with
    | Async a => stderr_reliable a
    | _ => True
    end.

Lemma configured_quiet :
    (forall e, quiet (Base.emit (H := configured) e))
    /\ quiet (Base.flush (H := configured))
    /\ quiet_from reports_reliably (Base.close (H := configured)).
Proof.
    destruct file_handler_quiet as (Hemit & Hflush & Hclose).
    repeat split.
    - intros e [c|f|a] x; simpl; apply quiet_on_case.
      + apply quiet_try_pass.
      + apply Hemit.
      + apply async_emit_quiet.
    - intros [c|f|a] x; simpl; apply quiet_on_case.
      + apply quiet_try_pass.
      + exact Hflush.
      + apply async_flush_quiet. exact Hflush.
    - intros [c|f|a] x Hh; simpl.
      + apply quiet_on_case. apply quiet_try_pass.
      + apply quiet_on_case. exact Hclose.
      + pose proof (async_close_quiet_from Hflush Hclose a x Hh) as Ha.
        unfold on_case. destruct (AsyncHandler.close a) as [r a']. exact Ha.
Qed.

  (** C5, amended. With the handlers of this package (console, file,
      rotating file, and the async wrapper around a file handler), no
      failure met while emitting or flushing leaves the handler, and a
      log call raises nothing into its caller; the async wrapper's
      [emit] contains even the failures of a wrapped handler that
      raises.  Closing lets nothing out either as long as the writes to
      [sys.stderr] succeed: the async wrapper's [close] reports there
      outside any [try]. *)
Theorem handler_failures_suppressed :
    (forall e, quiet (Base.emit (H := configured) e))
    /\ quiet (Base.flush (H := configured))
    /\ (forall h x, reports_reliably h ->
          (Base.close (H := configured) h).1 <> Raises x)
    /\ (forall (U : Type) (HU : Base.Handler U) e,
          quiet (AsyncHandler.emit (U := U) e))
    /\ (forall hp env self lvl message exception kwargs context,
          read_dict hp (_context self) = Some context ->
          quiet (_log (H := configured) hp env self lvl message exception kwargs)).
Proof.
    destruct configured_quiet as (Hemit & Hflush & Hclose).
    split; [exact Hemit|]. split; [exact Hflush|]. split; [exact Hclose|].
    split; [intros U HU e; apply async_emit_quiet|].
    intros hp env self lvl message exception kwargs context Hctx.
    unfold _log. rewrite Hctx.
    destruct (Level.value lvl <? Level.value (Config.level (_config self)));
      [apply quiet_ret|].
    apply quiet_emit_all. exact Hemit.
Qed.
End suppression.

Definition sample_formatter : Formatter :=
  {| format_json := fun e =>
       match e !! "message" with
       | Some (FStr m) => inr m
       | _ => inl TypeError
       end;
     format_text := fun e =>
       match e !! "message" with
       | Some (FStr m) => inr m
       | _ => inl TypeError
       end |}.

(** A file handler whose disk fails on every operation. *)
Definition broken_file_handler : configured :=
  Sync (Plain {| FileHandler.file_path := "logs/app.log";
                 FileHandler._file :=
                   Some {| opened_on := "logs/app.log"; closed := false |};
                 FileHandler.dev :=
                   {| files := ∅; disk_faults := [true; true; true; true] |} |}).

(** An async handler over a file handler, with room for one entry and
    the drop policy, after two calls of [emit]: one entry is queued,
    one is dropped.  The worker gets one turn while [close] joins it. *)
Definition overflowed_handler : AsyncHandler.t file_handler :=
  let working : file_handler :=
    Plain {| FileHandler.file_path := "logs/app.log";
             FileHandler._file :=
               Some {| opened_on := "logs/app.log"; closed := false |};
             FileHandler.dev := {| files := ∅; disk_faults := [] |} |} in
  let h := AsyncHandler.__init__ working 1 AsyncHandler.DROP 100 [false] in
  let emit := AsyncHandler.emit (H := @file_handler_handler sample_formatter) in
  let h1 := (emit {["message" := FStr "a"]} h).2 in
  (emit {["message" := FStr "b"]} h1).2.

(** A standard error whose next write fails. *)
Definition failing_stderr : stream :=
  {| written := ""; stream_faults := [true] |}.

(** C5, as stated, fails for [close]: when entries were dropped, the
    async wrapper reports the count on [sys.stderr] after it has closed
    the wrapped handler, outside any [try]; with a standard error that
    fails, the [OSError] leaves [close]. *)
Lemma close_raises_when_stderr_fails :
  AsyncHandler._dropped_count overflowed_handler = 1
  /\ (Base.close (H := configured) (Handler := @configured_handler sample_formatter)
        (Async (AsyncHandler.set_stderr failing_stderr overflowed_handler))).1
     = Raises OSError.
Proof. split; vm_compute; reflexivity. Qed.

Lemma handler_failures_suppressed_witness :
  (read_dict sample_heap (_context (sample_logger INFO)) = Some ∅
   /\ forall x,
       (_log (H := configured) (H0 := @configured_handler sample_formatter)
             sample_heap sample_env (sample_logger INFO) ERROR "disk full" None ∅
             [broken_file_handler]).1
       <> Raises x)
  /\ (reports_reliably (Async overflowed_handler)
      /\ forall x,
          (Base.close (H := configured)
             (Handler := @configured_handler sample_formatter)
             (Async overflowed_handler)).1
          <> Raises x).
Proof.
  split.
  - split; [reflexivity|]. intros x.
    exact (proj2 (proj2 (proj2 (proj2
             (@handler_failures_suppressed sample_formatter))))
             sample_heap sample_env (sample_logger INFO) ERROR "disk full" None
             ∅ ∅ eq_refl [broken_file_handler] x).
  - assert (reports_reliably (Async overflowed_handler)) as Hreliable
      by (vm_compute; constructor).
    split; [exact Hreliable|]. intros x.
    exact (proj1 (proj2 (proj2
             (@handler_failures_suppressed sample_formatter)))
             (Async overflowed_handler) x Hreliable).
Defined.

(** ** The async handler: overflow, shutdown *)

Section async_props.
Context {U : Type} `{Base.Handler U}.

Import AsyncHandler.

  (** Successive producer calls with the worker stalled in between. *)
Fixpoint emit_each (entries : list entry) (s : t U)
    : list (outcome unit) * t U :=
    match entries with
    | [] => ([], s)
    | e :: rest =>
        let '(r, s1) := emit e s in
        let '(rs, s2) := emit_each rest s1 in
        (r :: rs, s2)
    end.

  (** One [emit] under the drop policy on a running handler: the entry
      joins the queue, or the counter moves by one; the call returns. *)
Lemma emit_drop_step (e : entry) (s : t U) :
    _on_full s = DROP -> _stop s = false ->
    emit e s
    = (Returns tt,
       if full s then set_dropped_count (_dropped_count s + 1) s
       else set_queue (_queue s ++ [Some e]) s).
Proof.
    intros Hpolicy Hrun.
    unfold emit, bind, gets, try_pass, try_except, put_nowait, bind, gets.
    simpl. rewrite Hrun, Hpolicy. simpl.
    destruct (full s); reflexivity.
Qed.

  (** The entries of [entries] that a queue in state [s] has room for:
      all of them when the queue is unbounded ([maxsize <= 0]), else
      the first [maxsize - qsize]. *)
Definition accepted (entries : list entry) (s : t U) : list entry :=
    if (0 <? maxsize s)%Z
    then take (Z.to_nat (maxsize s - Z.of_nat (length (_queue s)))) entries
    else entries.

  (** With the worker stalled, the queue takes the entries it has room
      for, in call order, and every other entry is counted. *)
Lemma emit_each_drop_queue (entries : list entry) (s : t U) :
    _on_full s = DROP -> _stop s = false ->
    let s' := (emit_each entries s).2 in
    _queue s' = _queue s ++ (Some <$> accepted entries s)
    /\ _dropped_count s'
       = _dropped_count s
         + (Z.of_nat (length entries) - Z.of_nat (length (accepted entries s))).
Proof.
    revert s. induction entries as [|e rest IH]; intros s Hpolicy Hrun.
    - cbn. unfold accepted. rewrite take_nil.
      destruct (0 <? maxsize s)%Z; cbn; rewrite app_nil_r; split; [reflexivity|lia
        |reflexivity|lia].
    - cbn [emit_each]. rewrite (emit_drop_step e s Hpolicy Hrun).
      set (s1 := if full s then set_dropped_count (_dropped_count s + 1) s
                 else set_queue (_queue s ++ [Some e]) s).
      assert (_on_full s1 = DROP) as Hpolicy1
        by (subst s1; destruct (full s); exact Hpolicy).
      assert (_stop s1 = false) as Hrun1
        by (subst s1; destruct (full s); exact Hrun).
      specialize (IH s1 Hpolicy1 Hrun1). cbv zeta in IH.
      destruct (emit_each rest s1) as [rs s2]. cbn [snd] in IH |- *.
      destruct IH as [Hq Hd]. rewrite Hq, Hd. clear Hq Hd.
      unfold accepted. subst s1. unfold full.
      destruct (Z.ltb_spec 0 (maxsize s)) as [Hpos|Hnonpos]; cbn [andb].
      + destruct (Z.leb_spec (maxsize s) (Z.of_nat (length (_queue s))))
          as [Hfull|Hroom]; cbn [maxsize _queue _dropped_count set_queue
                                 set_dropped_count].
        * rewrite (proj2 (Z.ltb_lt _ _)) by exact Hpos.
          replace (Z.to_nat (maxsize s - Z.of_nat (length (_queue s))))
            with 0%nat by lia.
          rewrite !take_0. cbn [length]. split; [reflexivity|lia].
        * rewrite (proj2 (Z.ltb_lt _ _)) by exact Hpos.
          rewrite length_app. cbn [length].
          replace (Z.to_nat (maxsize s - Z.of_nat (length (_queue s))))
            with (S (Z.to_nat (maxsize s
                               - Z.of_nat (length (_queue s) + 1)%nat)))
            by lia.
          cbn [take]. rewrite fmap_cons. cbn [length].
          split; [rewrite <- app_assoc; reflexivity|lia].
      + cbn [maxsize _queue _dropped_count set_queue set_dropped_count].
        rewrite (proj2 (Z.ltb_ge _ _)) by exact Hnonpos.
        rewrite fmap_cons. cbn [length].
        split; [rewrite <- app_assoc; reflexivity|lia].
Qed.

Lemma emit_each_drop_counts (entries : list entry) (s : t U) :
    _on_full s = DROP -> _stop s = false ->
    let rs := (emit_each entries s).1 in
    let s' := (emit_each entries s).2 in
    Forall (fun r => r = Returns tt) rs
    /\ length rs = length entries
    /\ _dropped_count s' - _dropped_count s
       = Z.of_nat (length entries)
         - (Z.of_nat (length (_queue s')) - Z.of_nat (length (_queue s)))
    /\ (exists queued, _queue s' = _queue s ++ (Some <$> queued)
                       /\ sublist queued entries)
    /\ _underlying_handler s' = _underlying_handler s
    /\ (entries <> [] -> full s = true ->
        _queue s' = _queue s
        /\ _dropped_count s' = _dropped_count s + Z.of_nat (length entries)).
Proof.
    revert s. induction entries as [|e rest IH]; intros s Hpolicy Hrun; simpl.
    - split; [constructor|]. split; [reflexivity|]. split; [lia|].
      split; [exists []; rewrite app_nil_r; split; [reflexivity|constructor]|].
      split; [reflexivity|]. intros Hne. congruence.
    - rewrite (emit_drop_step e s Hpolicy Hrun).
      set (s1 := if full s then set_dropped_count (_dropped_count s + 1) s
                 else set_queue (_queue s ++ [Some e]) s).
      assert (_on_full s1 = DROP) as Hpolicy1
        by (subst s1; destruct (full s); exact Hpolicy).
      assert (_stop s1 = false) as Hrun1
        by (subst s1; destruct (full s); exact Hrun).
      specialize (IH s1 Hpolicy1 Hrun1). simpl in IH.
      destruct (emit_each rest s1) as [rs s2]. simpl in *.
      destruct IH as (Hrs & Hlen & Hcount & (queued & Hq & Hsub) & Hunder & Hfull).
      split; [constructor; [reflexivity|exact Hrs]|].
      split; [rewrite Hlen; reflexivity|].
      subst s1. destruct (full s) eqn:Hf; simpl in *.
      + split; [lia|]. split.
        { exists queued. split; [exact Hq|]. apply sublist_cons. exact Hsub. }
        split; [exact Hunder|]. intros _ _.
        destruct rest as [|e' rest'].
        * apply sublist_nil_r in Hsub. subst queued. simpl in Hq.
          rewrite app_nil_r in Hq. split; [exact Hq|].
          rewrite Hq in Hcount. simpl in Hcount. simpl. lia.
        * assert (full (set_dropped_count (_dropped_count s + 1) s) = true) as Hf'
            by exact Hf.
          destruct (Hfull ltac:(discriminate) Hf') as [Hq' Hd'].
          split; [exact Hq'|]. rewrite Hd'. simpl length. lia.
      + split.
        { rewrite Hcount. rewrite length_app. simpl. lia. }
        split.
        { exists (e :: queued). split.
          - rewrite Hq. rewrite <- app_assoc. reflexivity.
          - apply sublist_skip. exact Hsub. }
        split; [exact Hunder|]. intros _ Habs. discriminate.
Qed.

  (** C6. Under the drop policy, on a running handler whose worker is
      stalled, every [emit] returns without blocking.  Each call tries
      the queue without waiting: an entry joins the queue whenever the
      queue has room, in call order, and is dropped only when the queue
      is full, each drop moving the counter by exactly one.  So after N
      calls the queue holds what it held followed by the first entries
      it had room for, and the counter has grown by N minus the number
      of entries that joined the queue.  Nothing reaches the wrapped
      handler. *)
Theorem drop_policy_accounting (entries : list entry) (s : t U) :
    _on_full s = DROP -> _stop s = false ->
    let rs := (emit_each entries s).1 in
    let s' := (emit_each entries s).2 in
    Forall (fun r => r = Returns tt) rs
    /\ length rs = length entries
    /\ _dropped_count s' - _dropped_count s
       = Z.of_nat (length entries)
         - (Z.of_nat (length (_queue s')) - Z.of_nat (length (_queue s)))
    /\ (exists queued, _queue s' = _queue s ++ (Some <$> queued)
                       /\ sublist queued entries)
    /\ _underlying_handler s' = _underlying_handler s
    /\ (entries <> [] -> full s = true ->
        _queue s' = _queue s
        /\ _dropped_count s' = _dropped_count s + Z.of_nat (length entries))
    /\ _queue s' = _queue s ++ (Some <$> accepted entries s)
    /\ _dropped_count s'
       = _dropped_count s
         + (Z.of_nat (length entries) - Z.of_nat (length (accepted entries s))).
Proof.
    intros Hpolicy Hrun rs s'.
    destruct (emit_each_drop_counts entries s Hpolicy Hrun)
      as (H1 & H2 & H3 & H4 & H5 & H6).
    destruct (emit_each_drop_queue entries s Hpolicy Hrun) as (H7 & H8).
    repeat (split; [assumption|]). assumption.
Qed.
End async_props.

Lemma drop_policy_accounting_witness :
  let a : entry := {["message" := FStr "a"]} in
  let b : entry := {["message" := FStr "b"]} in
  let c : entry := {["message" := FStr "c"]} in
  let s := AsyncHandler.__init__ ([] : CustomHandler.t) 2 AsyncHandler.DROP 100 [] in
  let s' := (emit_each [a; b; c] s).2 in
  AsyncHandler._on_full s = AsyncHandler.DROP
  /\ AsyncHandler._stop s = false
  /\ Forall (fun r => r = Returns tt) (emit_each [a; b; c] s).1
  /\ AsyncHandler._dropped_count s' - AsyncHandler._dropped_count s
     = 3 - (Z.of_nat (length (AsyncHandler._queue s'))
            - Z.of_nat (length (AsyncHandler._queue s)))
  /\ AsyncHandler._dropped_count s' = 1
  /\ AsyncHandler._queue s' = [Some a; Some b].
Proof.
  intros a b c s s'.
  destruct (drop_policy_accounting [a; b; c] s eq_refl eq_refl)
    as (Hrs & _ & Hcount & _ & _ & _ & Hqueue & Hdropped).
  split; [reflexivity|]. split; [reflexivity|].
  split; [exact Hrs|]. split; [exact Hcount|].
  split; [exact Hdropped|exact Hqueue].
Defined.

Section async_shutdown.
Context {U : Type} `{Base.Handler U}.

Import AsyncHandler.

Definition stopped (s : t U) : Prop := _stop s = true.

Lemma stable_stopped : stable stopped.
Proof.
    repeat split; try (intros ? s Hs; exact Hs).
    intros text. apply keeps_zoom. intros err s Hs. exact Hs.
Qed.

Lemma close_stops (s : t U) : stopped (close s).2.
Proof.
    unfold close, bind at 1. simpl.
    pose proof stable_stopped as Hstable.
    match goal with
    | |- stopped (?rest (set_stop true s)).2 =>
        assert (keeps stopped rest) as Hrest
    end.
    { apply keeps_bind.
      { apply keeps_try_except; [apply keeps_put_nowait; exact Hstable|].
        intros x. destruct x; first [apply keeps_ret|apply keeps_raise]. }
      intros _. apply keeps_bind; [apply keeps_gets|]. intros schedule.
      apply keeps_bind; [apply keeps_set_joinable; exact Hstable|]. intros _.
      apply keeps_bind; [apply keeps_process_queue; exact Hstable|]. intros _.
      apply keeps_bind; [apply keeps_gets|]. intros w.
      apply keeps_bind.
      { destruct w; first [apply keeps_ret|apply keeps_print; exact Hstable]. }
      intros _.
      apply keeps_bind; [apply keeps_on_underlying; exact Hstable|]. intros _.
      apply keeps_bind; [apply keeps_on_underlying; exact Hstable|]. intros _.
      apply keeps_bind; [apply keeps_gets|]. intros n.
      destruct (0 <? n); [apply keeps_print; exact Hstable|apply keeps_ret]. }
    apply Hrest. reflexivity.
Qed.

  (** C10. Once [close] has been called, [emit] is a silent no-op: the
      call returns and leaves the handler as it was, so the entry is not
      queued, the wrapped handler is not written to, and the dropped
      counter does not move. *)
Theorem emit_after_close_is_noop (s : t U) (e : entry) :
    let closed_handler := (close s).2 in
    emit e closed_handler = (Returns tt, closed_handler)
    /\ _queue (emit e closed_handler).2 = _queue closed_handler
    /\ _underlying_handler (emit e closed_handler).2
       = _underlying_handler closed_handler
    /\ _dropped_count (emit e closed_handler).2 = _dropped_count closed_handler.
Proof.
    intros closed_handler.
    assert (emit e closed_handler = (Returns tt, closed_handler)) as Hnoop.
    { pose proof (close_stops s) as Hstop. fold closed_handler in Hstop.
      unfold emit, bind, gets. simpl. rewrite Hstop. reflexivity. }
    rewrite Hnoop. repeat split.
Qed.
End async_shutdown.

(** *** Shutdown with records still queued *)

Definition first_record : entry := {["message" := FStr "first"]}.
Definition second_record : entry := {["message" := FStr "second"]}.

(** A handler with the block policy, room for ten entries, batches of
    100, wrapping an observed [CustomHandler].  [worker_at] is where the
    worker stands when the producer runs; [schedule] is what the worker
    gets to run while [close] joins it. *)
Definition blocking_handler (worker_at : AsyncHandler.worker)
    (schedule : list bool) : AsyncHandler.t (watched CustomHandler.t) :=
  AsyncHandler.set_thread worker_at
    (AsyncHandler.__init__ (watch ([] : CustomHandler.t)) 10
       AsyncHandler.BLOCK 100 schedule).

(** C7 on the code. Two records are enqueued under the block policy and
    [close] is called.  The sentinel is enqueued behind them, but the
    worker leaves its loop on the [_stop] flag: from the loop head it
    delivers nothing; from inside [get] it takes the first record into
    its batch and leaves without flushing it; even when the batch
    timeout has elapsed it delivers the first record only.  The second
    record is never delivered. *)
Theorem close_loses_enqueued_records :
  let run worker_at schedule :=
    let h := blocking_handler worker_at schedule in
    let enqueued := emit_each [first_record; second_record] h in
    (enqueued.1, AsyncHandler._queue enqueued.2,
     let closed_handler := (AsyncHandler.close enqueued.2).2 in
     (AsyncHandler._thread closed_handler,
      received (AsyncHandler._underlying_handler closed_handler),
      AsyncHandler._queue closed_handler)) in
  run AsyncHandler.AtLoopHead [false; false; false; false]
  = ([Returns tt; Returns tt], [Some first_record; Some second_record],
     (AsyncHandler.Exited, [], [Some first_record; Some second_record; None]))
  /\ run AsyncHandler.InGet [false; false; false; false]
     = ([Returns tt; Returns tt], [Some first_record; Some second_record],
        (AsyncHandler.Exited, [], [Some second_record; None]))
  /\ run AsyncHandler.InGet [true; true; true; true]
     = ([Returns tt; Returns tt], [Some first_record; Some second_record],
        (AsyncHandler.Exited, [first_record], [Some second_record; None])).
Proof. repeat split; vm_compute; reflexivity. Qed.

(** ** Rotation with no backups configured *)

(** A 10-byte log file, opened by a rotating handler with
    [max_bytes = 16] and [backup_count = 0]. *)
Definition old_log : string := "0123456789".

Definition disk_with_old_log : disk :=
  {| files := {["logs/app.log" := old_log]}; disk_faults := [] |}.

Definition no_backup_handler : RotatingFileHandler.t :=
  (RotatingFileHandler.__init__ "logs/app.log" 16 0 disk_with_old_log).2.

(** An entry that [sample_formatter] renders as the 7 bytes "rotated". *)
Definition rotated_record : entry := {["message" := FStr "rotated"]}.

(** C8 on the code. With [backup_count = 0] the write that would pass
    [max_bytes] does rotate, but the old content of the primary file is
    kept under the name [path.1]. *)
Theorem backup_count_zero_keeps_a_backup :
  RotatingFileHandler.backup_count no_backup_handler = 0
  /\ RotatingFileHandler._current_size no_backup_handler = 10
  /\ RotatingFileHandler._should_rotate no_backup_handler 8 = true
  /\ let after :=
       (RotatingFileHandler.emit (H := sample_formatter) rotated_record
          no_backup_handler).2 in
     files (RotatingFileHandler.dev after) !! "logs/app.log"
     = Some ("rotated" ++ newline)%string
     /\ files (RotatingFileHandler.dev after) !! "logs/app.log.1" = Some old_log
     /\ RotatingFileHandler._current_size after = 8.
Proof. repeat split; vm_compute; reflexivity. Qed.

(** ** The timer *)

Section timing.
Context {H : Type} `{Base.Handler H}.

  (** The entry is handed to every observed handler, each recording it
      once more. *)
Definition hand_over (e : entry) (w : watched H) : watched H :=
    {| inner := (Base.emit e (inner w)).2; received := received w ++ [e] |}.

Lemma emit_all_watching (e : entry) (ws : list (watched H)) :
    Forall (fun w => emit_returns (inner w)) ws ->
    emit_all e ws = (Returns tt, hand_over e <$> ws).
Proof.
    induction 1 as [|w ws Hw _ IH]; [reflexivity|].
    rewrite fmap_cons. cbn [emit_all]. rewrite IH.
    cbn. unfold on_inner, zoom. cbn.
    destruct (Hw e) as [h' Hemit]. unfold hand_over. rewrite Hemit. reflexivity.
Qed.

  (** Names that a call [timer(operation, **kwargs)] cannot pass on to
      [_log] as context fields: the parameters of [timer], those of
      [_log], and the keyword [timer] passes itself. *)
Definition taken_names : list string :=
    ["self"; "operation"; "level"; "message"; "exception"; "duration_ms"].

Lemma call__log_timer (hp : heap) (env : call_env) (self : Logger)
      (operation : string) (duration : Q) (kwargs : gmap string value) :
    (forall k, k ∈ taken_names -> kwargs !! k = None) ->
    call__log (H := watched H) hp env self INFO operation None
      {["duration_ms" := VFloat duration]} kwargs
    = _log hp env self INFO operation None
        ({["duration_ms" := VFloat duration]} ∪ kwargs).
Proof.
    intros Hfree. unfold call__log.
    assert (forall k, k ∈ taken_names -> k ∉ dom kwargs) as Hdom.
    { intros k Hk. apply not_elem_of_dom. apply Hfree. exact Hk. }
    rewrite bool_decide_eq_true_2.
    - rewrite (Hfree "exception") by (unfold taken_names; set_solver).
      reflexivity.
    - split; [|repeat split; apply Hdom; unfold taken_names; set_solver].
      rewrite dom_singleton_L.
      pose proof (Hdom "duration_ms" ltac:(unfold taken_names; set_solver)).
      set_solver.
Qed.
End timing.

Lemma duration_nonneg {float64 : Float} (start stop : Q) :
  (start <= stop)%Q -> (0 <= fl (fl (stop - start) * 1000))%Q.
Proof.
  intros Hle. apply fl_nonneg. apply Qmult_le_0_compat; [|discriminate].
  apply fl_nonneg. unfold Qminus. rewrite <- Qle_minus_iff. exact Hle.
Qed.

Section timer_binding.
Context {H : Type} `{Base.Handler H} {float64 : Float}.

Lemma timer_bound (hp : heap) (env : call_env) (self : Logger)
    (operation : string) (kwargs : gmap string value) (start stop : Q)
    (work : M (list H) unit) (handlers : list H) :
  kwargs !! "self" = None -> kwargs !! "operation" = None ->
  timer hp env self operation kwargs start stop work handlers
  = match work handlers with
    | (Blocks, handlers1) => (Blocks, handlers1)
    | (r, handlers1) =>
        match call__log hp (entered (frame_of_method "timer" 230) env) self
                INFO operation None
                {["duration_ms" := VFloat (fl (fl (stop - start) * 1000))]}
                kwargs handlers1 with
        | (Returns _, handlers2) => (r, handlers2)
        | failed => failed
        end
    end.
Proof.
  intros Hself Hoperation. unfold timer.
  rewrite bool_decide_eq_false_2; [reflexivity|].
  intros [Hin|Hin]; apply elem_of_dom in Hin as [v Hv]; congruence.
Qed.
End timer_binding.

(** C9, as stated, fails: with the threshold above INFO the timer logs
    nothing, on normal exit and when the work raises. *)
Lemma timer_counterexample :
  timer (float64 := exact_float) sample_heap sample_env (sample_logger WARNING)
    "query" ∅ 1 2 (ret tt) [watch ([] : CustomHandler.t)]
  = (Returns tt, [watch []])
  /\ timer (float64 := exact_float) sample_heap sample_env
       (sample_logger WARNING) "query" ∅ 1 2
       (raise ValueError) [watch ([] : CustomHandler.t)]
     = (Raises ValueError, [watch []]).
Proof. split; reflexivity. Qed.

(** C9, amended. For a timer scope whose fields use none of the names
    taken by the parameters of [timer] and of [_log] ([self],
    [operation], [level], [message], [exception], [duration_ms]),
    whether the work returns or raises: when the threshold is INFO or
    lower, every handler is given exactly one more record, at level
    INFO, with the label as message and, in its context,
    [duration_ms >= 0] together with the fields; when the threshold is
    above INFO no record is logged.  Either way the scope ends as the
    work ended. *)
Theorem timer_logs_once_unless_filtered {H : Type} `{Base.Handler H}
    {float64 : Float} (hp : heap) (env : call_env) (self : Logger) (operation : string)
    (kwargs context : gmap string value) (start stop : Q)
    (work : M (list (watched H)) unit) (ws : list (watched H)) :
  read_dict hp (_context self) = Some context ->
  (start <= stop)%Q ->
  (forall k, k ∈ taken_names -> kwargs !! k = None) ->
  (work ws).1 <> Blocks ->
  Forall (fun w => emit_returns (inner w)) (work ws).2 ->
  let duration_ms := fl (fl (stop - start) * 1000)%Q in
  let record :=
    _log_entry (entered (frame_of_method "timer" 230) env) self INFO operation
      None context ({["duration_ms" := VFloat duration_ms]} ∪ kwargs) in
  let threshold := Config.level (_config self) in
  (0 <= duration_ms)%Q
  /\ record !! "level" = Some (FStr "INFO")
  /\ record !! "message" = Some (FStr operation)
  /\ (exists nested,
        record !! "context" = Some (FCtx nested)
        /\ nested !! "duration_ms" = Some (VFloat duration_ms)
        /\ forall k v, k ∉ special_keys -> kwargs !! k = Some v ->
                       nested !! k = Some v)
  /\ timer hp env self operation kwargs start stop work ws
     = ((work ws).1,
        if (Level.value threshold <=? Level.value INFO)%Z
        then hand_over record <$> (work ws).2
        else (work ws).2).
Proof.
  intros Hctx Hclock Hfree Hgoes Hret duration_ms record threshold.
  split; [apply duration_nonneg; exact Hclock|].
  assert (forall k, k ∉ special_keys -> k <> "context" -> k <> "exception" ->
            record !! k
            = (<["message" := FStr operation]>
               (<["level" := FStr (Level.name INFO)]> (∅ : entry))) !! k
            \/ k ∈ ["timestamp"; "service"; "environment"; "version"; "host";
                    "logger_name"; "file"; "line"; "function"]) as Hbase.
  { intros k Hk Hc Hx. subst record. unfold _log_entry.
    rewrite attach_exception_lookup by exact Hx.
    match goal with
    | |- fold_left (promote ?m) _ ?e !! _ = _ \/ _ =>
        destruct (promote_fold m special_keys context_not_special e m
                    (lookup_insert_eq _ _ _)) as [_ Hother]
    end.
    rewrite Hother by exact Hc. rewrite decide_False by exact Hk.
    rewrite lookup_insert_ne by congruence.
    destruct (decide (k ∈ ["timestamp"; "service"; "environment"; "version";
                           "host"; "logger_name"; "file"; "line"; "function"]))
      as [Hin|Hout]; [right; exact Hin|left].
    assert (forall x, x ∈ ["timestamp"; "service"; "environment"; "version";
                           "host"; "logger_name"; "file"; "line"; "function"] ->
                      x <> k) as Hne
      by (intros x Hin ->; exact (Hout Hin)).
    do 8 (rewrite lookup_insert_ne
            by (apply Hne; repeat first [apply list_elem_of_here
                                        |apply list_elem_of_further])).
    destruct (decide (k = "message")) as [->|Hm];
      [rewrite !lookup_insert_eq; reflexivity|].
    rewrite !(lookup_insert_ne _ "message") by congruence.
    destruct (decide (k = "level")) as [->|Hl];
      [rewrite !lookup_insert_eq; reflexivity|].
    rewrite !(lookup_insert_ne _ "level") by congruence.
    rewrite lookup_insert_ne
      by (apply Hne; repeat first [apply list_elem_of_here
                                  |apply list_elem_of_further]).
    reflexivity. }
  split.
  { assert ("level" ∉ special_keys) as Hk
      by (unfold special_keys; intros Hin;
          repeat (apply elem_of_cons in Hin as [Hin|Hin]; [discriminate|]);
          inversion Hin).
    destruct (Hbase "level" Hk ltac:(discriminate) ltac:(discriminate))
      as [Hl|Hl].
    - rewrite Hl. reflexivity.
    - exfalso.
      repeat (apply elem_of_cons in Hl as [Hl|Hl]; [discriminate|]).
      inversion Hl. }
  split.
  { assert ("message" ∉ special_keys) as Hk
      by (unfold special_keys; intros Hin;
          repeat (apply elem_of_cons in Hin as [Hin|Hin]; [discriminate|]);
          inversion Hin).
    destruct (Hbase "message" Hk ltac:(discriminate) ltac:(discriminate))
      as [Hm|Hm].
    - rewrite Hm. reflexivity.
    - exfalso.
      repeat (apply elem_of_cons in Hm as [Hm|Hm]; [discriminate|]).
      inversion Hm. }
  split.
  { destruct (_log_entry_promotion (entered (frame_of_method "timer" 230) env)
                self INFO operation None context
                ({["duration_ms" := VFloat duration_ms]} ∪ kwargs))
      as [[nested [Hn Hlook]] _].
    exists nested. split; [exact Hn|]. split.
    - rewrite Hlook. rewrite decide_False by (unfold special_keys; set_solver).
      apply lookup_union_Some_l. apply lookup_union_Some_l.
      apply lookup_singleton_eq.
    - intros k v Hk Hkv. rewrite Hlook. rewrite decide_False by exact Hk.
      apply lookup_union_Some_l.
      rewrite lookup_union_r; [exact Hkv|].
      apply lookup_singleton_ne. intros <-.
      rewrite (Hfree "duration_ms") in Hkv by (unfold taken_names; set_solver).
      discriminate. }
  rewrite timer_bound
    by (apply Hfree; unfold taken_names;
        repeat first [apply list_elem_of_here|apply list_elem_of_further]).
  destruct (work ws) as [r mid] eqn:Hwork. simpl in Hgoes, Hret |- *.
  rewrite (call__log_timer hp _ self operation duration_ms kwargs Hfree).
  unfold _log. fold threshold.
  destruct (Z.ltb_spec (Level.value INFO) (Level.value threshold)) as [Hlt|Hge].
  - rewrite (proj2 (Z.leb_gt _ _)) by exact Hlt.
    destruct r as [[]|x|]; [reflexivity|reflexivity|congruence].
  - rewrite (proj2 (Z.leb_le _ _)) by exact Hge.
    rewrite Hctx. fold duration_ms. fold record.
    rewrite (emit_all_watching record mid Hret).
    destruct r as [[]|x|]; [reflexivity|reflexivity|congruence].
Qed.

Lemma timer_logs_once_unless_filtered_witness :
  let fields : gmap string value := {["table" := VStr "users"]} in
  let ws := [watch ([] : CustomHandler.t)] in
  let record :=
    _log_entry (entered (frame_of_method "timer" 230) sample_env)
      (sample_logger INFO) INFO "query" None ∅
      ({["duration_ms" := VFloat ((2 - 1) * 1000)]} ∪ fields) in
  read_dict sample_heap (_context (sample_logger INFO)) = Some ∅
  /\ (1 <= 2)%Q
  /\ (forall k, k ∈ taken_names -> fields !! k = None)
  /\ (raise (S := list (watched CustomHandler.t)) (A := unit) ValueError ws).1
     <> Blocks
  /\ Forall (fun w => emit_returns (inner w))
       (raise (S := list (watched CustomHandler.t)) (A := unit) ValueError ws).2
  /\ timer (float64 := exact_float) sample_heap sample_env (sample_logger INFO)
       "query" fields 1 2 (raise ValueError) ws
     = (Raises ValueError, [{| inner := [record]; received := [record] |}]).
Proof.
  intros fields ws record.
  assert (read_dict sample_heap (_context (sample_logger INFO)) = Some ∅) as H1
    by reflexivity.
  assert ((1 <= 2)%Q) as H2 by discriminate.
  assert (forall k, k ∈ taken_names -> fields !! k = None) as H3.
  { intros k Hk. unfold taken_names in Hk.
    repeat (apply elem_of_cons in Hk as [->|Hk]; [reflexivity|]).
    inversion Hk. }
  assert ((raise (S := list (watched CustomHandler.t)) (A := unit) ValueError ws).1
          <> Blocks) as H4 by discriminate.
  assert (Forall (fun w => emit_returns (inner w))
            (raise (S := list (watched CustomHandler.t)) (A := unit) ValueError ws).2)
    as H5.
  { repeat constructor. intros e. eexists. reflexivity. }
  repeat (split; [assumption|]).
  exact (proj2 (proj2 (proj2 (proj2
           (timer_logs_once_unless_filtered (float64 := exact_float)
              sample_heap sample_env
              (sample_logger INFO) "query" fields ∅ 1 2 (raise ValueError) ws
              H1 H2 H3 H4 H5))))).
Defined.

(** * Further properties of the code *)

(** ** logger.py: [_capture_source_location] *)

Lemma f_back_loop_drop (depth : nat) (fr : list frame) :
  f_back_loop depth fr = drop depth fr.
Proof.
  revert fr. induction depth as [|n IH]; intros fr; [reflexivity|].
  destruct fr as [|f back]; [reflexivity|]. simpl. apply IH.
Qed.

(** X1. [_capture_source_location] describes the frame found
    [stack_depth] links up the chain, and gives the placeholder
    ["<unknown>"], [0], ["<unknown>"] as soon as the chain has no more
    than [stack_depth] frames. *)
Theorem capture_source_location_by_depth (current : list frame) (depth : nat) :
  _capture_source_location current depth
  = match current !! depth with
    | Some fr =>
        {| file := basename (co_filename fr);
           line := f_lineno fr;
           function := co_name fr |}
    | None => {| file := "<unknown>"; line := 0; function := "<unknown>" |}
    end
  /\ ((length current <= depth)%nat ->
      _capture_source_location current depth
      = {| file := "<unknown>"; line := 0; function := "<unknown>" |}).
Proof.
  assert (_capture_source_location current depth
          = match current !! depth with
            | Some fr =>
                {| file := basename (co_filename fr);
                   line := f_lineno fr;
                   function := co_name fr |}
            | None => {| file := "<unknown>"; line := 0; function := "<unknown>" |}
            end) as Heq.
  { unfold _capture_source_location. rewrite f_back_loop_drop.
    destruct (drop depth current) as [|fr rest] eqn:Hdrop.
    - apply drop_nil_inv in Hdrop.
      rewrite lookup_ge_None_2 by exact Hdrop. reflexivity.
    - assert (current !! depth = Some fr) as ->; [|reflexivity].
      rewrite <- (Nat.add_0_r depth). rewrite <- lookup_drop.
      rewrite Hdrop. reflexivity. }
  split; [exact Heq|].
  intros Hshort. rewrite Heq. rewrite lookup_ge_None_2 by exact Hshort.
  reflexivity.
Qed.

Lemma capture_source_location_by_depth_witness :
  (length [frame_of__capture_source_location; frame_of__log] <= 100)%nat
  /\ _capture_source_location [frame_of__capture_source_location; frame_of__log] 100
     = {| file := "<unknown>"; line := 0; function := "<unknown>" |}.
Proof.
  assert ((length [frame_of__capture_source_location; frame_of__log] <= 100)%nat)
    as Hshort by (simpl; lia).
  split; [exact Hshort|].
  exact (proj2 (capture_source_location_by_depth
                  [frame_of__capture_source_location; frame_of__log] 100) Hshort).
Defined.

(** ** logger.py: the file name kept in a record *)

Fixpoint has_slash (s : string) : bool :=
  match s with
  | EmptyString => false
  | String c rest => Ascii.eqb c "/"%char || has_slash rest
  end.

Lemma string_app_cons (x : ascii) (a b : string) :
  (String x a ++ b = String x (a ++ b))%string.
Proof. reflexivity. Qed.

Lemma string_app_assoc (a b c : string) :
  ((a ++ b) ++ c = a ++ (b ++ c))%string.
Proof.
  induction a as [|x a IH]; [reflexivity|].
  rewrite !string_app_cons, IH. reflexivity.
Qed.

Lemma string_app_nil_r (a : string) : (a ++ "" = a)%string.
Proof.
  induction a as [|x a IH]; [reflexivity|].
  rewrite string_app_cons, IH. reflexivity.
Qed.

Lemma has_slash_app (a b : string) :
  has_slash (a ++ b)%string = has_slash a || has_slash b.
Proof.
  induction a as [|x a IH]; [reflexivity|].
  rewrite string_app_cons. simpl. rewrite IH. rewrite orb_assoc. reflexivity.
Qed.

Lemma basename_from_no_slash (p acc : string) :
  has_slash acc = false -> has_slash (basename_from acc p) = false.
Proof.
  revert acc. induction p as [|c rest IH]; intros acc Hacc; simpl; [exact Hacc|].
  destruct (Ascii.eqb c "/"%char) eqn:Hc.
  - apply IH. reflexivity.
  - apply IH. rewrite has_slash_app. simpl. rewrite Hacc, Hc. reflexivity.
Qed.

Lemma basename_from_split (p acc : string) :
  exists dir,
    (acc ++ p = dir ++ basename_from acc p)%string
    /\ (dir = "" \/ exists d, dir = (d ++ "/")%string).
Proof.
  revert acc. induction p as [|c rest IH]; intros acc; simpl.
  - exists "". split; [rewrite string_app_nil_r; reflexivity|left; reflexivity].
  - destruct (Ascii.eqb_spec c "/"%char) as [->|Hc].
    + destruct (IH "") as (dir & Hsplit & Hdir).
      change ("" +:+ rest) with rest in Hsplit.
      exists (acc ++ "/" ++ dir)%string. split.
      * rewrite !string_app_assoc. rewrite <- Hsplit. reflexivity.
      * right. destruct Hdir as [->|[d ->]].
        -- exists acc. reflexivity.
        -- exists (acc ++ "/" ++ d)%string. rewrite !string_app_assoc. reflexivity.
    + destruct (IH (acc ++ String c "")%string) as (dir & Hsplit & Hdir).
      exists dir. split; [|exact Hdir].
      rewrite <- Hsplit. rewrite string_app_assoc. reflexivity.
Qed.

Lemma basename_from_plain (p acc : string) :
  has_slash p = false -> basename_from acc p = (acc ++ p)%string.
Proof.
  revert acc. induction p as [|c rest IH]; intros acc Hp; simpl.
  - rewrite string_app_nil_r. reflexivity.
  - simpl in Hp. apply orb_false_iff in Hp as [Hc Hrest]. rewrite Hc.
    rewrite (IH _ Hrest). rewrite string_app_assoc. reflexivity.
Qed.

(** X2. The file name a record carries is the last component of the
    path of the calling code: it contains no slash, the path is a
    directory prefix (empty or ending in a slash) followed by it, and a
    path without a slash is kept whole. *)
Theorem basename_is_last_component (p : string) :
  has_slash (basename p) = false
  /\ (exists dir, p = (dir ++ basename p)%string
                  /\ (dir = "" \/ exists d, dir = (d ++ "/")%string))
  /\ (has_slash p = false -> basename p = p).
Proof.
  unfold basename. split; [apply basename_from_no_slash; reflexivity|]. split.
  - destruct (basename_from_split p "") as (dir & Hsplit & Hdir).
    exists dir. split; [exact Hsplit|exact Hdir].
  - intros Hp. rewrite (basename_from_plain p "" Hp). reflexivity.
Qed.

Lemma basename_is_last_component_witness :
  has_slash "job.py" = false /\ basename "job.py" = "job.py".
Proof.
  split; [reflexivity|].
  exact (proj2 (proj2 (basename_is_last_component "job.py")) eq_refl).
Defined.

(** ** logger.py: what [_log] always puts in a record *)

Ltac special_keys_absurd H :=
  unfold special_keys in H;
  repeat (apply elem_of_cons in H as [H|H]; [discriminate|]);
  inversion H.

(** The level and the message of a record are those of the call. *)
Lemma _log_entry_level_message (env : call_env) (self : Logger) (lvl : LogLevel)
    (message : string) (exception : option pyexc)
    (context kwargs : gmap string value) :
  let record := _log_entry env self lvl message exception context kwargs in
  record !! "level" = Some (FStr (Level.name lvl))
  /\ record !! "message" = Some (FStr message).
Proof.
  intros record. subst record. unfold _log_entry.
  split.
  all: rewrite attach_exception_lookup by discriminate.
  all: match goal with
       | |- fold_left (promote ?m) _ ?e !! ?k = _ =>
           destruct (promote_fold m special_keys context_not_special e m
                       (lookup_insert_eq _ _ _)) as [_ Hother];
           rewrite (Hother k) by discriminate
       end.
  all: rewrite decide_False by (intros Hin; special_keys_absurd Hin).
  all: repeat (rewrite lookup_insert_ne by discriminate).
  all: apply lookup_insert_eq.
Qed.

(** X3. Whatever keys the logger context and the call fields use, the
    record keeps its own timestamp, level name, message, service,
    environment, version, host and logger name at the top level, and has
    an [exception] field exactly when the exception that was passed is
    true ([if exception:]): its type name, its message and its formatted
    traceback, the empty string when it has none.  With no exception,
    or one whose truth value is false, the record has no such field. *)
Theorem record_required_fields (env : call_env) (self : Logger) (lvl : LogLevel)
    (message : string) (exception : option pyexc)
    (context kwargs : gmap string value) :
  let record := _log_entry env self lvl message exception context kwargs in
  record !! "timestamp" = Some (FStr (now_isoformat env))
  /\ record !! "level" = Some (FStr (Level.name lvl))
  /\ record !! "message" = Some (FStr message)
  /\ record !! "service" = Some (FStr (Config.service_name (_config self)))
  /\ record !! "environment" = Some (FStr (Config.environment (_config self)))
  /\ record !! "version" = Some (FStr (Config.version (_config self)))
  /\ record !! "host" = Some (FStr (hostname env))
  /\ record !! "logger_name" = Some (FStr (_name self))
  /\ record !! "exception"
     = match exception with
       | Some x =>
           if exc_truth x then
             Some (FExc (exc_type x) (exc_message x)
                     (match exc_traceback x with Some t => t | None => "" end))
           else None
       | None => None
       end.
Proof.
  intros record. subst record. unfold _log_entry.
  repeat split.
  9: { destruct exception as [x|]; unfold attach_exception;
         [destruct (exc_truth x); [apply lookup_insert_eq|]|].
       all: match goal with
       | |- fold_left (promote ?m) _ ?e !! ?k = _ =>
           destruct (promote_fold m special_keys context_not_special e m
                       (lookup_insert_eq _ _ _)) as [_ Hother];
           rewrite (Hother k) by discriminate
       end.
       all: rewrite decide_False by (intros Hin; special_keys_absurd Hin).
       all: repeat (rewrite lookup_insert_ne by discriminate).
       all: apply lookup_empty. }
  all: rewrite attach_exception_lookup by discriminate.
  all: match goal with
       | |- fold_left (promote ?m) _ ?e !! ?k = _ =>
           destruct (promote_fold m special_keys context_not_special e m
                       (lookup_insert_eq _ _ _)) as [_ Hother];
           rewrite (Hother k) by discriminate
       end.
  all: rewrite decide_False by (intros Hin; special_keys_absurd Hin).
  all: repeat (rewrite lookup_insert_ne by discriminate).
  all: apply lookup_insert_eq.
Qed.

(** ** logger.py: the fan-out loop has no handler of its own *)

Section raising_handler.
Context {H : Type} `{Base.Handler H}.

(** X4. [_log] calls the handlers in order and catches nothing: when a
    handler's [emit] raises, the handlers before it have been given the
    record, that handler has been given it too, the handlers after it
    are not called, and the exception reaches the caller of the log
    method. *)
Theorem raising_handler_stops_fan_out
    (hp : heap) (env : call_env) (self : Logger) (lvl : LogLevel)
    (message : string) (exception : option pyexc)
    (kwargs context : gmap string value)
    (before after : list H) (bad bad' : H) (x : exn) :
  read_dict hp (_context self) = Some context ->
  Level.value (Config.level (_config self)) <= Level.value lvl ->
  Forall emit_returns before ->
  let record := _log_entry env self lvl message exception context kwargs in
  Base.emit record bad = (Raises x, bad') ->
  _log hp env self lvl message exception kwargs
       (watch <$> (before ++ bad :: after))
  = (Raises x,
     (hand_over record <$> (watch <$> before))
     ++ {| inner := bad'; received := [record] |} :: (watch <$> after)).
Proof.
  intros Hctx Hlevel Hbefore record Hbad.
  unfold _log. rewrite (proj2 (Z.ltb_ge _ _)) by exact Hlevel.
  rewrite Hctx. fold record. clear Hctx Hlevel.
  induction Hbefore as [|h hs Hh _ IH].
  - simpl. unfold on_inner, zoom. simpl. rewrite Hbad. reflexivity.
  - rewrite <- app_comm_cons. rewrite !fmap_cons. cbn [emit_all].
    rewrite IH. cbn. unfold on_inner, zoom. cbn.
    destruct (Hh record) as [h' Hemit]. unfold hand_over. cbn.
    rewrite Hemit. reflexivity.
Qed.
End raising_handler.

(** A handler whose [emit] raises while its output is unavailable: what
    a subclass of [Handler] without a try/except of its own does. *)
Module UnguardedHandler.
Record t : Type := { available : bool; written : list entry }.

Definition emit (e : entry) : M t unit :=
  fun s =>
    if available s
    then (Returns tt, {| available := true; written := written s ++ [e] |})
    else (Raises OSError, s).
Definition flush : M t unit := ret tt.
Definition close : M t unit := ret tt.

#[global] Instance handler : Base.Handler t :=
  {| Base.emit := emit; Base.flush := flush; Base.close := close |}.
End UnguardedHandler.

Lemma raising_handler_stops_fan_out_witness :
  let ok := {| UnguardedHandler.available := true; UnguardedHandler.written := [] |} in
  let bad := {| UnguardedHandler.available := false; UnguardedHandler.written := [] |} in
  let record := _log_entry sample_env (sample_logger INFO) ERROR "failed" None ∅ ∅ in
  read_dict sample_heap (_context (sample_logger INFO)) = Some ∅
  /\ Level.value (Config.level (_config (sample_logger INFO))) <= Level.value ERROR
  /\ Forall emit_returns [ok]
  /\ Base.emit record bad = (Raises OSError, bad)
  /\ _log sample_heap sample_env (sample_logger INFO) ERROR "failed" None ∅
          (watch <$> ([ok] ++ bad :: [ok]))
     = (Raises OSError,
        (hand_over record <$> (watch <$> [ok]))
        ++ {| inner := bad; received := [record] |} :: (watch <$> [ok])).
Proof.
  intros ok bad record.
  assert (read_dict sample_heap (_context (sample_logger INFO)) = Some ∅) as H1
    by reflexivity.
  assert (Level.value (Config.level (_config (sample_logger INFO)))
          <= Level.value ERROR) as H2 by (simpl; lia).
  assert (Forall emit_returns [ok]) as H3.
  { repeat constructor. intros e. eexists. reflexivity. }
  assert (Base.emit record bad = (Raises OSError, bad)) as H4 by reflexivity.
  repeat (split; [assumption|]).
  exact (raising_handler_stops_fan_out sample_heap sample_env (sample_logger INFO)
           ERROR "failed" None ∅ ∅ [ok] [ok] bad bad OSError H1 H2 H3 H4).
Defined.

(** ** logger.py: the public logging methods *)

Section public_methods.
Context {H : Type} `{Base.Handler H}.

(** Names of the parameters of [_log]: a field of that name is bound to
    the parameter, not passed on as context. *)
Definition parameter_names : list string :=
  ["self"; "level"; "message"; "exception"].

Lemma call__log_plain (hp : heap) (env : call_env) (self : Logger)
    (lvl : LogLevel) (message : string) (exception : option pyexc)
    (kwargs : gmap string value) :
  (forall k, k ∈ parameter_names -> kwargs !! k = None) ->
  call__log (H := watched H) hp env self lvl message exception ∅ kwargs
  = _log hp env self lvl message exception kwargs.
Proof.
  intros Hfree. unfold call__log.
  assert (forall k, k ∈ parameter_names -> k ∉ dom kwargs) as Hdom.
  { intros k Hk. apply not_elem_of_dom. apply Hfree. exact Hk. }
  rewrite bool_decide_eq_true_2.
  - rewrite (Hfree "exception")
      by (unfold parameter_names;
          repeat first [apply list_elem_of_here|apply list_elem_of_further]).
    rewrite (left_id_L ∅ (∪)). reflexivity.
  - split; [rewrite dom_empty_L; apply (left_absorb_L ∅ (∩))|].
    repeat split; apply Hdom; unfold parameter_names;
      repeat first [apply list_elem_of_here|apply list_elem_of_further].
Qed.

(** The call gives every handler one record at level [lvl] that names
    the frame [site]. *)
Definition logs_from (call : M (list (watched H)) unit) (lvl : LogLevel)
    (message : string) (site : frame) (ws : list (watched H)) : Prop :=
  exists record,
    call ws = (Returns tt, hand_over record <$> ws)
    /\ record !! "level" = Some (FStr (Level.name lvl))
    /\ record !! "message" = Some (FStr message)
    /\ record !! "file" = Some (FStr (basename (co_filename site)))
    /\ record !! "line" = Some (FInt (f_lineno site))
    /\ record !! "function" = Some (FStr (co_name site)).

Lemma _log_logs_from (hp : heap) (env : call_env) (self : Logger)
    (lvl : LogLevel) (message : string) (exception : option pyexc)
    (kwargs context : gmap string value) (method site : frame)
    (ws : list (watched H)) :
  read_dict hp (_context self) = Some context ->
  Level.value (Config.level (_config self)) <= Level.value lvl ->
  head (callers env) = Some site ->
  Forall (fun w => emit_returns (inner w)) ws ->
  logs_from (_log hp (entered method env) self lvl message exception kwargs)
    lvl message site ws.
Proof.
  intros Hctx Hlevel Hsite Hret.
  exists (_log_entry (entered method env) self lvl message exception context kwargs).
  split.
  { unfold _log. rewrite (proj2 (Z.ltb_ge _ _)) by exact Hlevel.
    rewrite Hctx. apply emit_all_watching. exact Hret. }
  destruct (_log_entry_level_message (entered method env) self lvl message
              exception context kwargs) as (Hl & Hm).
  split; [exact Hl|]. split; [exact Hm|].
  destruct (_log_entry_source (entered method env) self lvl message exception
              context kwargs) as (Hf & Hln & Hfn).
  destruct (callers env) as [|site' rest] eqn:Hcallers; [discriminate|].
  injection Hsite as ->.
  cbn [entered callers] in Hf, Hln, Hfn. rewrite Hcallers in Hf, Hln, Hfn.
  split; [exact Hf|]. split; [exact Hln|exact Hfn].
Qed.
End public_methods.

(** X5. A call of [debug], [info], [warning], [error] or [critical]
    that passes the level filter gives every handler one record at the
    level of the method, carrying the message and the file, line and
    function of the code that called the method: the frame of the
    method itself is skipped. *)
Theorem public_methods_log_from_caller {H : Type} `{Base.Handler H}
    (hp : heap) (env : call_env) (self : Logger) (message : string)
    (exception : option pyexc) (kwargs context : gmap string value)
    (site : frame) (ws : list (watched H)) :
  read_dict hp (_context self) = Some context ->
  (forall k, k ∈ parameter_names -> kwargs !! k = None) ->
  head (callers env) = Some site ->
  Forall (fun w => emit_returns (inner w)) ws ->
  let threshold := Level.value (Config.level (_config self)) in
  (threshold <= Level.value DEBUG ->
   logs_from (debug hp env self message kwargs) DEBUG message site ws)
  /\ (threshold <= Level.value INFO ->
      logs_from (info hp env self message kwargs) INFO message site ws)
  /\ (threshold <= Level.value WARNING ->
      logs_from (warning hp env self message kwargs) WARNING message site ws)
  /\ (threshold <= Level.value ERROR ->
      logs_from (error hp env self message exception kwargs) ERROR message site ws)
  /\ (threshold <= Level.value CRITICAL ->
      logs_from (critical hp env self message exception kwargs) CRITICAL message
        site ws).
Proof.
  intros Hctx Hfree Hsite Hret threshold.
  repeat split; intros Hlevel;
    unfold debug, info, warning, error, critical;
    rewrite call__log_plain by exact Hfree;
    eapply _log_logs_from; eassumption.
Qed.

Lemma public_methods_log_from_caller_witness :
  let site := {| co_filename := "/srv/app/main.py"; f_lineno := 12;
                 co_name := "handle" |} in
  let env := {| callers := [site];
                now_isoformat := now_isoformat sample_env;
                hostname := hostname sample_env |} in
  let ws := [watch ([] : CustomHandler.t)] in
  read_dict sample_heap (_context (sample_logger INFO)) = Some ∅
  /\ (forall k, k ∈ parameter_names -> (∅ : gmap string value) !! k = None)
  /\ head (callers env) = Some site
  /\ Forall (fun w => emit_returns (inner w)) ws
  /\ Level.value (Config.level (_config (sample_logger INFO))) <= Level.value WARNING
  /\ logs_from (warning sample_heap env (sample_logger INFO) "slow" ∅)
       WARNING "slow" site ws.
Proof.
  intros site env ws.
  assert (read_dict sample_heap (_context (sample_logger INFO)) = Some ∅) as H1
    by reflexivity.
  assert (forall k, k ∈ parameter_names -> (∅ : gmap string value) !! k = None)
    as H2 by (intros k _; apply lookup_empty).
  assert (head (callers env) = Some site) as H3 by reflexivity.
  assert (Forall (fun w => emit_returns (inner w)) ws) as H4.
  { repeat constructor. intros e. eexists. reflexivity. }
  assert (Level.value (Config.level (_config (sample_logger INFO)))
          <= Level.value WARNING) as H5 by (simpl; lia).
  repeat (split; [assumption|]).
  exact (proj1 (proj2 (proj2
           (public_methods_log_from_caller sample_heap env (sample_logger INFO)
              "slow" None ∅ ∅ site ws H1 H2 H3 H4))) H5).
Defined.

(** ** handlers/file.py *)

(** Successive [emit] calls on one handler. *)
Definition emit_in_turn {H : Type} `{Base.Handler H} (entries : list entry) (h : H)
  : H :=
  fold_left (fun h e => (Base.emit e h).2) entries h.

Section file_handler_props.
Context `{Formatter}.

(** The line a file handler writes for an entry. *)
Definition json_line (e : entry) : option string :=
  match format_json e with
  | inr json => Some (json ++ newline)%string
  | inl _ => None
  end.

Definition file_content (d : disk) (p : string) : string :=
  match files d !! p with Some c => c | None => "" end.

(** The handler is open on its path and its disk has no fault coming. *)
Definition file_ready (s : FileHandler.t) : Prop :=
  usable (FileHandler._file s)
  = Some {| opened_on := FileHandler.file_path s; closed := false |}
  /\ disk_faults (FileHandler.dev s) = [].

Lemma file_emit_ready (e : entry) (s : FileHandler.t) :
  file_ready s ->
  exists s',
    FileHandler.emit e s = (Returns tt, s')
    /\ file_ready s'
    /\ FileHandler.file_path s' = FileHandler.file_path s
    /\ files (FileHandler.dev s')
       = match json_line e with
         | Some text =>
             <[FileHandler.file_path s :=
                 (file_content (FileHandler.dev s) (FileHandler.file_path s)
                  ++ text)%string]> (files (FileHandler.dev s))
         | None => files (FileHandler.dev s)
         end.
Proof.
  intros [Hfile Hfaults]. destruct s as [p f [fs faults]].
  simpl in Hfile, Hfaults. subst faults.
  unfold FileHandler.emit, json_line, file_content, try_pass, try_except, bind,
    lift, gets.
  destruct (format_json e) as [x|json]; simpl.
  - eexists. split; [reflexivity|]. split; [split; [exact Hfile|reflexivity]|].
    split; reflexivity.
  - rewrite Hfile. simpl.
    eexists. split; [reflexivity|]. split; [split; [exact Hfile|reflexivity]|].
    split; reflexivity.
Qed.

(** X6. On a disk without faults, a file handler that is open appends
    to its file, in call order, one line per entry that the serializer
    accepts, and writes nothing else: an entry the serializer rejects is
    skipped silently and no other file changes. *)
Theorem file_handler_appends_lines (entries : list entry) (s : FileHandler.t) :
  file_ready s ->
  let s' := emit_in_turn entries s in
  let p := FileHandler.file_path s in
  file_content (FileHandler.dev s') p
  = (file_content (FileHandler.dev s) p
     ++ fold_right String.append "" (omap json_line entries))%string
  /\ (forall q, q <> p ->
        files (FileHandler.dev s') !! q = files (FileHandler.dev s) !! q)
  /\ file_ready s'.
Proof.
  revert s. induction entries as [|e rest IH]; intros s Hready.
  - cbn. rewrite string_app_nil_r.
    split; [reflexivity|]. split; [reflexivity|exact Hready].
  - destruct (file_emit_ready e s Hready) as (s1 & Hemit & Hready1 & Hpath & Hfiles).
    assert (emit_in_turn (e :: rest) s = emit_in_turn rest s1) as ->.
    { unfold emit_in_turn. cbn [fold_left].
      change (Base.emit e s) with (FileHandler.emit e s).
      rewrite Hemit. reflexivity. }
    destruct (IH s1 Hready1) as (Hcontent & Hother & Hready').
    cbn zeta in Hcontent, Hother |- *. rewrite Hpath in Hcontent, Hother.
    split; [|split; [|exact Hready']].
    + rewrite Hcontent. unfold file_content at 1. rewrite Hfiles.
      cbn [omap list_omap]. fold (omap json_line rest).
      destruct (json_line e) as [text|].
      * rewrite lookup_insert_eq. cbn [fold_right].
        rewrite string_app_assoc. reflexivity.
      * reflexivity.
    + intros q Hq. rewrite (Hother q Hq). rewrite Hfiles.
      destruct (json_line e) as [text|]; [|reflexivity].
      apply lookup_insert_ne. congruence.
Qed.

End file_handler_props.

Lemma file_handler_appends_lines_witness :
  let s := {| FileHandler.file_path := "logs/app.log";
              FileHandler._file :=
                Some {| opened_on := "logs/app.log"; closed := false |};
              FileHandler.dev :=
                {| files := {["logs/app.log" := "old" ++ newline]}%string;
                   disk_faults := [] |} |} in
  file_ready s
  /\ file_content
       (FileHandler.dev
          (emit_in_turn (H0 := @FileHandler.handler sample_formatter)
             [first_record; second_record] s))
       "logs/app.log"
     = ("old" ++ newline ++ "first" ++ newline ++ "second" ++ newline)%string.
Proof.
  intros s.
  assert (file_ready s) as Hready by (split; reflexivity).
  split; [exact Hready|].
  exact (proj1 (@file_handler_appends_lines sample_formatter
                  [first_record; second_record] s Hready)).
Defined.


(** ** handlers/async_handler.py: the overflow policies *)

Section async_policies.
Context {U : Type} `{Base.Handler U}.

Import AsyncHandler.

(** What [emit] does on a running handler, policy by policy. *)
Lemma emit_running (e : entry) (s : t U) :
  _stop s = false ->
  emit e s
  = if full s then
      match _on_full s with
      | DROP => (Returns tt, set_dropped_count (_dropped_count s + 1) s)
      | BLOCK => (Blocks, s)
      | FALLBACK =>
          let written := Base.emit e (_underlying_handler s) in
          (match written.1 with Blocks => Blocks | _ => Returns tt end,
           set_underlying written.2
             (set_dropped_count (_dropped_count s + 1) s))
      end
    else (Returns tt, set_queue (_queue s ++ [Some e]) s).
Proof.
  intros Hrun.
  unfold emit, bind, gets, try_pass, try_except, put, put_nowait, bind, gets,
    modify, on_underlying, zoom.
  simpl. rewrite Hrun.
  destruct (_on_full s), (full s); simpl; try reflexivity.
  destruct (Base.emit e (_underlying_handler s)) as [[[]|x|] u']; reflexivity.
Qed.

(** The queue holds no more than [maxsize] items. *)
Definition within_capacity (s : t U) : Prop :=
  (length (_queue s) <= Z.to_nat (maxsize s))%nat.

Lemma emit_within_capacity (e : entry) (s : t U) :
  0 < maxsize s -> within_capacity s ->
  within_capacity (emit e s).2 /\ maxsize (emit e s).2 = maxsize s.
Proof.
  intros Hpos Hcap. destruct (_stop s) eqn:Hstop.
  - unfold emit, bind, gets. simpl. rewrite Hstop. split; [exact Hcap|reflexivity].
  - rewrite (emit_running e s Hstop). unfold within_capacity in *.
    destruct (full s) eqn:Hfull.
    + destruct (_on_full s); simpl; split; try exact Hcap; reflexivity.
    + simpl. split; [|reflexivity]. rewrite length_app. simpl.
      unfold full in Hfull. apply andb_false_iff in Hfull as [Hf|Hf].
      * apply Z.ltb_ge in Hf. lia.
      * apply Z.leb_gt in Hf. lia.
Qed.

(** X7. A bounded queue stays bounded: whatever the overflow policy and
    whether or not the handler has been closed, no sequence of [emit]
    calls makes the queue hold more than [queue_size] entries. *)
Theorem queue_never_exceeds_capacity (entries : list entry) (s : t U) :
  0 < maxsize s -> within_capacity s ->
  within_capacity (emit_in_turn entries s).
Proof.
  revert s. induction entries as [|e rest IH]; intros s Hpos Hcap; [exact Hcap|].
  unfold emit_in_turn. cbn [fold_left].
  change (Base.emit e s) with (emit e s).
  destruct (emit_within_capacity e s Hpos Hcap) as [Hcap' Hmax].
  apply IH; [rewrite Hmax; exact Hpos|exact Hcap'].
Qed.

(** X8. Under the block policy no record is discarded: on a running
    handler [emit] either appends the record to the queue and returns,
    or, the queue being full, suspends the caller and changes nothing;
    the dropped counter never moves. *)
Theorem block_policy_never_drops (e : entry) (s : t U) :
  _on_full s = BLOCK -> _stop s = false ->
  (full s = false /\ emit e s = (Returns tt, set_queue (_queue s ++ [Some e]) s)
   \/ full s = true /\ emit e s = (Blocks, s))
  /\ _dropped_count (emit e s).2 = _dropped_count s.
Proof.
  intros Hpolicy Hrun. rewrite (emit_running e s Hrun), Hpolicy.
  destruct (full s); simpl; split; auto.
Qed.

(** X9. A queue created with [queue_size <= 0] is unbounded: on a
    running handler every [emit] returns with the record appended to the
    queue, under every policy; nothing is dropped and the wrapped
    handler is not touched. *)
Theorem unbounded_queue_takes_everything (entries : list entry) (s : t U) :
  maxsize s <= 0 -> _stop s = false ->
  let s' := emit_in_turn entries s in
  _queue s' = _queue s ++ (Some <$> entries)
  /\ _dropped_count s' = _dropped_count s
  /\ _underlying_handler s' = _underlying_handler s.
Proof.
  revert s. induction entries as [|e rest IH]; intros s Hmax Hrun.
  - cbn. rewrite app_nil_r. repeat split.
  - unfold emit_in_turn. cbn [fold_left].
    change (Base.emit e s) with (emit e s).
    rewrite (emit_running e s Hrun).
    assert (full s = false) as ->.
    { unfold full. rewrite (proj2 (Z.ltb_ge 0 (maxsize s))) by exact Hmax.
      reflexivity. }
    cbn [snd].
    destruct (IH (set_queue (_queue s ++ [Some e]) s) Hmax Hrun)
      as (Hq & Hd & Hu).
    unfold emit_in_turn in Hq, Hd, Hu. cbn zeta in Hq, Hd, Hu.
    rewrite Hq, Hd, Hu. simpl. rewrite <- app_assoc. repeat split.
Qed.
End async_policies.

Lemma queue_never_exceeds_capacity_witness :
  let s := AsyncHandler.__init__ ([] : CustomHandler.t) 2 AsyncHandler.FALLBACK
             100 [] in
  0 < AsyncHandler.maxsize s
  /\ within_capacity s
  /\ within_capacity
       (emit_in_turn [first_record; second_record; rotated_record] s).
Proof.
  intros s.
  assert (0 < AsyncHandler.maxsize s) as Hpos by (simpl; lia).
  assert (within_capacity s) as Hcap by (unfold within_capacity; simpl; lia).
  split; [exact Hpos|]. split; [exact Hcap|].
  exact (queue_never_exceeds_capacity
           [first_record; second_record; rotated_record] s Hpos Hcap).
Defined.

Lemma block_policy_never_drops_witness :
  let s := AsyncHandler.__init__ ([] : CustomHandler.t) 1 AsyncHandler.BLOCK
             100 [] in
  let s1 := (AsyncHandler.emit first_record s).2 in
  AsyncHandler._on_full s1 = AsyncHandler.BLOCK
  /\ AsyncHandler._stop s1 = false
  /\ AsyncHandler.emit second_record s1 = (Blocks, s1)
  /\ AsyncHandler._dropped_count (AsyncHandler.emit second_record s1).2 = 0.
Proof.
  intros s s1.
  assert (AsyncHandler._on_full s1 = AsyncHandler.BLOCK) as H1 by reflexivity.
  assert (AsyncHandler._stop s1 = false) as H2 by reflexivity.
  split; [exact H1|]. split; [exact H2|].
  destruct (block_policy_never_drops second_record s1 H1 H2) as [Hcase Hcount].
  split; [|exact Hcount].
  destruct Hcase as [[Hfull _]|[_ Hblocks]]; [discriminate Hfull|exact Hblocks].
Defined.

Lemma unbounded_queue_takes_everything_witness :
  let s := AsyncHandler.__init__ ([] : CustomHandler.t) 0 AsyncHandler.DROP
             100 [] in
  AsyncHandler.maxsize s <= 0
  /\ AsyncHandler._stop s = false
  /\ AsyncHandler._queue (emit_in_turn [first_record; second_record] s)
     = [Some first_record; Some second_record]
  /\ AsyncHandler._dropped_count (emit_in_turn [first_record; second_record] s)
     = 0.
Proof.
  intros s.
  assert (AsyncHandler.maxsize s <= 0) as H1 by (simpl; lia).
  assert (AsyncHandler._stop s = false) as H2 by reflexivity.
  split; [exact H1|]. split; [exact H2|].
  destruct (unbounded_queue_takes_everything [first_record; second_record] s H1 H2)
    as (Hq & Hd & _).
  split; [exact Hq|exact Hd].
Defined.

(** ** handlers/async_handler.py: fallback writes and the worker *)

Section async_observed.
Context {V : Type} `{Base.Handler V}.

Import AsyncHandler.

(** The wrapped handler's [emit] always returns. *)
Definition always_returns : Prop :=
  forall (v : V) (e : entry), exists v', Base.emit e v = (Returns tt, v').

(** X10. Under the fallback policy a record is never lost and the call
    never raises: on a running handler [emit] appends the record to the
    queue when there is room, and otherwise counts it as dropped and
    hands it to the wrapped handler on the calling thread, leaving the
    queue as it is, even when the wrapped handler's own [emit] raises. *)
Theorem fallback_policy_writes_through (e : entry) (s : t (watched V)) :
  _on_full s = FALLBACK -> _stop s = false ->
  let s' := (emit e s).2 in
  (forall x, (emit e s).1 <> Raises x)
  /\ (full s = false ->
      emit e s = (Returns tt, set_queue (_queue s ++ [Some e]) s))
  /\ (full s = true ->
      _queue s' = _queue s
      /\ _dropped_count s' = _dropped_count s + 1
      /\ received (_underlying_handler s')
         = received (_underlying_handler s) ++ [e]).
Proof.
  intros Hpolicy Hrun. rewrite (emit_running e s Hrun), Hpolicy.
  destruct (full s); cbn zeta.
  - split; [|split; [discriminate|]].
    + intros x. cbn [fst].
      destruct (Base.emit e (_underlying_handler s)).1; discriminate.
    + intros _. cbn [snd]. repeat split.
      cbn. unfold on_inner, zoom. cbn.
      destruct (Base.emit e (inner (_underlying_handler s))); reflexivity.
  - split; [discriminate|]. split; [reflexivity|discriminate].
Qed.

Lemma flush_batch_delivers (b : list entry) (s : t (watched V)) :
  always_returns ->
  exists u,
    _flush_batch b s = (Returns tt, set_underlying u s)
    /\ received u = received (_underlying_handler s) ++ b.
Proof.
  intros Htotal. revert s. induction b as [|e rest IH]; intros s.
  - exists (_underlying_handler s). split; [|rewrite app_nil_r; reflexivity].
    destruct s; reflexivity.
  - cbn [_flush_batch]. unfold bind at 1, try_except, on_underlying, zoom.
    cbn [Base.emit watched_handler]. unfold on_inner, zoom. cbn [inner received].
    destruct (Htotal (inner (_underlying_handler s)) e) as [v' Hv]. rewrite Hv.
    destruct (IH (set_underlying
                    {| inner := v';
                       received := received (_underlying_handler s) ++ [e] |} s))
      as (u & Hflush & Hrec).
    exists u. split.
    + rewrite Hflush. destruct s; reflexivity.
    + rewrite Hrec. cbn. rewrite <- app_assoc. reflexivity.
Qed.

(** Records in the order they will reach, or have reached, the wrapped
    handler: delivered, then batched, then queued. *)
Definition in_flight (s : t (watched V)) (pending : list entry) : list entry :=
  received (_underlying_handler s) ++ batch s ++ pending.

Lemma loop_body_conserves (timed_out : bool) (s : t (watched V))
    (pending : list entry) :
  always_returns ->
  _queue s = Some <$> pending ->
  exists s1 pending1,
    loop_body timed_out s = (Returns true, s1)
    /\ _queue s1 = Some <$> pending1
    /\ in_flight s1 pending1 = in_flight s pending
    /\ _stop s1 = _stop s
    /\ _thread s1 = _thread s
    /\ _dropped_count s1 = _dropped_count s.
Proof.
  intros Htotal Hq. unfold in_flight.
  destruct s as [u q mx pol size stop dropped b th jn err].
  cbn in Hq. subst q.
  destruct pending as [|e rest].
  - unfold loop_body, try_except, bind, get, gets. cbn.
    destruct ((size <=? Z.of_nat (length b)) || nonempty b && timed_out)
      eqn:Hshould; cbn.
    + destruct (nonempty b) eqn:Hb; cbn.
      * match goal with
        | |- context [_flush_batch b ?st] =>
            destruct (flush_batch_delivers b st Htotal) as (u' & Hflush & Hrec)
        end.
        rewrite Hflush. cbn.
        eexists. exists []. split; [reflexivity|]. cbn.
        split; [reflexivity|]. cbn in Hrec. rewrite Hrec.
        rewrite !app_nil_r. repeat split.
      * eexists. exists []. split; [reflexivity|]. cbn. repeat split.
    + eexists. exists []. split; [reflexivity|]. cbn. repeat split.
  - unfold loop_body, try_except, bind, get, gets, modify. cbn.
    assert (nonempty (b ++ [e]) = true) as Hne by (destruct b; reflexivity).
    rewrite Hne.
    destruct ((size <=? Z.of_nat (length (b ++ [e]))) || true && timed_out)
      eqn:Hshould; cbn.
    + match goal with
      | |- context [_flush_batch (b ++ [e]) ?st] =>
          destruct (flush_batch_delivers (b ++ [e]) st Htotal)
            as (u' & Hflush & Hrec)
      end.
      rewrite Hflush. cbn.
      eexists. exists rest. split; [reflexivity|]. cbn.
      split; [reflexivity|]. cbn in Hrec. rewrite Hrec.
      rewrite <- !app_assoc. repeat split.
    + eexists. exists rest. split; [reflexivity|]. cbn.
      split; [reflexivity|]. rewrite <- !app_assoc. repeat split.
Qed.

Lemma turn_returns (timed_out go_on : bool) (s s1 : t (watched V)) :
  loop_body timed_out s = (Returns go_on, s1) ->
  turn timed_out s = (Returns go_on, s1).
Proof. intros Hbody. unfold turn, try_except. rewrite Hbody. reflexivity. Qed.

(** X11. While the handler is running, the worker neither loses,
    duplicates nor reorders records: however many turns of its loop it
    runs, the records already delivered to the wrapped handler, followed
    by those in its batch and those still queued, form the same
    sequence as before; it does not exit and does not touch the dropped
    counter. *)
Theorem worker_keeps_order_and_content (schedule : list bool)
    (s : t (watched V)) (pending : list entry) :
  always_returns ->
  _stop s = false ->
  _thread s <> Exited ->
  _queue s = Some <$> pending ->
  exists s' pending',
    _process_queue schedule s = (Returns tt, s')
    /\ _queue s' = Some <$> pending'
    /\ in_flight s' pending' = in_flight s pending
    /\ _stop s' = false
    /\ _thread s' <> Exited
    /\ _dropped_count s' = _dropped_count s.
Proof.
  intros Htotal. revert s pending.
  induction schedule as [|timed_out later IH]; intros s pending Hrun Hth Hq.
  - exists s, pending. repeat split; assumption.
  - destruct (loop_body_conserves timed_out s pending Htotal Hq)
      as (s1 & pending1 & Hbody & Hq1 & Hflight & Hstop1 & Hth1 & Hd1).
    cbn [_process_queue]. unfold bind at 1, gets. cbn [fst snd].
    change (id s) with s.
    destruct (_thread s) eqn:Hthread; [| |congruence].
    + rewrite Hrun. unfold bind. rewrite (turn_returns _ _ _ _ Hbody).
      destruct (IH s1 pending1) as (s' & pending' & Hrest & Hq' & Hf' & Hs' & Ht' & Hd');
        [congruence|congruence|exact Hq1|].
      exists s', pending'. split; [exact Hrest|].
      split; [exact Hq'|]. split; [congruence|]. split; [exact Hs'|].
      split; [exact Ht'|congruence].
    + unfold bind. rewrite (turn_returns _ _ _ _ Hbody). unfold modify. cbn.
      destruct (IH (set_thread AtLoopHead s1) pending1)
        as (s' & pending' & Hrest & Hq' & Hf' & Hs' & Ht' & Hd').
      * destruct s1; cbn in *; congruence.
      * destruct s1; cbn; discriminate.
      * destruct s1; cbn in *; exact Hq1.
      * exists s', pending'. split; [exact Hrest|].
        split; [exact Hq'|]. split.
        { rewrite Hf'. rewrite <- Hflight. destruct s1; reflexivity. }
        split; [exact Hs'|]. split; [exact Ht'|].
        rewrite Hd'. rewrite <- Hd1. destruct s1; reflexivity.
Qed.
End async_observed.

Lemma custom_handler_always_returns : always_returns (V := CustomHandler.t).
Proof. intros v e. eexists. reflexivity. Qed.

Lemma fallback_policy_writes_through_witness :
  let s := (AsyncHandler.emit first_record
              (AsyncHandler.__init__ (watch ([] : CustomHandler.t)) 1
                 AsyncHandler.FALLBACK 100 [])).2 in
  let s' := (AsyncHandler.emit second_record s).2 in
  AsyncHandler._on_full s = AsyncHandler.FALLBACK
  /\ AsyncHandler._stop s = false
  /\ AsyncHandler.full s = true
  /\ AsyncHandler._queue s' = [Some first_record]
  /\ AsyncHandler._dropped_count s' = 1
  /\ received (AsyncHandler._underlying_handler s') = [second_record].
Proof.
  intros s s'.
  assert (AsyncHandler._on_full s = AsyncHandler.FALLBACK) as H1 by reflexivity.
  assert (AsyncHandler._stop s = false) as H2 by reflexivity.
  assert (AsyncHandler.full s = true) as H3 by reflexivity.
  repeat (split; [assumption|]).
  exact (proj2 (proj2 (fallback_policy_writes_through second_record s H1 H2)) H3).
Defined.

Lemma worker_keeps_order_and_content_witness :
  let s := emit_in_turn [first_record; second_record]
             (AsyncHandler.__init__ (watch ([] : CustomHandler.t)) 10
                AsyncHandler.DROP 100 []) in
  always_returns (V := CustomHandler.t)
  /\ AsyncHandler._stop s = false
  /\ AsyncHandler._thread s <> AsyncHandler.Exited
  /\ AsyncHandler._queue s = Some <$> [first_record; second_record]
  /\ exists s' pending',
      AsyncHandler._process_queue [false; true; false] s = (Returns tt, s')
      /\ AsyncHandler._queue s' = Some <$> pending'
      /\ in_flight s' pending' = in_flight s [first_record; second_record]
      /\ AsyncHandler._stop s' = false
      /\ AsyncHandler._thread s' <> AsyncHandler.Exited
      /\ AsyncHandler._dropped_count s' = AsyncHandler._dropped_count s.
Proof.
  intros s.
  assert (AsyncHandler._stop s = false) as H2 by reflexivity.
  assert (AsyncHandler._thread s <> AsyncHandler.Exited) as H3 by discriminate.
  assert (AsyncHandler._queue s = Some <$> [first_record; second_record]) as H4
    by reflexivity.
  split; [exact custom_handler_always_returns|].
  repeat (split; [assumption|]).
  exact (worker_keeps_order_and_content [false; true; false] s
           [first_record; second_record] custom_handler_always_returns H2 H3 H4).
Defined.

(** ** handlers/rotating.py *)

Lemma string_length_app (a b : string) :
  String.length (a ++ b)%string = (String.length a + String.length b)%nat.
Proof.
  induction a as [|x a IH]; [reflexivity|].
  rewrite string_app_cons. simpl. rewrite IH. reflexivity.
Qed.

Lemma numbered_ne_path (p : string) (i : Z) : numbered p i <> p.
Proof.
  unfold numbered. intros Heq.
  apply (f_equal String.length) in Heq.
  rewrite !string_length_app in Heq. simpl in Heq. lia.
Qed.

Lemma numbered_inj (p : string) (i j : Z) : numbered p i = numbered p j -> i = j.
Proof.
  unfold numbered. intros Heq.
  apply (inj (String.app p)) in Heq.
  apply (inj (String.app ".")) in Heq.
  apply (inj pretty) in Heq. exact Heq.
Qed.

Section rotating_props.
Context `{Formatter}.

Import RotatingFileHandler.

(** The handler is open on its path, which holds [content], and its
    disk has no fault coming. *)
Definition rotating_ready (s : t) (content : string) : Prop :=
  usable (_file s) = Some {| opened_on := file_path s; closed := false |}
  /\ disk_faults (dev s) = []
  /\ files (dev s) !! file_path s = Some content.

(** Paths that a rotation may touch: the log file and its numbered
    backups. *)
Definition rotation_path (p q : string) : Prop :=
  q = p \/ exists i, q = numbered p i.

Lemma shift_backup_fault_free (p : string) (i : Z) (mb n sz : Z)
    (f : option pyfile) (fs : gmap string string) :
  exists fs',
    shift_backup p i
      {| file_path := p; max_bytes := mb; backup_count := n; _file := f;
         _current_size := sz; dev := {| files := fs; disk_faults := [] |} |}
    = (Returns tt,
       {| file_path := p; max_bytes := mb; backup_count := n; _file := f;
          _current_size := sz; dev := {| files := fs'; disk_faults := [] |} |})
    /\ fs' !! p = fs !! p
    /\ (forall q, ~ rotation_path p q -> fs' !! q = fs !! q)
    /\ fs' !! numbered p (i + 1)
       = match fs !! numbered p i with
         | Some c => Some c
         | None => fs !! numbered p (i + 1)
         end
    /\ fs' !! numbered p i = None
    /\ (forall j, j <> i -> j <> i + 1 -> fs' !! numbered p j = fs !! numbered p j).
Proof.
  assert (numbered p i <> numbered p (i + 1)) as Hne
    by (intros Heq; apply numbered_inj in Heq; lia).
  unfold shift_backup, bind, on_dev, zoom, path_exists, gets, unlink, rename,
    disk_io, ret. cbn.
  destruct (fs !! numbered p i) as [c|] eqn:Hsrc; cbn.
  - destruct (fs !! numbered p (i + 1)) as [c'|] eqn:Hdst; cbn.
    + rewrite Hdst. cbn. rewrite lookup_delete_ne by congruence.
      rewrite Hsrc. cbn. eexists. split; [reflexivity|].
      split; [|split; [|split; [|split]]].
      * rewrite lookup_insert_ne by apply numbered_ne_path.
        rewrite !lookup_delete_ne by apply numbered_ne_path.
        reflexivity.
      * intros q Hq.
        rewrite lookup_insert_ne by (intros <-; apply Hq; right; eauto).
        rewrite !lookup_delete_ne by (intros <-; apply Hq; right; eauto).
        reflexivity.
      * apply lookup_insert_eq.
      * rewrite lookup_insert_ne by congruence.
        apply lookup_delete_eq.
      * intros j Hj1 Hj2.
        rewrite lookup_insert_ne by (intros Heq; apply numbered_inj in Heq; lia).
        rewrite !lookup_delete_ne by (intros Heq; apply numbered_inj in Heq; lia).
        reflexivity.
    + rewrite Hsrc. cbn. eexists. split; [reflexivity|].
      split; [|split; [|split; [|split]]].
      * rewrite lookup_insert_ne by apply numbered_ne_path.
        rewrite !lookup_delete_ne by apply numbered_ne_path.
        reflexivity.
      * intros q Hq.
        rewrite lookup_insert_ne by (intros <-; apply Hq; right; eauto).
        rewrite !lookup_delete_ne by (intros <-; apply Hq; right; eauto).
        reflexivity.
      * apply lookup_insert_eq.
      * rewrite lookup_insert_ne by congruence.
        apply lookup_delete_eq.
      * intros j Hj1 Hj2.
        rewrite lookup_insert_ne by (intros Heq; apply numbered_inj in Heq; lia).
        rewrite !lookup_delete_ne by (intros Heq; apply numbered_inj in Heq; lia).
        reflexivity.
  - eexists. split; [reflexivity|]. repeat split; try reflexivity.
    exact Hsrc.
Qed.

Lemma range_down_to_1_succ (m : nat) :
  range_down_to_1 (Z.of_nat (S m))
  = Z.of_nat (S m) :: range_down_to_1 (Z.of_nat m).
Proof.
  unfold range_down_to_1. rewrite !Nat2Z.id.
  rewrite seq_S. rewrite map_app, rev_app_distr. reflexivity.
Qed.

(** What the backup loop makes of the file map [fs] when it runs over
    the indices [m], [m-1], ..., [1]. *)
Definition shifted (p : string) (m : nat) (fs fs' : gmap string string) : Prop :=
  fs' !! p = fs !! p
  /\ (forall q, ~ rotation_path p q -> fs' !! q = fs !! q)
  /\ (forall j, 2 <= j <= Z.of_nat m ->
        fs' !! numbered p j = fs !! numbered p (j - 1))
  /\ ((1 <= m)%nat ->
      fs' !! numbered p 1 = None
      /\ fs' !! numbered p (Z.of_nat m + 1)
         = match fs !! numbered p (Z.of_nat m) with
           | Some c => Some c
           | None => fs !! numbered p (Z.of_nat m + 1)
           end)
  /\ (forall j, j < 1 \/ Z.of_nat m + 1 < j ->
        fs' !! numbered p j = fs !! numbered p j).

Lemma shift_backups_fault_free (p : string) (m : nat) (mb n sz : Z)
    (f : option pyfile) (fs : gmap string string) :
  exists fs',
    shift_backups p (range_down_to_1 (Z.of_nat m))
      {| file_path := p; max_bytes := mb; backup_count := n; _file := f;
         _current_size := sz; dev := {| files := fs; disk_faults := [] |} |}
    = (Returns tt,
       {| file_path := p; max_bytes := mb; backup_count := n; _file := f;
          _current_size := sz; dev := {| files := fs'; disk_faults := [] |} |})
    /\ shifted p m fs fs'.
Proof.
  revert fs. induction m as [|m IH]; intros fs.
  - exists fs. split; [reflexivity|]. unfold shifted.
    split; [reflexivity|]. split; [reflexivity|].
    split; [intros j Hj; simpl in Hj; lia|].
    split; [intros Hm; lia|reflexivity].
  - rewrite range_down_to_1_succ. cbn [shift_backups]. unfold bind at 1.
    destruct (shift_backup_fault_free p (Z.of_nat (S m)) mb n sz f fs)
      as (fs1 & Hstep & Hp1 & Hframe1 & Hdst1 & Hsrc1 & Hother1).
    rewrite Hstep.
    destruct (IH fs1) as (fs' & Hrest & Hp & Hframe & Hmid & Hends & Hout).
    exists fs'. split; [exact Hrest|]. unfold shifted.
    split; [rewrite Hp; exact Hp1|].
    split; [intros q Hq; rewrite (Hframe q Hq); exact (Hframe1 q Hq)|].
    split; [|split].
    + intros j Hj.
      destruct (decide (j = Z.of_nat (S m))) as [->|Hjm].
      * destruct m as [|m'].
        -- simpl in Hj. lia.
        -- destruct (Hends ltac:(lia)) as [_ Htop].
           replace (Z.of_nat (S (S m'))) with (Z.of_nat (S m') + 1) by lia.
           rewrite Htop.
           replace (Z.of_nat (S m') + 1 - 1) with (Z.of_nat (S m')) by lia.
           rewrite (Hother1 (Z.of_nat (S m'))) by lia.
           destruct (fs !! numbered p (Z.of_nat (S m'))); [reflexivity|].
           replace (Z.of_nat (S m') + 1) with (Z.of_nat (S (S m'))) by lia.
           exact Hsrc1.
      * rewrite (Hmid j) by lia. apply Hother1; lia.
    + intros _. split.
      * destruct m as [|m'].
        -- cbn in Hrest. injection Hrest as <-. exact Hsrc1.
        -- apply (Hends ltac:(lia)).
      * rewrite (Hout (Z.of_nat (S m) + 1)) by lia. exact Hdst1.
    + intros j Hj. rewrite (Hout j) by lia. apply Hother1; lia.
Qed.
Lemma range_down_to_1_to_nat (start : Z) :
  range_down_to_1 start = range_down_to_1 (Z.of_nat (Z.to_nat start)).
Proof. unfold range_down_to_1. rewrite Nat2Z.id. reflexivity. Qed.

Lemma usable_open (f : option pyfile) (p : string) :
  usable f = Some {| opened_on := p; closed := false |} ->
  f = Some {| opened_on := p; closed := false |}.
Proof.
  destruct f as [[q [|]]|]; simpl; intros Hf; try discriminate. exact Hf.
Qed.

Lemma bind_returns {S A B} (m : M S A) (k : A -> M S B) (s : S) (a : A) (s1 : S) :
  m s = (Returns a, s1) -> bind m k s = k a s1.
Proof. unfold bind. intros ->. reflexivity. Qed.

(** The outcome of a rotation on a fault-free disk. *)
Lemma do_rotate_fault_free (s : t) (content : string) :
  rotating_ready s content ->
  exists s' fs1,
    _do_rotate s = (Returns tt, s')
    /\ rotating_ready s' ""
    /\ _current_size s' = 0
    /\ file_path s' = file_path s
    /\ max_bytes s' = max_bytes s
    /\ backup_count s' = backup_count s
    /\ shifted (file_path s) (Z.to_nat (backup_count s - 1)) (files (dev s)) fs1
    /\ files (dev s') !! numbered (file_path s) 1 = Some content
    /\ (forall j, j <> 1 ->
          files (dev s') !! numbered (file_path s) j
          = fs1 !! numbered (file_path s) j)
    /\ (forall q, ~ rotation_path (file_path s) q ->
          files (dev s') !! q = files (dev s) !! q).
Proof.
  intros (Hfile & Hfaults & Hcontent).
  destruct s as [p mb n f sz [fs faults]]. cbn in Hfile, Hfaults, Hcontent.
  subst faults. apply usable_open in Hfile. subst f.
  destruct (shift_backups_fault_free p (Z.to_nat (n - 1)) mb n sz
              (Some {| opened_on := p; closed := true |}) fs)
    as (fs1 & Hshift & Hshifted).
  pose proof Hshifted as (Hp1 & Hframe1 & _).
  assert (numbered p 1 <> p) as Hne by apply numbered_ne_path.
  pose (st := fun (f : option pyfile) (sz : Z) (fs : gmap string string) =>
    {| file_path := p; max_bytes := mb; backup_count := n; _file := f;
       _current_size := sz; dev := {| files := fs; disk_faults := [] |} |}).
  pose (op := {| opened_on := p; closed := false |}).
  pose (fs2 := <[numbered p 1 := content]> (delete p (delete (numbered p 1) fs1))).
  pose (fs3 := <[p := ""]> fs2).
  exists (st (Some op) 0 fs3), fs1.
  split.
  { unfold _do_rotate.
    rewrite (bind_returns _ _ _ (Some op) (st (Some op) sz fs)) by reflexivity.
    rewrite (bind_returns _ _ _ tt (st (Some (mark_closed op)) sz fs))
      by reflexivity.
    rewrite (bind_returns _ _ _ p (st (Some (mark_closed op)) sz fs))
      by reflexivity.
    rewrite (bind_returns _ _ _ n (st (Some (mark_closed op)) sz fs))
      by reflexivity.
    rewrite range_down_to_1_to_nat.
    rewrite (bind_returns _ _ _ tt (st (Some (mark_closed op)) sz fs1))
      by exact Hshift.
    rewrite (bind_returns _ _ _ true (st (Some (mark_closed op)) sz fs1)).
    2:{ unfold on_dev, zoom, path_exists, gets. cbn.
        rewrite Hp1, Hcontent. reflexivity. }
    rewrite (bind_returns _ _ _ tt (st (Some (mark_closed op)) sz fs2)).
    2:{ cbv zeta.
        destruct (fs1 !! numbered p 1) as [old|] eqn:Hold.
        - rewrite (bind_returns _ _ _ true (st (Some (mark_closed op)) sz fs1)).
          2:{ unfold on_dev, zoom, path_exists, gets. cbn.
              rewrite Hold. reflexivity. }
          rewrite (bind_returns _ _ _ tt
                     (st (Some (mark_closed op)) sz (delete (numbered p 1) fs1))).
          2:{ unfold on_dev, zoom, unlink, disk_io. cbn.
              rewrite Hold. reflexivity. }
          unfold on_dev, zoom, rename, disk_io. cbn.
          rewrite lookup_delete_ne by exact Hne. rewrite Hp1, Hcontent.
          reflexivity.
        - rewrite (bind_returns _ _ _ false (st (Some (mark_closed op)) sz fs1)).
          2:{ unfold on_dev, zoom, path_exists, gets. cbn.
              rewrite Hold. reflexivity. }
          rewrite (bind_returns _ _ _ tt (st (Some (mark_closed op)) sz fs1))
            by reflexivity.
          unfold on_dev, zoom, rename, disk_io. cbn.
          rewrite Hp1, Hcontent. unfold fs2.
          rewrite (delete_id fs1 (numbered p 1)) by exact Hold.
          reflexivity. }
    rewrite (bind_returns _ _ _ tt (st (Some (mark_closed op)) 0 fs2))
      by reflexivity.
    rewrite (bind_returns _ _ _ op (st (Some (mark_closed op)) 0 fs3)).
    2:{ unfold on_dev, zoom, open_append, disk_io. cbn. unfold fs2.
        rewrite lookup_insert_ne by exact Hne. rewrite lookup_delete_eq.
        reflexivity. }
    reflexivity. }
  cbn.
  split; [split; [reflexivity|split; [reflexivity|apply lookup_insert_eq]]|].
  do 4 (split; [reflexivity|]). split; [exact Hshifted|]. unfold fs3, fs2.
  split; [|split].
  - rewrite lookup_insert_ne by congruence. apply lookup_insert_eq.
  - intros j Hj.
    rewrite lookup_insert_ne by apply not_eq_sym, numbered_ne_path.
    rewrite lookup_insert_ne by (intros Heq; apply numbered_inj in Heq; lia).
    rewrite lookup_delete_ne by apply not_eq_sym, numbered_ne_path.
    rewrite lookup_delete_ne by (intros Heq; apply numbered_inj in Heq; lia).
    reflexivity.
  - intros q Hq.
    rewrite lookup_insert_ne by (intros <-; apply Hq; left; reflexivity).
    rewrite lookup_insert_ne by (intros <-; apply Hq; right; eauto).
    rewrite lookup_delete_ne by (intros <-; apply Hq; left; reflexivity).
    rewrite lookup_delete_ne by (intros <-; apply Hq; right; eauto).
    apply Hframe1. exact Hq.
Qed.
Lemma try_pass_returns {S} (body : M S unit) (s s1 : S) :
  body s = (Returns tt, s1) -> try_pass body s = (Returns tt, s1).
Proof. unfold try_pass, try_except. intros ->. reflexivity. Qed.

(** The write half of [emit] on a fault-free disk. *)
Lemma write_fault_free (s : t) (content output : string) :
  rotating_ready s content ->
  (f <- gets _file ;;
   match usable f with
   | Some o =>
       on_dev (file_write o output) ;;;
       on_dev (file_flush o) ;;;
       size <- gets _current_size ;;
       set_current_size (size + Z.of_nat (String.length output))
   | None => ret tt
   end) s
  = (Returns tt,
     {| file_path := file_path s; max_bytes := max_bytes s;
        backup_count := backup_count s; _file := _file s;
        _current_size := _current_size s + Z.of_nat (String.length output);
        dev := {| files := <[file_path s := (content ++ output)%string]>
                             (files (dev s));
                  disk_faults := [] |} |}).
Proof.
  intros (Hfile & Hfaults & Hcontent).
  destruct s as [p mb n f sz [fs faults]]. cbn in Hfile, Hfaults, Hcontent.
  subst faults. apply usable_open in Hfile. subst f.
  unfold bind, gets, on_dev, zoom, file_write, file_flush, disk_io,
    set_current_size, modify. cbn. rewrite Hcontent. reflexivity.
Qed.

(** One [emit] on a handler that is open on a fault-free disk. *)
Lemma rotating_emit_ready (e : entry) (s : t) (content : string) :
  rotating_ready s content ->
  exists s',
    emit e s = (Returns tt, s')
    /\ file_path s' = file_path s
    /\ max_bytes s' = max_bytes s
    /\ backup_count s' = backup_count s
    /\ match json_line e with
       | None => s' = s
       | Some output =>
           let size := Z.of_nat (String.length output) in
           if _should_rotate s size then
             exists fs1,
               rotating_ready s' output
               /\ _current_size s' = size
               /\ shifted (file_path s) (Z.to_nat (backup_count s - 1))
                    (files (dev s)) fs1
               /\ files (dev s') !! numbered (file_path s) 1 = Some content
               /\ (forall j, j <> 1 ->
                     files (dev s') !! numbered (file_path s) j
                     = fs1 !! numbered (file_path s) j)
               /\ (forall q, ~ rotation_path (file_path s) q ->
                     files (dev s') !! q = files (dev s) !! q)
           else
             rotating_ready s' (content ++ output)
             /\ _current_size s' = _current_size s + size
             /\ (forall q, q <> file_path s ->
                   files (dev s') !! q = files (dev s) !! q)
       end.
Proof.
  intros Hready. unfold json_line, emit.
  destruct (format_json e) as [x|json] eqn:Hfmt.
  { exists s. split; [|repeat split].
    unfold try_pass, try_except, bind, lift, raise, ret. reflexivity. }
  cbv zeta.
  destruct (_should_rotate s (Z.of_nat (String.length (json ++ newline))))
    eqn:Hrot.
  - destruct (do_rotate_fault_free s content Hready)
      as (s1 & fs1 & Hdo & Hready1 & Hsize1 & Hp & Hmb & Hn & Hshifted
          & Hfirst & Hrest & Hframe).
    eexists. split.
    { apply try_pass_returns.
      rewrite (bind_returns _ _ _ json s) by reflexivity.
      rewrite (bind_returns _ _ _ s s) by reflexivity.
      rewrite Hrot.
      rewrite (bind_returns _ _ _ tt s1) by exact Hdo.
      apply (write_fault_free s1 "" (json ++ newline) Hready1). }
    cbn [file_path max_bytes backup_count _current_size dev files].
    do 3 (split; [assumption|]).
    exists fs1. rewrite Hp.
    destruct Hready1 as (Hfile1 & Hfaults1 & Hcontent1).
    split; [split; [rewrite <- Hp; exact Hfile1|split; [reflexivity|]]|].
    { cbn. apply lookup_insert_eq. }
    split; [rewrite Hsize1; reflexivity|]. split; [exact Hshifted|].
    split; [|split].
    + rewrite lookup_insert_ne by apply not_eq_sym, numbered_ne_path.
      exact Hfirst.
    + intros j Hj.
      rewrite lookup_insert_ne by apply not_eq_sym, numbered_ne_path.
      apply Hrest. exact Hj.
    + intros q Hq.
      rewrite lookup_insert_ne by (intros <-; apply Hq; left; reflexivity).
      apply Hframe. exact Hq.
  - eexists. split.
    { apply try_pass_returns.
      rewrite (bind_returns _ _ _ json s) by reflexivity.
      rewrite (bind_returns _ _ _ s s) by reflexivity.
      rewrite Hrot.
      rewrite (bind_returns _ _ _ tt s) by reflexivity.
      apply (write_fault_free s content (json ++ newline) Hready). }
    cbn [file_path max_bytes backup_count _current_size dev files].
    do 3 (split; [reflexivity|]).
    destruct Hready as (Hfile & Hfaults & Hcontent).
    split; [split; [exact Hfile|split; [reflexivity|]]|].
    { cbn. apply lookup_insert_eq. }
    split; [reflexivity|].
    intros q Hq. apply lookup_insert_ne. congruence.
Qed.
(** The size counter agrees with the primary file.  A string stands for
    its UTF-8 bytes, so [String.length] is both [len(output.encode())]
    and [st_size]. *)
Definition in_step (s : t) : Prop :=
  exists content,
    rotating_ready s content
    /\ _current_size s = Z.of_nat (String.length content).

Lemma init_in_step (path : string) (mb n : Z) (fs : gmap string string) :
  let r := __init__ path mb n {| files := fs; disk_faults := [] |} in
  r.1 = Returns tt
  /\ in_step r.2
  /\ file_path r.2 = path
  /\ max_bytes r.2 = mb
  /\ backup_count r.2 = n.
Proof.
  unfold __init__, _open, bind, on_dev, zoom, mkdir_parents, path_exists,
    stat_size, open_append, disk_io, gets, set_current_size, set_file, modify.
  cbn. destruct (fs !! path) as [c|] eqn:Hc; cbn; repeat (rewrite Hc; cbn).
  - repeat split. exists c. repeat split. exact Hc.
  - repeat split. exists "". repeat split. cbn. apply lookup_insert_eq.
Qed.

Lemma emit_in_step (e : entry) (s : t) :
  in_step s ->
  in_step (emit e s).2
  /\ file_path (emit e s).2 = file_path s
  /\ max_bytes (emit e s).2 = max_bytes s
  /\ backup_count (emit e s).2 = backup_count s.
Proof.
  intros (content & Hready & Hsize).
  destruct (rotating_emit_ready e s content Hready)
    as (s' & -> & Hp & Hmb & Hn & Hcase).
  cbn [snd]. split; [|auto].
  destruct (json_line e) as [output|]; [|subst s'; exists content; auto].
  cbv zeta in Hcase.
  destruct (_should_rotate s (Z.of_nat (String.length output))).
  - destruct Hcase as (fs1 & Hready' & Hsize' & _). exists output. auto.
  - destruct Hcase as (Hready' & Hsize' & _). exists (content ++ output)%string.
    split; [exact Hready'|]. rewrite Hsize', Hsize, string_length_app. lia.
Qed.

Lemma emit_in_turn_cons (e : entry) (rest : list entry) (s : t) :
  emit_in_turn (e :: rest) s = emit_in_turn rest (emit e s).2.
Proof. reflexivity. Qed.

(** X12. From its construction on, whatever it is asked to write, a
    rotating handler on a disk without faults keeps [_current_size]
    equal to the length of its primary file: the counter that decides
    on rotation never drifts from the file. *)
Theorem rotating_size_counter_tracks_file (path : string) (mb n : Z)
    (fs : gmap string string) (entries : list entry) :
  let s0 := (__init__ path mb n {| files := fs; disk_faults := [] |}).2 in
  let s' := emit_in_turn entries s0 in
  exists content,
    files (dev s') !! path = Some content
    /\ _current_size s' = Z.of_nat (String.length content).
Proof.
  intros s0 s'.
  destruct (init_in_step path mb n fs) as (_ & Hstep & Hpath & _).
  fold s0 in Hstep, Hpath.
  assert (in_step s' /\ file_path s' = path) as [(c & (_ & _ & Hc) & Hsz) Hp'].
  { subst s'. clearbody s0. clear -Hstep Hpath.
    revert s0 Hstep Hpath. induction entries as [|e rest IH]; intros s0 Hstep Hpath.
    - split; assumption.
    - rewrite emit_in_turn_cons.
      destruct (emit_in_step e s0 Hstep) as (Hstep' & Hp & _).
      apply IH; [exact Hstep'|congruence]. }
  exists c. rewrite <- Hp'. split; assumption.
Qed.

(** X13. With a positive [max_bytes], a primary file that is within
    [max_bytes] stays within it, provided no single line is longer than
    [max_bytes]: a write that would pass the limit goes to a fresh
    file. *)
Theorem rotating_primary_within_max_bytes (entries : list entry) (s : t)
    (content : string) :
  rotating_ready s content ->
  _current_size s = Z.of_nat (String.length content) ->
  0 < max_bytes s ->
  Z.of_nat (String.length content) <= max_bytes s ->
  Forall (fun e => forall line, json_line e = Some line ->
                   Z.of_nat (String.length line) <= max_bytes s) entries ->
  exists content',
    files (dev (emit_in_turn entries s)) !! file_path s = Some content'
    /\ Z.of_nat (String.length content') <= max_bytes s.
Proof.
  intros Hready Hsize Hpos Hle Hlines.
  revert s content Hready Hsize Hpos Hle Hlines.
  induction entries as [|e rest IH]; intros s content Hready Hsize Hpos Hle Hlines.
  - exists content. split; [apply Hready|exact Hle].
  - rewrite emit_in_turn_cons.
    apply Forall_cons in Hlines as [Hline Hlines].
    destruct (rotating_emit_ready e s content Hready)
      as (s' & -> & Hp & Hmb & Hn & Hcase).
    cbn [snd]. rewrite <- Hp, <- Hmb.
    destruct (json_line e) as [output|] eqn:Hjson.
    + cbv zeta in Hcase. specialize (Hline output eq_refl).
      destruct (_should_rotate s (Z.of_nat (String.length output))) eqn:Hrot.
      * destruct Hcase as (fs1 & Hready' & Hsize' & _).
        apply (IH s' output); rewrite ?Hmb; auto.
      * destruct Hcase as (Hready' & Hsize' & _).
        unfold _should_rotate in Hrot.
        apply (IH s' (content ++ output)%string); rewrite ?Hmb; auto.
        -- rewrite Hsize', Hsize, string_length_app. lia.
        -- rewrite string_length_app. lia.
    + subst s'. apply (IH s content); auto.
Qed.

(** X14. A write that rotates leaves the new line alone in the primary
    file, the old content of the primary file in [path.1], and every
    backup [path.(j-1)] below [backup_count] under the next number
    [path.j]; the last backup [path.backup_count] is replaced when
    there was a [path.(backup_count-1)]; backups numbered above
    [backup_count] and all other files stay as they were. *)
Theorem rotation_shifts_backups (e : entry) (s : t) (content output : string) :
  rotating_ready s content ->
  json_line e = Some output ->
  _should_rotate s (Z.of_nat (String.length output)) = true ->
  let s' := (emit e s).2 in
  let p := file_path s in
  let n := backup_count s in
  files (dev s') !! p = Some output
  /\ files (dev s') !! numbered p 1 = Some content
  /\ (forall j, 2 <= j < n ->
        files (dev s') !! numbered p j = files (dev s) !! numbered p (j - 1))
  /\ (2 <= n ->
        files (dev s') !! numbered p n
        = match files (dev s) !! numbered p (n - 1) with
          | Some c => Some c
          | None => files (dev s) !! numbered p n
          end)
  /\ (forall j, j < 1 \/ (1 < j /\ n < j) ->
        files (dev s') !! numbered p j = files (dev s) !! numbered p j)
  /\ (forall q, ~ rotation_path p q ->
        files (dev s') !! q = files (dev s) !! q)
  /\ _current_size s' = Z.of_nat (String.length output).
Proof.
  intros Hready Hjson Hrot s' p n.
  destruct (rotating_emit_ready e s content Hready)
    as (s1 & Hemit & Hp & Hmb & Hn & Hcase).
  subst s'. rewrite Hemit. cbn [snd].
  rewrite Hjson in Hcase. cbv zeta in Hcase. rewrite Hrot in Hcase.
  destruct Hcase as (fs1 & (_ & _ & Hnew) & Hsize & Hshifted & Hfirst & Hrest
                     & Hframe).
  fold p in Hnew, Hshifted, Hfirst, Hrest, Hframe. fold n in Hshifted.
  rewrite Hp in Hnew. fold p in Hnew.
  destruct Hshifted as (_ & _ & Hmid & Hlast & Hout).
  split; [exact Hnew|]. split; [exact Hfirst|]. split; [|split; [|split]].
  - intros j Hj. rewrite Hrest by lia. apply Hmid. lia.
  - intros Hn2. rewrite Hrest by lia.
    destruct Hlast as [_ Hlast]; [lia|].
    replace (Z.of_nat (Z.to_nat (n - 1)) + 1) with n in Hlast by lia.
    replace (Z.of_nat (Z.to_nat (n - 1))) with (n - 1) in Hlast by lia.
    exact Hlast.
  - intros j Hj. rewrite Hrest by lia. apply Hout. lia.
  - split; [exact Hframe|exact Hsize].
Qed.

(** X15. With [max_bytes <= 0] rotation is off: the handler appends
    every line the serializer gives to the primary file, in call order,
    counts their bytes, and touches no other file, whatever the size of
    the file. *)
Theorem nonpositive_max_bytes_never_rotates (entries : list entry) (s : t)
    (content : string) :
  rotating_ready s content ->
  max_bytes s <= 0 ->
  let s' := emit_in_turn entries s in
  let written := fold_right String.append "" (omap json_line entries) in
  files (dev s') !! file_path s = Some (content ++ written)%string
  /\ (forall q, q <> file_path s -> files (dev s') !! q = files (dev s) !! q)
  /\ _current_size s' = _current_size s + Z.of_nat (String.length written).
Proof.
  intros Hready Hmax. cbv zeta.
  revert s content Hready Hmax.
  induction entries as [|e rest IH]; intros s content Hready Hmax.
  - cbn. rewrite string_app_nil_r. split; [apply Hready|]. split; [auto|lia].
  - rewrite emit_in_turn_cons.
    destruct (rotating_emit_ready e s content Hready)
      as (s' & -> & Hp & Hmb & Hn & Hcase).
    cbn [snd]. cbn [omap list_omap]. fold (omap json_line rest).
    destruct (json_line e) as [output|] eqn:Hjson.
    + cbv zeta in Hcase.
      assert (_should_rotate s (Z.of_nat (String.length output)) = false) as Hrot.
      { unfold _should_rotate. destruct (Z.ltb_spec 0 (max_bytes s)); [lia|].
        reflexivity. }
      rewrite Hrot in Hcase. destruct Hcase as (Hready' & Hsize' & Hframe).
      destruct (IH s' (content ++ output)%string Hready') as (Hc & Hf & Hs);
        [lia|].
      rewrite Hp in Hc, Hf. cbn [fold_right].
      split; [rewrite Hc, string_app_assoc; reflexivity|].
      split.
      * intros q Hq. rewrite Hf by exact Hq. apply Hframe. exact Hq.
      * rewrite Hs, Hsize', string_length_app. lia.
    + subst s'. apply (IH s content Hready Hmax).
Qed.
End rotating_props.

(** A handler with room for sixteen bytes and three backups, opened on
    a log of ten bytes that has one backup already. *)
Definition rotating_sample (maxb : Z) : RotatingFileHandler.t :=
  (RotatingFileHandler.__init__ "logs/app.log" maxb 3
     {| files := {["logs/app.log" := "0123456789";
                   "logs/app.log.1" := "older"]};
        disk_faults := [] |}).2.

Lemma rotating_sample_ready (maxb : Z) :
  @rotating_ready (rotating_sample maxb) "0123456789".
Proof.
  unfold rotating_ready. split; [|split]; vm_compute; reflexivity.
Qed.

Lemma rotating_primary_within_max_bytes_witness :
  exists content',
    files (RotatingFileHandler.dev
             (emit_in_turn (H0 := @RotatingFileHandler.handler sample_formatter)
                [first_record; second_record] (rotating_sample 16)))
      !! "logs/app.log" = Some content'
    /\ Z.of_nat (String.length content') <= 16.
Proof.
  apply (@rotating_primary_within_max_bytes sample_formatter
           [first_record; second_record] (rotating_sample 16) "0123456789").
  - apply rotating_sample_ready.
  - vm_compute. reflexivity.
  - vm_compute. reflexivity.
  - vm_compute. discriminate.
  - repeat constructor; intros line Hline; vm_compute in Hline;
      injection Hline as <-; vm_compute; discriminate.
Defined.

Lemma rotation_shifts_backups_witness :
  let s' := (RotatingFileHandler.emit (H := sample_formatter) second_record
               (rotating_sample 16)).2 in
  files (RotatingFileHandler.dev s') !! "logs/app.log"
  = Some ("second" ++ newline)%string
  /\ files (RotatingFileHandler.dev s') !! "logs/app.log.1" = Some "0123456789"
  /\ files (RotatingFileHandler.dev s') !! "logs/app.log.2" = Some "older".
Proof.
  intros s'.
  assert (@json_line sample_formatter second_record
          = Some ("second" ++ newline)%string) as Hjson
    by (vm_compute; reflexivity).
  assert (RotatingFileHandler._should_rotate (rotating_sample 16)
            (Z.of_nat (String.length ("second" ++ newline))) = true) as Hrot
    by (vm_compute; reflexivity).
  assert (RotatingFileHandler.file_path (rotating_sample 16) = "logs/app.log")
    as Hp by (vm_compute; reflexivity).
  assert (RotatingFileHandler.backup_count (rotating_sample 16) = 3)
    as Hn by (vm_compute; reflexivity).
  assert (numbered "logs/app.log" 1 = "logs/app.log.1") as Hk1
    by (vm_compute; reflexivity).
  assert (numbered "logs/app.log" 2 = "logs/app.log.2") as Hk2
    by (vm_compute; reflexivity).
  pose proof (@rotation_shifts_backups sample_formatter second_record
                (rotating_sample 16) "0123456789" ("second" ++ newline)%string
                (rotating_sample_ready 16) Hjson Hrot) as Hall.
  cbv zeta in Hall. rewrite Hp, Hn in Hall.
  destruct Hall as (H1 & H2 & H3 & _).
  rewrite Hk1 in H2. specialize (H3 2 ltac:(lia)). rewrite Hk2 in H3.
  split; [exact H1|]. split; [exact H2|].
  subst s'. rewrite H3. vm_compute. reflexivity.
Defined.

Lemma nonpositive_max_bytes_never_rotates_witness :
  let s' := emit_in_turn (H0 := @RotatingFileHandler.handler sample_formatter)
              [first_record; second_record] (rotating_sample 0) in
  files (RotatingFileHandler.dev s') !! "logs/app.log"
  = Some ("0123456789" ++ "first" ++ newline ++ "second" ++ newline)%string
  /\ files (RotatingFileHandler.dev s') !! "logs/app.log.1" = Some "older"
  /\ RotatingFileHandler._current_size s' = 23.
Proof.
  intros s'.
  assert (RotatingFileHandler.file_path (rotating_sample 0) = "logs/app.log")
    as Hp by (vm_compute; reflexivity).
  assert (RotatingFileHandler.max_bytes (rotating_sample 0) <= 0) as Hmax
    by (vm_compute; discriminate).
  pose proof (@nonpositive_max_bytes_never_rotates sample_formatter
                [first_record; second_record] (rotating_sample 0) "0123456789"
                (rotating_sample_ready 0) Hmax) as Hall.
  cbv zeta in Hall. rewrite Hp in Hall. destruct Hall as (H1 & H2 & H3).
  subst s'. split; [|split].
  - rewrite H1. vm_compute. reflexivity.
  - rewrite (H2 "logs/app.log.1") by discriminate. vm_compute. reflexivity.
  - rewrite H3. vm_compute. reflexivity.
Defined.

(** ** copy.deepcopy and with_context: what a copy leaves alone *)

(** A value that refers to no object outside the first [n]. *)
Definition closed_value (n : nat) (v : value) : Prop :=
  match v with VRef a => (a < n)%nat | _ => True end.

(** A value that refers to no object among the first [n]. *)
Definition fresh_value (n : nat) (v : value) : Prop :=
  match v with VRef a => (n <= a)%nat | _ => True end.

Definition obj_Forall (P : value -> Prop) (o : obj) : Prop :=
  match o with
  | OList items => Forall P items
  | ODict items => map_Forall (fun _ => P) items
  end.

(** No dangling reference: the heaps Python programs have. *)
Definition closed_heap (h : heap) : Prop :=
  forall a o, h !! a = Some o -> obj_Forall (closed_value (length h)) o.

(** [h] has every object of [h0] as it was, and the objects added since
    refer to added objects only. *)
Definition extends (h0 h : heap) : Prop :=
  (forall a, (a < length h0)%nat -> h !! a = h0 !! a)
  /\ (length h0 <= length h)%nat
  /\ (forall a o, (length h0 <= a)%nat -> h !! a = Some o ->
        obj_Forall (fresh_value (length h0)) o).

(** What [deepcopy] gives for [x]: [x] itself when it is an atom, an
    object added since [h0] otherwise. *)
Definition copy_of (h0 h : heap) (x y : value) : Prop :=
  match x with
  | VRef _ => exists b, y = VRef b /\ (length h0 <= b < length h)%nat
  | _ => y = x
  end.

Definition memo_fresh (h0 h : heap) (m : memo) : Prop :=
  forall a b, m !! a = Some b -> (length h0 <= b < length h)%nat.

(** The objects of the first [n] that [memo] has no copy of yet. *)
Definition unvisited (n : nat) (m : memo) : nat :=
  length (filter (fun i => m !! i = None) (seq 0 n)).

Section deepcopy_props.
Local Open Scope nat_scope.

Lemma unvisited_list_mono (l : list addr) (m m' : memo) :
  m ⊆ m' ->
  length (filter (fun i => m' !! i = None) l)
  <= length (filter (fun i => m !! i = None) l).
Proof.
  intros Hsub. induction l as [|x l IH]; [reflexivity|].
  rewrite !filter_cons.
  destruct (decide (m' !! x = None)) as [Hx'|Hx'].
  - rewrite decide_True by (eapply lookup_weaken_None; eassumption).
    cbn. lia.
  - destruct (decide (m !! x = None)); cbn; lia.
Qed.

Lemma unvisited_list_insert (l : list addr) (m : memo) (a b : addr) :
  a ∈ l -> m !! a = None ->
  length (filter (fun i => <[a := b]> m !! i = None) l)
  < length (filter (fun i => m !! i = None) l).
Proof.
  intros Hin Hnone. induction l as [|x l IH]; [inversion Hin|].
  rewrite !filter_cons.
  destruct (decide (x = a)) as [->|Hne].
  - rewrite decide_False by (rewrite lookup_insert_eq; discriminate).
    rewrite decide_True by exact Hnone. cbn.
    pose proof (unvisited_list_mono l m (<[a := b]> m)
                  (insert_subseteq m a b Hnone)).
    lia.
  - apply elem_of_cons in Hin as [Hin|Hin]; [congruence|].
    specialize (IH Hin).
    rewrite lookup_insert_ne by congruence.
    destruct (decide (m !! x = None)); cbn; lia.
Qed.

Lemma unvisited_le (n : nat) (m : memo) : unvisited n m <= n.
Proof.
  unfold unvisited. etransitivity; [apply length_filter|].
  rewrite length_seq. reflexivity.
Qed.

Lemma unvisited_mono (n : nat) (m m' : memo) :
  m ⊆ m' -> unvisited n m' <= unvisited n m.
Proof. apply unvisited_list_mono. Qed.

Lemma unvisited_insert (n : nat) (m : memo) (a b : addr) :
  a < n -> m !! a = None -> unvisited n (<[a := b]> m) < unvisited n m.
Proof.
  intros Ha. apply unvisited_list_insert. apply elem_of_seq. lia.
Qed.

Lemma fresh_value_copy (h0 h : heap) (x y : value) :
  closed_value (length h0) x -> copy_of h0 h x y -> fresh_value (length h0) y.
Proof.
  destruct x; cbn; intros Hx Hy; subst; try exact I.
  destruct Hy as (b & -> & Hb). cbn. lia.
Qed.

Lemma copy_of_longer (h0 h h' : heap) (x y : value) :
  length h <= length h' -> copy_of h0 h x y -> copy_of h0 h' x y.
Proof.
  intros Hlen. destruct x; cbn; auto.
  intros (b & -> & Hb). exists b. split; [reflexivity|lia].
Qed.

Lemma memo_fresh_longer (h0 h h' : heap) (m : memo) :
  length h <= length h' -> memo_fresh h0 h m -> memo_fresh h0 h' m.
Proof. intros Hlen Hm a b Hab. specialize (Hm a b Hab). lia. Qed.

Lemma extends_refl (h : heap) : extends h h.
Proof.
  split; [auto|]. split; [lia|].
  intros a o Ha Ho. apply lookup_lt_Some in Ho. lia.
Qed.

Lemma extends_alloc (h0 h : heap) (o : obj) :
  extends h0 h -> obj_Forall (fresh_value (length h0)) o ->
  extends h0 (h ++ [o]).
Proof.
  intros (Hold & Hlen & Hnew) Ho. split; [|split].
  - intros a Ha. rewrite lookup_app_l by lia. apply Hold. exact Ha.
  - rewrite length_app. lia.
  - intros a o' Ha Ho'.
    destruct (decide (a < length h)) as [Hlt|Hge].
    + rewrite lookup_app_l in Ho' by exact Hlt. eapply Hnew; eassumption.
    + rewrite lookup_app_r in Ho' by lia.
      destruct (a - length h); [|destruct n; discriminate].
      injection Ho' as <-. exact Ho.
Qed.

Lemma extends_list_append (h0 h : heap) (b : addr) (y : value) :
  extends h0 h -> length h0 <= b -> fresh_value (length h0) y ->
  extends h0 (list_append b y h) /\ length (list_append b y h) = length h.
Proof.
  intros (Hold & Hlen & Hnew) Hb Hy. unfold list_append.
  destruct (h !! b) as [[ys|d]|] eqn:Hhb; try (split; [repeat split; auto|reflexivity]).
  split; [|apply length_insert]. split; [|split].
  - intros a Ha. rewrite list_lookup_insert_ne by lia. apply Hold. exact Ha.
  - rewrite length_insert. exact Hlen.
  - intros a o Ha Ho. destruct (decide (a = b)) as [->|Hne].
    + rewrite list_lookup_insert_eq in Ho by (eapply lookup_lt_Some; eassumption).
      injection Ho as <-. cbn. apply Forall_app. split.
      * apply (Hnew b (OList ys) Hb Hhb).
      * constructor; [exact Hy|constructor].
    + rewrite list_lookup_insert_ne in Ho by congruence.
      eapply Hnew; eassumption.
Qed.

Lemma extends_dict_set (h0 h : heap) (b : addr) (key : string) (y : value) :
  extends h0 h -> length h0 <= b -> fresh_value (length h0) y ->
  extends h0 (dict_set b key y h) /\ length (dict_set b key y h) = length h.
Proof.
  intros (Hold & Hlen & Hnew) Hb Hy. unfold dict_set.
  destruct (h !! b) as [[ys|d]|] eqn:Hhb; try (split; [repeat split; auto|reflexivity]).
  split; [|apply length_insert]. split; [|split].
  - intros a Ha. rewrite list_lookup_insert_ne by lia. apply Hold. exact Ha.
  - rewrite length_insert. exact Hlen.
  - intros a o Ha Ho. destruct (decide (a = b)) as [->|Hne].
    + rewrite list_lookup_insert_eq in Ho by (eapply lookup_lt_Some; eassumption).
      injection Ho as <-. cbn. apply map_Forall_insert_2; [exact Hy|].
      apply (Hnew b (ODict d) Hb Hhb).
    + rewrite list_lookup_insert_ne in Ho by congruence.
      eapply Hnew; eassumption.
Qed.

Section copies.
Variable h0 : heap.
Hypothesis h0_closed : closed_heap h0.

(** [rec] copies every value of [h0] as long as fewer than [k] of the
    objects of [h0] are without a copy. *)
Definition copies (rec : value -> heap * memo -> option (value * (heap * memo)))
    (k : nat) : Prop :=
  forall x h m,
    extends h0 h -> memo_fresh h0 h m -> closed_value (length h0) x ->
    unvisited (length h0) m < k ->
    exists y h' m',
      rec x (h, m) = Some (y, (h', m'))
      /\ extends h0 h' /\ memo_fresh h0 h' m' /\ m ⊆ m'
      /\ length h <= length h' /\ copy_of h0 h' x y.

Lemma deepcopy_list_copies rec (k : nat) (b : addr) (items : list value)
    (h : heap) (m : memo) :
  copies rec k ->
  extends h0 h -> memo_fresh h0 h m -> Forall (closed_value (length h0)) items ->
  unvisited (length h0) m < k -> length h0 <= b ->
  exists h' m',
    _deepcopy_list rec b items (h, m) = Some (h', m')
    /\ extends h0 h' /\ memo_fresh h0 h' m' /\ m ⊆ m' /\ length h <= length h'.
Proof.
  intros Hrec Hext Hm Hitems Hk Hb.
  revert h m Hext Hm Hk. induction Hitems as [|x rest Hx Hrest IH];
    intros h m Hext Hm Hk.
  - exists h, m. cbn. split; [reflexivity|]. split; [exact Hext|].
    split; [exact Hm|]. split; reflexivity.
  - destruct (Hrec x h m Hext Hm Hx Hk)
      as (y & h1 & m1 & Hcall & Hext1 & Hm1 & Hsub1 & Hlen1 & Hcopy).
    cbn. rewrite Hcall.
    destruct (extends_list_append h0 h1 b y Hext1 Hb
                (fresh_value_copy _ _ _ _ Hx Hcopy)) as [Hext2 Hlen2].
    destruct (IH (list_append b y h1) m1 Hext2)
      as (h' & m' & Hloop & Hext' & Hm' & Hsub' & Hlen').
    + eapply memo_fresh_longer; [|exact Hm1]. lia.
    + pose proof (unvisited_mono (length h0) m m1 Hsub1). lia.
    + exists h', m'. split; [exact Hloop|]. split; [exact Hext'|].
      split; [exact Hm'|]. split; [etransitivity; eassumption|lia].
Qed.

Lemma deepcopy_dict_copies rec (k : nat) (b : addr)
    (items : list (string * value)) (h : heap) (m : memo) :
  copies rec k ->
  extends h0 h -> memo_fresh h0 h m ->
  Forall (fun kv => closed_value (length h0) kv.2) items ->
  unvisited (length h0) m < k -> length h0 <= b ->
  exists h' m',
    _deepcopy_dict rec b items (h, m) = Some (h', m')
    /\ extends h0 h' /\ memo_fresh h0 h' m' /\ m ⊆ m' /\ length h <= length h'.
Proof.
  intros Hrec Hext Hm Hitems Hk Hb.
  revert h m Hext Hm Hk. induction Hitems as [|[key x] rest Hx Hrest IH];
    intros h m Hext Hm Hk.
  - exists h, m. cbn. split; [reflexivity|]. split; [exact Hext|].
    split; [exact Hm|]. split; reflexivity.
  - cbn in Hx.
    destruct (Hrec x h m Hext Hm Hx Hk)
      as (y & h1 & m1 & Hcall & Hext1 & Hm1 & Hsub1 & Hlen1 & Hcopy).
    cbn. rewrite Hcall.
    destruct (extends_dict_set h0 h1 b key y Hext1 Hb
                (fresh_value_copy _ _ _ _ Hx Hcopy)) as [Hext2 Hlen2].
    destruct (IH (dict_set b key y h1) m1 Hext2)
      as (h' & m' & Hloop & Hext' & Hm' & Hsub' & Hlen').
    + eapply memo_fresh_longer; [|exact Hm1]. lia.
    + pose proof (unvisited_mono (length h0) m m1 Hsub1). lia.
    + exists h', m'. split; [exact Hloop|]. split; [exact Hext'|].
      split; [exact Hm'|]. split; [etransitivity; eassumption|lia].
Qed.

Lemma memo_fresh_alloc (h : heap) (m : memo) (a : addr) (o : obj) :
  extends h0 h -> memo_fresh h0 h m ->
  memo_fresh h0 (h ++ [o]) (<[a := length h]> m).
Proof.
  intros (_ & Hlen & _) Hm a' b'. rewrite length_app. cbn.
  destruct (decide (a' = a)) as [->|Hne].
  - rewrite lookup_insert_eq. intros [= <-]. lia.
  - rewrite lookup_insert_ne by congruence. intros Hab.
    specialize (Hm a' b' Hab). lia.
Qed.

Lemma deepcopy_rec_copies (fuel : nat) : copies (deepcopy_rec fuel) fuel.
Proof.
  induction fuel as [|fuel IH]; intros x h m Hext Hm Hx Hk; [lia|].
  destruct x as [| | | | |a];
    try (eexists _, h, m; split; [reflexivity|]; split; [exact Hext|];
         split; [exact Hm|]; split; [reflexivity|]; split; reflexivity).
  cbn [deepcopy_rec fst snd].
  destruct (m !! a) as [b|] eqn:Hma.
  { exists (VRef b), h, m. split; [reflexivity|]. split; [exact Hext|].
    split; [exact Hm|]. split; [reflexivity|]. split; [reflexivity|].
    exists b. split; [reflexivity|]. apply (Hm a b Hma). }
  cbn in Hx.
  pose proof Hext as (Hold & Hlen & _).
  unfold addr in *. rewrite (Hold a Hx).
  destruct (h0 !! a) as [o|] eqn:Hobj;
    [|apply lookup_ge_None in Hobj; lia].
  pose proof (h0_closed a o Hobj) as Hclosed.
  pose proof (unvisited_insert (length h0) m a (length h) Hx Hma) as Hless.
  assert (m ⊆ <[a := length h]> m) as Hsub by (apply insert_subseteq; exact Hma).
  unfold addr in *.
  destruct o as [items|items]; cbn in Hclosed.
  - destruct (deepcopy_list_copies (deepcopy_rec fuel) fuel (length h) items
                (h ++ [OList []]) (<[a := length h]> m) IH)
      as (h' & m' & Hloop & Hext' & Hm' & Hsub' & Hlen').
    + apply extends_alloc; [exact Hext|constructor].
    + apply memo_fresh_alloc; assumption.
    + exact Hclosed.
    + lia.
    + exact Hlen.
    + unfold addr in *. rewrite Hloop. exists (VRef (length h)), h', m'.
      split; [reflexivity|]. rewrite length_app in Hlen'. cbn in Hlen'.
      split; [exact Hext'|]. split; [exact Hm'|].
      split; [etransitivity; eassumption|]. split; [lia|].
      exists (length h). split; [reflexivity|lia].
  - destruct (deepcopy_dict_copies (deepcopy_rec fuel) fuel (length h)
                (map_to_list items)
                (h ++ [ODict ∅]) (<[a := length h]> m) IH)
      as (h' & m' & Hloop & Hext' & Hm' & Hsub' & Hlen').
    + apply extends_alloc; [exact Hext|apply map_Forall_empty].
    + apply memo_fresh_alloc; assumption.
    + apply map_Forall_to_list in Hclosed.
      eapply Forall_impl; [exact Hclosed|]. intros [key v]. auto.
    + lia.
    + exact Hlen.
    + unfold addr in *. rewrite Hloop. exists (VRef (length h)), h', m'.
      split; [reflexivity|]. rewrite length_app in Hlen'. cbn in Hlen'.
      split; [exact Hext'|]. split; [exact Hm'|].
      split; [etransitivity; eassumption|]. split; [lia|].
      exists (length h). split; [reflexivity|lia].
Qed.

(** One top-level [copy.deepcopy] on a heap that extends [h0]. *)
Lemma deepcopy_extends (x : value) (h : heap) :
  extends h0 h -> closed_value (length h0) x ->
  exists y h',
    deepcopy x h = Some (y, h')
    /\ extends h0 h' /\ length h <= length h' /\ copy_of h0 h' x y.
Proof.
  intros Hext Hx. unfold deepcopy.
  destruct (deepcopy_rec_copies (S (length h)) x h ∅ Hext)
    as (y & h' & m' & Hcall & Hext' & _ & _ & Hlen & Hcopy).
  - intros a b Hab. rewrite lookup_empty in Hab. discriminate.
  - exact Hx.
  - pose proof (unvisited_le (length h0) ∅). destruct Hext as (_ & ? & _). lia.
  - rewrite Hcall. exists y, h'. auto.
Qed.
End copies.

(** On a heap without dangling references [copy.deepcopy] always
    returns (the recursion ends, cycles and shared objects included),
    changes no object that existed before the call, gives an atom back
    as it is and gives for an object an object that did not exist
    before; the objects it adds refer to added objects only. *)
Theorem deepcopy_returns_and_keeps_heap (x : value) (h : heap) :
  closed_heap h -> closed_value (length h) x ->
  exists y h',
    deepcopy x h = Some (y, h')
    /\ extends h h'
    /\ copy_of h h' x y.
Proof.
  intros Hclosed Hx.
  destruct (deepcopy_extends h Hclosed x h (extends_refl h) Hx)
    as (y & h' & Hcall & Hext & _ & Hcopy).
  exists y, h'. auto.
Qed.

Lemma merge_kwargs_extends (h0 : heap) (new_context : addr)
    (items : list (string * value)) (h : heap) :
  closed_heap h0 -> extends h0 h -> length h0 <= new_context ->
  Forall (fun kv => closed_value (length h0) kv.2) items ->
  exists h',
    merge_kwargs new_context items h = Some h'
    /\ extends h0 h' /\ length h <= length h'.
Proof.
  intros Hclosed Hext Hnew Hitems. revert h Hext.
  induction Hitems as [|[key v] rest Hv Hrest IH]; intros h Hext.
  - exists h. cbn. auto.
  - cbn in Hv.
    destruct (deepcopy_extends h0 Hclosed v h Hext Hv)
      as (y & h1 & Hcall & Hext1 & Hlen1 & Hcopy).
    cbn. rewrite Hcall.
    destruct (extends_dict_set h0 h1 new_context key y Hext1 Hnew
                (fresh_value_copy _ _ _ _ Hv Hcopy)) as [Hext2 Hlen2].
    destruct (IH _ Hext2) as (h' & Hloop & Hext' & Hlen').
    exists h'. split; [exact Hloop|]. split; [exact Hext'|lia].
Qed.

Lemma with_context_extends (self : Logger) (kwargs : gmap string value)
    (h : heap) :
  closed_heap h ->
  _context self < length h ->
  map_Forall (fun _ => closed_value (length h)) kwargs ->
  exists l h',
    with_context self kwargs h = Some (l, h')
    /\ _name l = _name self
    /\ _config l = _config self
    /\ extends h h'
    /\ length h <= _context l < length h'.
Proof.
  intros Hclosed Hctx Hkw. unfold with_context.
  destruct (deepcopy_extends h Hclosed (VRef (_context self)) h
              (extends_refl h) Hctx)
    as (y & h1 & Hcall & Hext1 & Hlen1 & (b & -> & Hb)).
  rewrite Hcall.
  destruct (merge_kwargs_extends h b (map_to_list kwargs) h1 Hclosed Hext1)
    as (h2 & Hmerge & Hext2 & Hlen2).
  { lia. }
  { apply map_Forall_to_list in Hkw.
    eapply Forall_impl; [exact Hkw|]. intros [key v]. auto. }
  rewrite Hmerge. unfold Logger__init__.
  destruct (read_dict h2 b) as [d|].
  - destruct (bool_decide (dom d = ∅)).
    + eexists _, _. split; [reflexivity|]. cbn.
      split; [reflexivity|]. split; [reflexivity|].
      split; [apply extends_alloc; [exact Hext2|apply map_Forall_empty]|].
      rewrite length_app. cbn. destruct Hext2 as (_ & ? & _). lia.
    + eexists _, _. split; [reflexivity|]. cbn.
      split; [reflexivity|]. split; [reflexivity|].
      split; [exact Hext2|lia].
  - eexists _, _. split; [reflexivity|]. cbn.
    split; [reflexivity|]. split; [reflexivity|].
    split; [exact Hext2|lia].
Qed.

Lemma call_with_context_bound (self : Logger) (kwargs : gmap string value)
    (h : heap) :
  kwargs !! "self" = None ->
  call_with_context self kwargs h
  = match with_context self kwargs h with
    | Some (l, h') => Some (Returns l, h')
    | None => None
    end.
Proof.
  intros Hfree. unfold call_with_context.
  rewrite bool_decide_eq_false_2; [reflexivity|].
  apply not_elem_of_dom. exact Hfree.
Qed.

(** X16. On a heap without dangling references, a call of
    [with_context] with a keyword named [self] raises [TypeError] and
    changes nothing; any other call returns a logger with the
    receiver's name and configuration whose context is an object that
    did not exist before the call, and no object that existed before
    the call is changed: the receiver's context and the values the
    caller passed are as they were. *)
Theorem with_context_keeps_receiver (self : Logger)
    (kwargs : gmap string value) (h : heap) :
  closed_heap h ->
  _context self < length h ->
  map_Forall (fun _ => closed_value (length h)) kwargs ->
  (kwargs !! "self" <> None ->
   call_with_context self kwargs h = Some (Raises TypeError, h))
  /\ (kwargs !! "self" = None ->
      exists l h',
        call_with_context self kwargs h = Some (Returns l, h')
        /\ _name l = _name self
        /\ _config l = _config self
        /\ length h <= _context l < length h'
        /\ (forall a : addr, a < length h -> h' !! a = h !! a)
        /\ read_dict h' (_context self) = read_dict h (_context self)).
Proof.
  intros Hclosed Hctx Hkw. split.
  { intros Hself. unfold call_with_context.
    rewrite bool_decide_eq_true_2; [reflexivity|].
    apply elem_of_dom. destruct (kwargs !! "self"); [eauto|congruence]. }
  intros Hfree. rewrite (call_with_context_bound _ _ _ Hfree).
  destruct (with_context_extends self kwargs h Hclosed Hctx Hkw)
    as (l & h' & Hcall & Hname & Hconfig & (Hold & _) & Hnew).
  rewrite Hcall.
  exists l, h'. split; [reflexivity|]. split; [exact Hname|].
  split; [exact Hconfig|]. split; [exact Hnew|]. split; [exact Hold|].
  unfold read_dict, addr in *. rewrite (Hold _ Hctx). reflexivity.
Qed.

End deepcopy_props.

(** What a program reads from [v] when it follows at most [depth]
    references. *)
Inductive reading : Type :=
| RAtom (v : value)
| RList (items : list reading)
| RDict (items : gmap string reading)
| RStop.

Fixpoint read_through (depth : nat) (h : heap) (v : value) : reading :=
  match v with
  | VRef a =>
      match depth with
      | O => RStop
      | S depth' =>
          match h !! a with
          | Some (OList items) => RList (read_through depth' h <$> items)
          | Some (ODict items) => RDict (read_through depth' h <$> items)
          | None => RStop
          end
      end
  | _ => RAtom v
  end.

(** A value that refers to no object outside [R]. *)
Definition within (R : addr -> Prop) (v : value) : Prop :=
  match v with VRef a => R a | _ => True end.

Section independence.
Local Open Scope nat_scope.

(** Reading a value of a part of the heap that refers to itself only
    does not depend on the other objects. *)
Lemma read_through_region (R : addr -> Prop) (h1 h2 : heap) (depth : nat)
    (v : value) :
  (forall a : addr, R a -> h2 !! a = h1 !! a) ->
  (forall (a : addr) o, R a -> h1 !! a = Some o -> obj_Forall (within R) o) ->
  within R v ->
  read_through depth h2 v = read_through depth h1 v.
Proof.
  intros Hsame Hpart. revert v.
  induction depth as [|depth IH]; intros v Hv;
    destruct v as [| | | | |a]; try reflexivity.
  cbn in Hv. cbn [read_through]. unfold addr in *. rewrite (Hsame a Hv).
  destruct (h1 !! a) as [[items|items]|] eqn:Hobj; [| |reflexivity].
  - pose proof (Hpart a _ Hv Hobj) as Hitems. cbn in Hitems. f_equal.
    apply Forall_fmap_ext_1. eapply Forall_impl; [exact Hitems|].
    intros x Hx. apply IH. exact Hx.
  - pose proof (Hpart a _ Hv Hobj) as Hitems. cbn in Hitems. f_equal.
    apply map_fmap_ext. intros key x Hkey. apply IH.
    exact (Hitems key x Hkey).
Qed.

(** Reading a value of the added part does not depend on the objects
    below [n]. *)
Lemma read_through_added (n : nat) (h1 h2 : heap) (depth : nat) (v : value) :
  (forall a : addr, n <= a -> h2 !! a = h1 !! a) ->
  (forall (a : addr) o, n <= a -> h1 !! a = Some o ->
     obj_Forall (fresh_value n) o) ->
  fresh_value n v ->
  read_through depth h2 v = read_through depth h1 v.
Proof. apply (read_through_region (fun a => n <= a)). Qed.

(** X17. The context of the logger that a call of [with_context]
    returns (no keyword named [self], no dangling reference) is
    independent of everything that existed before the call: whatever
    is done afterwards to the objects of the old heap (the receiver's
    context, the values passed by the caller and all they refer to),
    reading the new context to any depth gives what it gave right
    after the call. *)
Theorem with_context_copy_is_independent (self : Logger)
    (kwargs : gmap string value) (h : heap) :
  closed_heap h ->
  _context self < length h ->
  map_Forall (fun _ => closed_value (length h)) kwargs ->
  kwargs !! "self" = None ->
  exists l h',
    call_with_context self kwargs h = Some (Returns l, h')
    /\ forall (later : heap) (depth : nat),
         (forall a : addr, length h <= a -> later !! a = h' !! a) ->
         read_through depth later (VRef (_context l))
         = read_through depth h' (VRef (_context l)).
Proof.
  intros Hclosed Hctx Hkw Hfree.
  rewrite (call_with_context_bound _ _ _ Hfree).
  destruct (with_context_extends self kwargs h Hclosed Hctx Hkw)
    as (l & h' & Hcall & _ & _ & (_ & _ & Hadded) & Hnew).
  rewrite Hcall.
  exists l, h'. split; [reflexivity|].
  intros later depth Hsame.
  apply (read_through_added (length h)); [exact Hsame|exact Hadded|].
  cbn. lia.
Qed.
End independence.

(** A heap whose context holds a list that holds itself; the third
    object is a list the caller passes. *)
Definition nested_heap : heap :=
  [ODict {["tags" := VRef 1%nat]};
   OList [VStr "a"; VRef 1%nat];
   OList [VInt 1; VInt 2]].

Lemma nested_heap_closed : closed_heap nested_heap.
Proof.
  intros a o Ho. destruct a as [|[|[|a]]]; cbn in Ho; try discriminate;
    injection Ho as <-; cbn.
  - apply map_Forall_singleton. cbn. lia.
  - repeat constructor.
  - repeat constructor.
Qed.

Lemma deepcopy_returns_and_keeps_heap_witness :
  exists y h',
    deepcopy (VRef 1%nat) nested_heap = Some (y, h')
    /\ extends nested_heap h'
    /\ copy_of nested_heap h' (VRef 1%nat) y.
Proof.
  apply (deepcopy_returns_and_keeps_heap (VRef 1%nat) nested_heap).
  - apply nested_heap_closed.
  - cbn. lia.
Defined.

Lemma with_context_keeps_receiver_witness :
  exists l h',
    call_with_context (sample_logger INFO) {["items" := VRef 2%nat]} nested_heap
    = Some (Returns l, h')
    /\ _name l = "market-data"
    /\ _config l = sample_config INFO
    /\ (3 <= _context l < length h')%nat
    /\ (forall a : addr, (a < 3)%nat -> h' !! a = nested_heap !! a)
    /\ read_dict h' 0%nat = Some {["tags" := VRef 1%nat]}.
Proof.
  apply (proj2 (with_context_keeps_receiver (sample_logger INFO)
                  {["items" := VRef 2%nat]} nested_heap
                  nested_heap_closed ltac:(cbn; lia)
                  ltac:(apply map_Forall_singleton; cbn; lia))).
  reflexivity.
Defined.

Lemma with_context_copy_is_independent_witness :
  exists l h',
    call_with_context (sample_logger INFO) {["items" := VRef 2%nat]} nested_heap
    = Some (Returns l, h')
    /\ forall (later : heap) (depth : nat),
         (forall a : addr, (3 <= a)%nat -> later !! a = h' !! a) ->
         read_through depth later (VRef (_context l))
         = read_through depth h' (VRef (_context l)).
Proof.
  apply (with_context_copy_is_independent (sample_logger INFO)
           {["items" := VRef 2%nat]} nested_heap).
  - apply nested_heap_closed.
  - cbn. lia.
  - apply map_Forall_singleton. cbn. lia.
  - reflexivity.
Defined.

(** ** with_context on contexts of plain values *)

Definition atomic (v : value) : Prop :=
  match v with VRef _ => False | _ => True end.

(** [for key, value in items: d[key] = value] *)
Definition set_all (d : gmap string value) (items : list (string * value))
  : gmap string value :=
  foldl (fun d kv => <[kv.1 := kv.2]> d) d items.

Section flat_contexts.
Local Open Scope nat_scope.

Lemma deepcopy_rec_atomic (fuel : nat) (v : value) (st : heap * memo) :
  atomic v -> deepcopy_rec fuel v st = Some (v, st).
Proof. destruct v; cbn; try contradiction; destruct fuel; reflexivity. Qed.

Lemma set_all_union (items : list (string * value)) (d : gmap string value) :
  NoDup items.*1 -> set_all d items = list_to_map items ∪ d.
Proof.
  revert d. induction items as [|[key v] rest IH]; intros d Hnodup.
  - cbn. rewrite (left_id_L ∅ (∪)). reflexivity.
  - rewrite fmap_cons in Hnodup. apply NoDup_cons in Hnodup as [Hkey Hrest].
    cbn [set_all foldl]. fold (set_all (<[key := v]> d) rest).
    rewrite (IH _ Hrest). cbn [list_to_map foldr].
    rewrite <- insert_union_l.
    rewrite <- insert_union_r by (apply not_elem_of_list_to_map_1; exact Hkey).
    reflexivity.
Qed.

Lemma deepcopy_dict_flat rec (b : addr) (items : list (string * value))
    (h : heap) (m : memo) (d : gmap string value) :
  (forall v st, atomic v -> rec v st = Some (v, st)) ->
  Forall (fun kv => atomic kv.2) items ->
  h !! b = Some (ODict d) ->
  _deepcopy_dict rec b items (h, m)
  = Some (<[b := ODict (set_all d items)]> h, m).
Proof.
  intros Hrec Hitems. revert h d.
  induction Hitems as [|[key v] rest Hv Hrest IH]; intros h d Hb.
  - cbn. rewrite list_insert_id by exact Hb. reflexivity.
  - cbn in Hv. cbn [_deepcopy_dict]. rewrite (Hrec v _ Hv).
    assert (dict_set b key v h = <[b := ODict (<[key := v]> d)]> h) as ->
      by (unfold dict_set; rewrite Hb; reflexivity).
    rewrite (IH _ (<[key := v]> d)).
    + rewrite list_insert_insert_eq. reflexivity.
    + apply list_lookup_insert_eq. eapply lookup_lt_Some. exact Hb.
Qed.

Lemma merge_kwargs_flat (b : addr) (items : list (string * value))
    (h : heap) (d : gmap string value) :
  Forall (fun kv => atomic kv.2) items ->
  h !! b = Some (ODict d) ->
  merge_kwargs b items h = Some (<[b := ODict (set_all d items)]> h).
Proof.
  intros Hitems. revert h d.
  induction Hitems as [|[key v] rest Hv Hrest IH]; intros h d Hb.
  - cbn. rewrite list_insert_id by exact Hb. reflexivity.
  - cbn in Hv. cbn [merge_kwargs].
    rewrite deepcopy_atom by (intros a ->; exact Hv).
    assert (dict_set b key v h = <[b := ODict (<[key := v]> d)]> h) as ->
      by (unfold dict_set; rewrite Hb; reflexivity).
    rewrite (IH _ (<[key := v]> d)).
    + rewrite list_insert_insert_eq. reflexivity.
    + apply list_lookup_insert_eq. eapply lookup_lt_Some. exact Hb.
Qed.

Lemma map_to_list_atomic (d : gmap string value) :
  map_Forall (fun _ => atomic) d ->
  Forall (fun kv => atomic kv.2) (map_to_list d).
Proof.
  intros Hd. apply map_Forall_to_list in Hd.
  eapply Forall_impl; [exact Hd|]. intros [key v]. auto.
Qed.

Lemma set_all_map_to_list (d kwargs : gmap string value) :
  set_all d (map_to_list kwargs) = kwargs ∪ d.
Proof.
  rewrite set_all_union by apply NoDup_fst_map_to_list.
  rewrite list_to_map_to_list. reflexivity.
Qed.

Lemma insert_last (h : heap) (o o' : obj) :
  <[length h := o']> (h ++ [o]) = h ++ [o'].
Proof.
  rewrite insert_app_r_alt by lia. rewrite Nat.sub_diag. reflexivity.
Qed.

Lemma deepcopy_flat (ctx : addr) (h : heap) (d : gmap string value) :
  h !! ctx = Some (ODict d) -> map_Forall (fun _ => atomic) d ->
  deepcopy (VRef ctx) h = Some (VRef (length h), h ++ [ODict d]).
Proof.
  intros Hctx Hd. unfold deepcopy. cbn [deepcopy_rec fst snd].
  rewrite lookup_empty. unfold addr in *. rewrite Hctx.
  rewrite (deepcopy_dict_flat _ _ _ _ _ ∅).
  - rewrite insert_last, set_all_map_to_list, (right_id_L ∅ (∪)). reflexivity.
  - intros v st. apply deepcopy_rec_atomic.
  - apply map_to_list_atomic. exact Hd.
  - apply list_lookup_middle. reflexivity.
Qed.

(** X18. When the receiver's context and the new pairs hold plain
    values only (no list, no dict) and no pair is named [self], a call
    of [with_context] returns a logger whose context is the receiver's
    context overlaid with the pairs, a pair winning over a context
    entry of the same key, and the receiver's context is as it was. *)
Theorem with_context_overlays_flat_context (self : Logger)
    (kwargs d : gmap string value) (h : heap) :
  read_dict h (_context self) = Some d ->
  map_Forall (fun _ => atomic) d ->
  map_Forall (fun _ => atomic) kwargs ->
  kwargs !! "self" = None ->
  exists l h',
    call_with_context self kwargs h = Some (Returns l, h')
    /\ read_dict h' (_context l) = Some (kwargs ∪ d)
    /\ read_dict h' (_context self) = Some d.
Proof.
  intros Hread Hd Hkw Hfree. rewrite (call_with_context_bound _ _ _ Hfree).
  unfold read_dict in Hread.
  destruct (h !! _context self) as [[items|d0]|] eqn:Hctx; try discriminate.
  injection Hread as ->.
  unfold with_context. rewrite (deepcopy_flat _ _ _ Hctx Hd).
  rewrite (merge_kwargs_flat _ _ _ d (map_to_list_atomic _ Hkw))
    by (apply list_lookup_middle; reflexivity).
  rewrite insert_last, set_all_map_to_list.
  assert ((h ++ [ODict (kwargs ∪ d)]) !! _context self = Some (ODict d))
    as Hold.
  { rewrite lookup_app_l by (eapply lookup_lt_Some; exact Hctx). exact Hctx. }
  unfold Logger__init__, read_dict. unfold addr in *.
  rewrite (list_lookup_middle h [] (ODict (kwargs ∪ d)) (length h) eq_refl).
  destruct (bool_decide (dom (kwargs ∪ d) = ∅)) eqn:Hdom.
  - apply bool_decide_eq_true in Hdom. apply dom_empty_inv_L in Hdom.
    eexists _, _. split; [reflexivity|]. cbn [_context].
    rewrite (list_lookup_middle _ [] (ODict ∅) _ eq_refl).
    split; [rewrite Hdom; reflexivity|].
    rewrite lookup_app_l by (eapply lookup_lt_Some; exact Hold).
    rewrite Hold. reflexivity.
  - eexists _, _. split; [reflexivity|]. cbn [_context].
    rewrite (list_lookup_middle h [] (ODict (kwargs ∪ d)) (length h) eq_refl).
    split; [reflexivity|]. rewrite Hold. reflexivity.
Qed.
End flat_contexts.

Lemma with_context_overlays_flat_context_witness :
  exists l h',
    call_with_context (sample_logger INFO)
      {["user_id" := VStr "u2"; "attempt" := VInt 3]}
      [ODict {["user_id" := VStr "u1"; "region" := VStr "eu"]}]
    = Some (Returns l, h')
    /\ read_dict h' (_context l)
       = Some ({["user_id" := VStr "u2"; "attempt" := VInt 3]}
               ∪ {["user_id" := VStr "u1"; "region" := VStr "eu"]})
    /\ read_dict h' 0%nat
       = Some {["user_id" := VStr "u1"; "region" := VStr "eu"]}.
Proof.
  apply (with_context_overlays_flat_context (sample_logger INFO)
           {["user_id" := VStr "u2"; "attempt" := VInt 3]}
           {["user_id" := VStr "u1"; "region" := VStr "eu"]}
           [ODict {["user_id" := VStr "u1"; "region" := VStr "eu"]}]).
  - reflexivity.
  - apply map_Forall_insert_2; [exact I|]. apply map_Forall_singleton. exact I.
  - apply map_Forall_insert_2; [exact I|]. apply map_Forall_singleton. exact I.
  - vm_compute. reflexivity.
Defined.

(** ** copy.deepcopy: a copy reads as the original *)




Section copy_correct.
Local Open Scope nat_scope.







Section one_call.
Variable h0 : heap.
Hypothesis h0_closed : closed_heap h0.
Variable base : nat.













End one_call.
End copy_correct.

(** ** with_context: the new context by value *)



Section with_context_correct.
Local Open Scope nat_scope.





End with_context_correct.

Section with_context_by_value.
Local Open Scope nat_scope.



End with_context_by_value.



